(** * Image-Edit-Studio: the scene editor of [src/components/SimpleEditor.tsx]

    A shallow embedding of the editor component: its scene model (background,
    overlay, element stack, selection), the pointer-driven interaction
    handlers, the layer operations, the eraser modal, the export rasteriser
    (as the sequence of 2D-context calls it issues) and the white-background
    removal loop, followed by the properties proved about them.

    Conventions of the embedding.
    - A JavaScript [number] that holds a coordinate, a size, a percentage or
      an angle is an exact rational ([Q]); IEEE rounding, [NaN] and the
      infinities are outside the model.  Where the source would compute with
      [undefined] (a field the snapshot object does not have) or throw a
      [TypeError], the handler returns [None].
    - React state ([useState]) and refs ([useRef]) are the fields of one
      record, [EditorState]; a handler is a function from state to state.
    - Object spread [{ ...o, f: v }] is a record copy with one field replaced.
    - Closures see the state of the render in which the handler runs.
    - Left out: the canvas sizing effect and its aspect-ratio selector, the
      paste listener, the spinner flag of the background removal, the dotted
      keys of [updateElement], and the JSX of the live view.
*)

From Stdlib Require Import QArith Qround Lqa.
From stdpp Require Import base list strings option numbers pretty.

Set Default Proof Using "Type".

(** ** Numbers *)

(** [Math.max] and [Math.min] on the rational model of numbers. *)
Definition Math_max (a b : Q) : Q := if Qlt_le_dec a b then b else a.
Definition Math_min (a b : Q) : Q := if Qlt_le_dec b a then b else a.

(** [a >= b], [a > b] as the booleans the source branches on. *)
Definition Qgeb (a b : Q) : bool := Qle_bool b a.
Definition Qgtb (a b : Q) : bool := negb (Qle_bool a b).

(** ** Data model (the interfaces at the top of the file) *)

Module ElementType.
Inductive t := text | image | shape.
End ElementType.

Module CropData.
Record t := mk { top : Q; right : Q; bottom : Q; left : Q }.
End CropData.

Inductive BorderStyle := solid | dashed | dotted.

Module BorderData.
Record t := mk { width : Q; style : BorderStyle; color : string }.
End BorderData.

Module ShadowData.
Record t := mk { color : string; opacity : Q; x : Q; y : Q; blur : Q }.
End ShadowData.

Module BaseElement.
Record t := mk {
  id : string;
  x : Q;
  y : Q;
  rotation : Q;
  zIndex : nat;
  crop : option CropData.t;
  border : option BorderData.t;
  shadow : option ShadowData.t;
  opacity : option Q }.

Definition set_xy (nx ny : Q) (b : t) : t :=
  mk (id b) nx ny (rotation b) (zIndex b) (crop b) (border b) (shadow b) (opacity b).
Definition set_rotation (r : Q) (b : t) : t :=
  mk (id b) (x b) (y b) r (zIndex b) (crop b) (border b) (shadow b) (opacity b).
Definition set_crop (c : option CropData.t) (b : t) : t :=
  mk (id b) (x b) (y b) (rotation b) (zIndex b) c (border b) (shadow b) (opacity b).
End BaseElement.

Inductive Align := align_left | align_center | align_right.

Module TextElement.
Record t := mk {
  base : BaseElement.t;
  content : string;
  fontSize : Q;
  fontFamily : string;
  color : string;
  align : Align;
  shadowEnabled : bool }.

Definition set_base (b : BaseElement.t) (e : t) : t :=
  mk b (content e) (fontSize e) (fontFamily e) (color e) (align e) (shadowEnabled e).
Definition set_fontSize (s : Q) (e : t) : t :=
  mk (base e) (content e) s (fontFamily e) (color e) (align e) (shadowEnabled e).
Definition set_content (s : string) (e : t) : t :=
  mk (base e) s (fontSize e) (fontFamily e) (color e) (align e) (shadowEnabled e).
Definition set_fontFamily (s : string) (e : t) : t :=
  mk (base e) (content e) (fontSize e) s (color e) (align e) (shadowEnabled e).
Definition set_color (s : string) (e : t) : t :=
  mk (base e) (content e) (fontSize e) (fontFamily e) s (align e) (shadowEnabled e).
Definition set_align (a : Align) (e : t) : t :=
  mk (base e) (content e) (fontSize e) (fontFamily e) (color e) a (shadowEnabled e).
End TextElement.

Module ImageElement.
Record t := mk {
  base : BaseElement.t;
  src : string;
  width : Q;
  height : Q;
  aspectRatio : Q;   (* width / height *)
  borderRadius : option Q }.

Definition set_base (b : BaseElement.t) (e : t) : t :=
  mk b (src e) (width e) (height e) (aspectRatio e) (borderRadius e).
Definition set_src (s : string) (e : t) : t :=
  mk (base e) s (width e) (height e) (aspectRatio e) (borderRadius e).
Definition set_size (w h : Q) (e : t) : t :=
  mk (base e) (src e) w h (aspectRatio e) (borderRadius e).
Definition set_borderRadius (r : Q) (e : t) : t :=
  mk (base e) (src e) (width e) (height e) (aspectRatio e) (Some r).
End ImageElement.

Inductive ShapeType := rectangle | circle.

Module ShapeElement.
Record t := mk {
  base : BaseElement.t;
  shapeType : ShapeType;
  width : Q;
  height : Q;
  color : string;
  borderRadius : option Q }.   (* only for rectangle *)

Definition set_base (b : BaseElement.t) (e : t) : t :=
  mk b (shapeType e) (width e) (height e) (color e) (borderRadius e).
Definition set_size (w h : Q) (e : t) : t :=
  mk (base e) (shapeType e) w h (color e) (borderRadius e).
Definition set_color (s : string) (e : t) : t :=
  mk (base e) (shapeType e) (width e) (height e) s (borderRadius e).
Definition set_borderRadius (r : Q) (e : t) : t :=
  mk (base e) (shapeType e) (width e) (height e) (color e) (Some r).
End ShapeElement.

(** [type EditorElement = TextElement | ImageElement | ShapeElement]; the
    [type] field of the source is the constructor. *)
Inductive EditorElement :=
| Text (t : TextElement.t)
| Image (i : ImageElement.t)
| Shape (s : ShapeElement.t).

Definition el_type (el : EditorElement) : ElementType.t :=
  match el with
  | Text _ => ElementType.text
  | Image _ => ElementType.image
  | Shape _ => ElementType.shape
  end.

Definition el_base (el : EditorElement) : BaseElement.t :=
  match el with
  | Text t => TextElement.base t
  | Image i => ImageElement.base i
  | Shape s => ShapeElement.base s
  end.

Definition el_set_base (b : BaseElement.t) (el : EditorElement) : EditorElement :=
  match el with
  | Text t => Text (TextElement.set_base b t)
  | Image i => Image (ImageElement.set_base b i)
  | Shape s => Shape (ShapeElement.set_base b s)
  end.

Definition el_id (el : EditorElement) : string := BaseElement.id (el_base el).
Definition el_zIndex (el : EditorElement) : nat := BaseElement.zIndex (el_base el).
Definition el_crop (el : EditorElement) : option CropData.t := BaseElement.crop (el_base el).

Inductive BackgroundType := bg_image | bg_solid | bg_gradient.
Inductive GradientType := linear | radial.

Module BackgroundImage.
Record t := mk { src : string; x : Q; y : Q; scale : Q }.
End BackgroundImage.

Module Gradient.
Record t := mk { type : GradientType; direction : string; colors : list string }.
End Gradient.

Module BackgroundState.
Record t := mk {
  type : BackgroundType;
  image : option BackgroundImage.t;
  color : option string;
  gradient : option Gradient.t }.
End BackgroundState.

Module Overlay.
Record t := mk { color : string; opacity : Q }.
End Overlay.

Module Point.
Record t := mk { x : Q; y : Q }.
End Point.

Module Dimensions.
Record t := mk { width : Q; height : Q }.
End Dimensions.

(** A decoded [HTMLImageElement]: its source and intrinsic size in pixels. *)
Module HTMLImage.
Record t := mk { src : string; width : Z; height : Z }.
End HTMLImage.

(** The pixels of a canvas, as [getImageData] returns them: RGBA bytes. *)
Module Raster.
Record t := mk { width : Z; height : Z; data : list Z }.
End Raster.

(** The string-literal unions ['lt' | 'rt' | 'lb' | 'rb'],
    ['move' | 'resize' | 'rotate' | 'crop'] and
    ['up' | 'down' | 'top' | 'bottom']. *)
Module CropHandle.
Inductive t := lt | rt | lb | rb.
End CropHandle.

Module Gesture.
Inductive t := move | resize | rotate | crop.
End Gesture.

Module Direction.
Inductive t := up | down | top | bottom.
End Direction.

(** [initialElementState.current : any]: [null], a copy of the background
    image record, a copy of an element, or the empty object that
    [{ ...undefined }] yields when no element has the id. *)
Inductive Snapshot :=
| SnapNull
| SnapBackground (img : BackgroundImage.t)
| SnapElement (el : EditorElement)
| SnapEmpty.

Record EditorState := mkState {
  background : BackgroundState.t;
  overlay : Overlay.t;
  elements : list EditorElement;
  selectedId : option string;          (* string | 'bg' | null *)
  canvasDimensions : Dimensions.t;
  isDragging : bool;
  isResizing : bool;
  isRotating : bool;
  isCropping : bool;
  isCroppingDrag : option CropHandle.t;
  isErasing : bool;
  eraserBrushSize : Q;
  eraserHardness : Q;
  eraserOpacity : Q;
  eraserCanvas : option Raster.t;      (* eraserCanvasRef.current *)
  eraserLastPos : option Point.t;
  dragStart : Point.t;
  initialElementState : Snapshot }.

Definition set_background (v : BackgroundState.t) (s : EditorState) : EditorState :=
  mkState v (overlay s) (elements s) (selectedId s) (canvasDimensions s)
    (isDragging s) (isResizing s) (isRotating s) (isCropping s) (isCroppingDrag s)
    (isErasing s) (eraserBrushSize s) (eraserHardness s) (eraserOpacity s)
    (eraserCanvas s) (eraserLastPos s) (dragStart s) (initialElementState s).
Definition set_overlay (v : Overlay.t) (s : EditorState) : EditorState :=
  mkState (background s) v (elements s) (selectedId s) (canvasDimensions s)
    (isDragging s) (isResizing s) (isRotating s) (isCropping s) (isCroppingDrag s)
    (isErasing s) (eraserBrushSize s) (eraserHardness s) (eraserOpacity s)
    (eraserCanvas s) (eraserLastPos s) (dragStart s) (initialElementState s).
Definition set_elements (v : list EditorElement) (s : EditorState) : EditorState :=
  mkState (background s) (overlay s) v (selectedId s) (canvasDimensions s)
    (isDragging s) (isResizing s) (isRotating s) (isCropping s) (isCroppingDrag s)
    (isErasing s) (eraserBrushSize s) (eraserHardness s) (eraserOpacity s)
    (eraserCanvas s) (eraserLastPos s) (dragStart s) (initialElementState s).
Definition set_selectedId (v : option string) (s : EditorState) : EditorState :=
  mkState (background s) (overlay s) (elements s) v (canvasDimensions s)
    (isDragging s) (isResizing s) (isRotating s) (isCropping s) (isCroppingDrag s)
    (isErasing s) (eraserBrushSize s) (eraserHardness s) (eraserOpacity s)
    (eraserCanvas s) (eraserLastPos s) (dragStart s) (initialElementState s).
Definition set_isDragging (v : bool) (s : EditorState) : EditorState :=
  mkState (background s) (overlay s) (elements s) (selectedId s) (canvasDimensions s)
    v (isResizing s) (isRotating s) (isCropping s) (isCroppingDrag s)
    (isErasing s) (eraserBrushSize s) (eraserHardness s) (eraserOpacity s)
    (eraserCanvas s) (eraserLastPos s) (dragStart s) (initialElementState s).
Definition set_isResizing (v : bool) (s : EditorState) : EditorState :=
  mkState (background s) (overlay s) (elements s) (selectedId s) (canvasDimensions s)
    (isDragging s) v (isRotating s) (isCropping s) (isCroppingDrag s)
    (isErasing s) (eraserBrushSize s) (eraserHardness s) (eraserOpacity s)
    (eraserCanvas s) (eraserLastPos s) (dragStart s) (initialElementState s).
Definition set_isRotating (v : bool) (s : EditorState) : EditorState :=
  mkState (background s) (overlay s) (elements s) (selectedId s) (canvasDimensions s)
    (isDragging s) (isResizing s) v (isCropping s) (isCroppingDrag s)
    (isErasing s) (eraserBrushSize s) (eraserHardness s) (eraserOpacity s)
    (eraserCanvas s) (eraserLastPos s) (dragStart s) (initialElementState s).
Definition set_isCropping (v : bool) (s : EditorState) : EditorState :=
  mkState (background s) (overlay s) (elements s) (selectedId s) (canvasDimensions s)
    (isDragging s) (isResizing s) (isRotating s) v (isCroppingDrag s)
    (isErasing s) (eraserBrushSize s) (eraserHardness s) (eraserOpacity s)
    (eraserCanvas s) (eraserLastPos s) (dragStart s) (initialElementState s).
Definition set_isCroppingDrag (v : option CropHandle.t) (s : EditorState) : EditorState :=
  mkState (background s) (overlay s) (elements s) (selectedId s) (canvasDimensions s)
    (isDragging s) (isResizing s) (isRotating s) (isCropping s) v
    (isErasing s) (eraserBrushSize s) (eraserHardness s) (eraserOpacity s)
    (eraserCanvas s) (eraserLastPos s) (dragStart s) (initialElementState s).
Definition set_isErasing (v : bool) (s : EditorState) : EditorState :=
  mkState (background s) (overlay s) (elements s) (selectedId s) (canvasDimensions s)
    (isDragging s) (isResizing s) (isRotating s) (isCropping s) (isCroppingDrag s)
    v (eraserBrushSize s) (eraserHardness s) (eraserOpacity s)
    (eraserCanvas s) (eraserLastPos s) (dragStart s) (initialElementState s).
Definition set_eraserCanvas (v : option Raster.t) (s : EditorState) : EditorState :=
  mkState (background s) (overlay s) (elements s) (selectedId s) (canvasDimensions s)
    (isDragging s) (isResizing s) (isRotating s) (isCropping s) (isCroppingDrag s)
    (isErasing s) (eraserBrushSize s) (eraserHardness s) (eraserOpacity s)
    v (eraserLastPos s) (dragStart s) (initialElementState s).
Definition set_eraserLastPos (v : option Point.t) (s : EditorState) : EditorState :=
  mkState (background s) (overlay s) (elements s) (selectedId s) (canvasDimensions s)
    (isDragging s) (isResizing s) (isRotating s) (isCropping s) (isCroppingDrag s)
    (isErasing s) (eraserBrushSize s) (eraserHardness s) (eraserOpacity s)
    (eraserCanvas s) v (dragStart s) (initialElementState s).
Definition set_dragStart (v : Point.t) (s : EditorState) : EditorState :=
  mkState (background s) (overlay s) (elements s) (selectedId s) (canvasDimensions s)
    (isDragging s) (isResizing s) (isRotating s) (isCropping s) (isCroppingDrag s)
    (isErasing s) (eraserBrushSize s) (eraserHardness s) (eraserOpacity s)
    (eraserCanvas s) (eraserLastPos s) v (initialElementState s).
Definition set_initialElementState (v : Snapshot) (s : EditorState) : EditorState :=
  mkState (background s) (overlay s) (elements s) (selectedId s) (canvasDimensions s)
    (isDragging s) (isResizing s) (isRotating s) (isCropping s) (isCroppingDrag s)
    (isErasing s) (eraserBrushSize s) (eraserHardness s) (eraserOpacity s)
    (eraserCanvas s) (eraserLastPos s) (dragStart s) v.

(** The [useState]/[useRef] initial values of the component. *)
Definition initialState : EditorState :=
  mkState
    (BackgroundState.mk bg_solid None (Some "#ffffff") None)
    (Overlay.mk "#000000" 0)
    []
    None
    (Dimensions.mk 500 500)
    false false false
    false None
    false 20%Q 1%Q 1%Q None None
    (Point.mk 0 0)
    SnapNull.

(** [!selectedId]: [null] and the empty string are falsy. *)
Definition falsy (sel : option string) : bool :=
  match sel with
  | None => true
  | Some s => bool_decide (s = EmptyString)
  end.

(** [selectedId === id] *)
Definition is_selected (sel : option string) (i : string) : bool :=
  bool_decide (sel = Some i).

(** [elements.find(e => e.id === id)] with its index ([findIndex]). *)
Definition find_by_id (i : string) (els : list EditorElement) : option (nat * EditorElement) :=
  list_find (λ e, el_id e = i) els.

(** [elements.find(e => e.id === selectedId)]: never matches for [null]. *)
Definition find_selected (sel : option string) (els : list EditorElement)
  : option (nat * EditorElement) :=
  match sel with
  | None => None
  | Some i => find_by_id i els
  end.

(** ** Adding content *)

(** The file picked in an [<input type="file">]: its MIME type and the
    outcome of [fileToBase64] ([None] when the promise rejects). *)
Module File.
Record t := mk { type : string; base64 : option string }.
End File.

Definition dataURL (mime payload : string) : string :=
  "data:" +:+ mime +:+ ";base64," +:+ payload.

(** [Date.now().toString()] *)
Definition fresh_id (now : N) : string := pretty now.

Definition handleBackgroundUpload (file : option File.t) (st : EditorState) : EditorState :=
  match file with
  | Some f =>
      match File.base64 f with
      | Some base64 =>
          set_selectedId (Some "bg")
            (set_background
               (BackgroundState.mk bg_image
                  (Some (BackgroundImage.mk (dataURL (File.type f) base64) 0 0 1))
                  None None)
               st)
      | None => st
      end
  | None => st
  end.

(** [addImageElement]: the body of [img.onload].  [img] is the decoded image,
    [None] when the load event never fires; [now] is [Date.now()]. *)
Definition addImageElement (now : N) (src : string) (img : option HTMLImage.t)
    (st : EditorState) : EditorState :=
  match img with
  | None => st
  | Some img =>
      let aspectRatio := (inject_Z (HTMLImage.width img) / inject_Z (HTMLImage.height img))%Q in
      let baseSize := 200%Q in
      let width := if Qgeb aspectRatio 1 then baseSize else (baseSize * aspectRatio)%Q in
      let height := if Qgeb aspectRatio 1 then (baseSize / aspectRatio)%Q else baseSize in
      let newEl :=
        Image (ImageElement.mk
          (BaseElement.mk (fresh_id now)
             (Dimensions.width (canvasDimensions st) / 2)%Q
             (Dimensions.height (canvasDimensions st) / 2)%Q
             0
             (length (elements st))
             (Some (CropData.mk 0 0 0 0))
             (Some (BorderData.mk 0 solid "#000000"))
             (Some (ShadowData.mk "#000000" 0.5 0 0 0))
             None)
          src width height aspectRatio (Some 0%Q)) in
      set_selectedId (Some (el_id newEl))
        (set_elements (elements st ++ [newEl]) st)
  end.

Definition handleDecoUpload (now : N) (file : option File.t) (img : option HTMLImage.t)
    (st : EditorState) : EditorState :=
  match file with
  | Some f =>
      match File.base64 f with
      | Some base64 => addImageElement now (dataURL (File.type f) base64) img st
      | None => st
      end
  | None => st
  end.

Definition addText (now : N) (st : EditorState) : EditorState :=
  let newText :=
    Text (TextElement.mk
      (BaseElement.mk (fresh_id now)
         (Dimensions.width (canvasDimensions st) / 2)%Q
         (Dimensions.height (canvasDimensions st) / 2)%Q
         0
         (length (elements st))
         None None
         (Some (ShadowData.mk "#000000" 0.8 2 2 4))
         None)
      "Nhập văn bản..." 24 "font-roboto" "#ffffff" align_center true) in
  set_selectedId (Some (el_id newText))
    (set_elements (elements st ++ [newText]) st).

Definition addShape (now : N) (shapeType : ShapeType) (st : EditorState) : EditorState :=
  let newShape :=
    Shape (ShapeElement.mk
      (BaseElement.mk (fresh_id now)
         (Dimensions.width (canvasDimensions st) / 2)%Q
         (Dimensions.height (canvasDimensions st) / 2)%Q
         0
         (length (elements st))
         (Some (CropData.mk 0 0 0 0))
         None
         (Some (ShadowData.mk "#000000" 0.5 5 5 10))
         None)
      shapeType 150 150 "#3b82f6" (Some 0%Q)) in
  set_selectedId (Some (el_id newShape))
    (set_elements (elements st ++ [newShape]) st).

(** ** Property edits: [updateElement(key, value)] *)

(** The flat keys the side panel and the tools pass to [updateElement].
    (The dotted keys [border.*] and [shadow.*] are not embedded.) *)
Inductive FieldUpdate :=
| UpdSrc (v : string)
| UpdContent (v : string)
| UpdFontFamily (v : string)
| UpdColor (v : string)
| UpdAlign (v : Align)
| UpdBorderRadius (v : Q).

(** [{ ...el, [key]: value }].  Writing a key that the variant does not
    declare adds a property no reader looks at; the typed record is then
    unchanged. *)
Definition assign_field (u : FieldUpdate) (el : EditorElement) : EditorElement :=
  match u, el with
  | UpdSrc v, Image i => Image (ImageElement.set_src v i)
  | UpdContent v, Text t => Text (TextElement.set_content v t)
  | UpdFontFamily v, Text t => Text (TextElement.set_fontFamily v t)
  | UpdColor v, Text t => Text (TextElement.set_color v t)
  | UpdColor v, Shape s => Shape (ShapeElement.set_color v s)
  | UpdAlign v, Text t => Text (TextElement.set_align v t)
  | UpdBorderRadius v, Image i => Image (ImageElement.set_borderRadius v i)
  | UpdBorderRadius v, Shape s => Shape (ShapeElement.set_borderRadius v s)
  | _, _ => el
  end.

Definition updateElement (u : FieldUpdate) (st : EditorState) : EditorState :=
  if falsy (selectedId st) || bool_decide (selectedId st = Some "bg") then st
  else
    set_elements
      (map (λ el, if is_selected (selectedId st) (el_id el) then assign_field u el else el)
           (elements st))
      st.

(** ** Layer management *)

Definition moveLayer (direction : Direction.t) (st : EditorState) : EditorState :=
  if falsy (selectedId st) || bool_decide (selectedId st = Some "bg") then st
  else
    match find_selected (selectedId st) (elements st) with
    | None => st                                   (* index === -1 *)
    | Some (index, el) =>
        let newElements : list EditorElement := elements st in   (* [...elements] *)
        let newElements : list EditorElement :=
          match direction with
          | Direction.up =>
              if bool_decide (index < length (elements st) - 1) then
                match newElements !! (index + 1) with
                | Some above => <[index + 1 := el]> (<[index := above]> newElements)
                | None => newElements
                end
              else newElements
          | Direction.down =>
              if bool_decide (0 < index) then               (* index > 0 *)
                match newElements !! (index - 1) with
                | Some below => <[index - 1 := el]> (<[index := below]> newElements)
                | None => newElements
                end
              else newElements
          | Direction.top => delete index newElements ++ [el]
          | Direction.bottom => el :: delete index newElements
          end in
        set_elements newElements st
    end.

Definition deleteSelected (st : EditorState) : EditorState :=
  if bool_decide (selectedId st = Some "bg") then
    set_selectedId None
      (set_background (BackgroundState.mk bg_solid None (Some "#ffffff") None) st)
  else
    set_isCropping false
      (set_selectedId None
         (set_elements
            (filter (λ t, ¬ (selectedId st = Some (el_id t))) (elements st))
            st)).

(** ** Interaction handlers *)

Definition startCropping (st : EditorState) : EditorState :=
  if negb (falsy (selectedId st)) && negb (bool_decide (selectedId st = Some "bg"))
  then set_isCropping true st
  else st.

(** [handleMouseDown(e, id, type, cropHandle?)]; [e] is the pointer position
    that [getClientCoords] extracts from the mouse or touch event. *)
Definition handleMouseDown (e : Point.t) (id : string) (type : Gesture.t)
    (cropHandle : option CropHandle.t) (st : EditorState) : EditorState :=
  if isErasing st then st
  else if isCropping st && negb (is_selected (selectedId st) id) then
    set_isCropping false st                                    (* return *)
  else
    let st1 := set_dragStart e (set_selectedId (Some id) st) in
    let st2 :=
      if bool_decide (id = "bg") then
        match BackgroundState.type (background st), BackgroundState.image (background st) with
        | bg_image, Some img => set_initialElementState (SnapBackground img) st1
        | _, _ => st1
        end
      else
        match find_by_id id (elements st) with
        | Some (_, el) => set_initialElementState (SnapElement el) st1
        | None => set_initialElementState SnapEmpty st1
        end in
    match type, cropHandle with
    | Gesture.crop, Some h => set_isCroppingDrag (Some h) st2
    | Gesture.crop, None => st2
    | Gesture.move, _ => set_isDragging true st2
    | Gesture.resize, _ => set_isResizing true st2
    | Gesture.rotate, _ => set_isRotating true st2
    end.

Definition handleCanvasClick (st : EditorState) : EditorState :=
  if negb (isErasing st) then set_isCropping false (set_selectedId None st)
  else st.

(** Reads of [initialElementState.current.<field>].  [None] stands for a
    read the source cannot complete with a number: a [TypeError] (a property
    of [null] or of an absent [crop]) or [undefined]. *)
Definition snap_x (s : Snapshot) : option Q :=
  match s with
  | SnapBackground img => Some (BackgroundImage.x img)
  | SnapElement el => Some (BaseElement.x (el_base el))
  | _ => None
  end.

Definition snap_y (s : Snapshot) : option Q :=
  match s with
  | SnapBackground img => Some (BackgroundImage.y img)
  | SnapElement el => Some (BaseElement.y (el_base el))
  | _ => None
  end.

Definition snap_scale (s : Snapshot) : option Q :=
  match s with
  | SnapBackground img => Some (BackgroundImage.scale img)
  | _ => None
  end.

Definition snap_rotation (s : Snapshot) : option Q :=
  match s with
  | SnapElement el => Some (BaseElement.rotation (el_base el))
  | _ => None
  end.

Definition snap_crop (s : Snapshot) : option CropData.t :=
  match s with
  | SnapElement el => el_crop el
  | _ => None
  end.

Definition snap_fontSize (s : Snapshot) : option Q :=
  match s with
  | SnapElement (Text t) => Some (TextElement.fontSize t)
  | _ => None
  end.

Definition snap_width (s : Snapshot) : option Q :=
  match s with
  | SnapElement (Image i) => Some (ImageElement.width i)
  | SnapElement (Shape sh) => Some (ShapeElement.width sh)
  | _ => None
  end.

Definition snap_height (s : Snapshot) : option Q :=
  match s with
  | SnapElement (Image i) => Some (ImageElement.height i)
  | SnapElement (Shape sh) => Some (ShapeElement.height sh)
  | _ => None
  end.

Definition snap_aspectRatio (s : Snapshot) : option Q :=
  match s with
  | SnapElement (Image i) => Some (ImageElement.aspectRatio i)
  | _ => None
  end.

(** The [// CROP] branch of the [map] callback in [handleMouseMove]. *)
Definition cropElement (h : CropHandle.t) (snap : Snapshot) (dx dy : Q)
    (el : EditorElement) : option EditorElement :=
  let currentCrop := default (CropData.mk 0 0 0 0) (el_crop el) in
  let initialW := match el with
                  | Shape s => ShapeElement.width s
                  | Image i => ImageElement.width i
                  | Text _ => 100%Q
                  end in
  let initialH := match el with
                  | Shape s => ShapeElement.height s
                  | Image i => ImageElement.height i
                  | Text _ => 100%Q
                  end in
  let percentX := ((dx / initialW) * 100)%Q in
  let percentY := ((dy / initialH) * 100)%Q in
  init ← snap_crop snap;
  let newCrop :=
    match h with
    | CropHandle.lt =>
        let nl := Math_min (Math_max 0 (CropData.left init + percentX))
                           (100 - CropData.right currentCrop - 5) in
        let nt := Math_min (Math_max 0 (CropData.top init + percentY))
                           (100 - CropData.bottom currentCrop - 5) in
        CropData.mk nt (CropData.right currentCrop) (CropData.bottom currentCrop) nl
    | CropHandle.rt =>
        let nr := Math_min (Math_max 0 (CropData.right init - percentX))
                           (100 - CropData.left currentCrop - 5) in
        let nt := Math_min (Math_max 0 (CropData.top init + percentY))
                           (100 - CropData.bottom currentCrop - 5) in
        CropData.mk nt nr (CropData.bottom currentCrop) (CropData.left currentCrop)
    | CropHandle.lb =>
        let nl := Math_min (Math_max 0 (CropData.left init + percentX))
                           (100 - CropData.right currentCrop - 5) in
        let nb := Math_min (Math_max 0 (CropData.bottom init - percentY))
                           (100 - CropData.top currentCrop - 5) in
        CropData.mk (CropData.top currentCrop) (CropData.right currentCrop) nb nl
    | CropHandle.rb =>
        let nr := Math_min (Math_max 0 (CropData.right init - percentX))
                           (100 - CropData.left currentCrop - 5) in
        let nb := Math_min (Math_max 0 (CropData.bottom init - percentY))
                           (100 - CropData.top currentCrop - 5) in
        CropData.mk (CropData.top currentCrop) nr nb (CropData.left currentCrop)
    end%Q in
  Some (el_set_base (BaseElement.set_crop (Some newCrop) (el_base el)) el).

(** [if (isDragging.current)] *)
Definition dragElement (snap : Snapshot) (dx dy : Q) (el : EditorElement)
  : option EditorElement :=
  ix ← snap_x snap;
  iy ← snap_y snap;
  Some (el_set_base (BaseElement.set_xy (ix + dx) (iy + dy) (el_base el)) el).

(** [if (isResizing.current)] *)
Definition resizeElement (snap : Snapshot) (dx : Q) (el : EditorElement)
  : option EditorElement :=
  let delta := dx in
  match el with
  | Text t =>
      fs ← snap_fontSize snap;
      Some (Text (TextElement.set_fontSize (Math_max 10 (fs + delta * 0.5)) t))
  | Image i =>
      w ← snap_width snap;
      ar ← snap_aspectRatio snap;
      let newWidth := Math_max 20 (w + delta) in
      Some (Image (ImageElement.set_size newWidth (newWidth / ar) i))
  | Shape s =>
      w ← snap_width snap;
      h ← snap_height snap;
      Some (Shape (ShapeElement.set_size
                     (Math_max 20 (w + delta))
                     (Math_max 20 (h + delta *
                        match ShapeElement.shapeType s with circle => 1 | rectangle => 1 end))
                     s))
  end%Q.

(** [if (isRotating.current)] *)
Definition rotateElement (snap : Snapshot) (dx : Q) (el : EditorElement)
  : option EditorElement :=
  r ← snap_rotation snap;
  Some (el_set_base (BaseElement.set_rotation (r + dx * 0.5) (el_base el)) el).

(** The callback of [prevElements.map] for the selected element: the
    branches are tried in the order crop, drag, resize, rotate. *)
Definition gestureElement (st : EditorState) (dx dy : Q) (el : EditorElement)
  : option EditorElement :=
  match isCroppingDrag st with
  | Some h => cropElement h (initialElementState st) dx dy el
  | None =>
      if isDragging st then dragElement (initialElementState st) dx dy el
      else if isResizing st then resizeElement (initialElementState st) dx el
      else if isRotating st then rotateElement (initialElementState st) dx el
      else Some el
  end.

Definition handleMouseMove (e : Point.t) (st : EditorState) : option EditorState :=
  if negb (isDragging st) && negb (isResizing st) && negb (isRotating st)
     && negb (bool_decide (is_Some (isCroppingDrag st)))
  then Some st
  else if falsy (selectedId st) then Some st
  else
    let dx := (Point.x e - Point.x (dragStart st))%Q in
    let dy := (Point.y e - Point.y (dragStart st))%Q in
    let bg := background st in
    match bool_decide (selectedId st = Some "bg"),
          BackgroundState.type bg, BackgroundState.image bg with
    | true, bg_image, Some img =>
        if isDragging st then
          ix ← snap_x (initialElementState st);
          iy ← snap_y (initialElementState st);
          Some (set_background
                  (BackgroundState.mk (BackgroundState.type bg)
                     (Some (BackgroundImage.mk (BackgroundImage.src img)
                              (ix + dx) (iy + dy) (BackgroundImage.scale img)))
                     (BackgroundState.color bg) (BackgroundState.gradient bg))
                  st)
        else if isResizing st then
          let scaleDelta := (dx * 0.005)%Q in
          sc ← snap_scale (initialElementState st);
          Some (set_background
                  (BackgroundState.mk (BackgroundState.type bg)
                     (Some (BackgroundImage.mk (BackgroundImage.src img)
                              (BackgroundImage.x img) (BackgroundImage.y img)
                              (Math_max 0.1 (sc + scaleDelta))))
                     (BackgroundState.color bg) (BackgroundState.gradient bg))
                  st)
        else Some st
    | _, _, _ =>
        els ← mapM (λ el, if is_selected (selectedId st) (el_id el)
                          then gestureElement st dx dy el
                          else Some el)
                   (elements st);
        Some (set_elements els st)
    end.

Definition handleMouseUp (st : EditorState) : EditorState :=
  set_eraserLastPos None
    (set_initialElementState SnapNull
       (set_isCroppingDrag None
          (set_isRotating false
             (set_isResizing false
                (set_isDragging false st))))).

(** ** Background and overlay controls *)

(** The "solid" variant button: [setBackground(prev => ({ ...prev, type: 'solid' }))]. *)
Definition selectSolidBackground (st : EditorState) : EditorState :=
  let prev := background st in
  set_background
    (BackgroundState.mk bg_solid (BackgroundState.image prev)
       (BackgroundState.color prev) (BackgroundState.gradient prev))
    st.

(** The "gradient" variant button. *)
Definition selectGradientBackground (st : EditorState) : EditorState :=
  let prev := background st in
  set_background
    (BackgroundState.mk bg_gradient (BackgroundState.image prev)
       (BackgroundState.color prev)
       (Some (Gradient.mk linear "to right" ["#ff9a9e"; "#fad0c4"])))
    st.

(** The "image" variant button clicks the hidden file input; the state changes
    only through the input's [onChange], [handleBackgroundUpload]. *)
Definition selectImageBackground (file : option File.t) (st : EditorState) : EditorState :=
  handleBackgroundUpload file st.

(** The colour input of the solid variant. *)
Definition setSolidColor (c : string) (st : EditorState) : EditorState :=
  set_background (BackgroundState.mk bg_solid None (Some c) None) st.

(** The zoom slider of the image variant, rendered while an image is present. *)
Definition setBackgroundScale (v : Q) (st : EditorState) : EditorState :=
  let bg := background st in
  match BackgroundState.type bg, BackgroundState.image bg with
  | bg_image, Some img =>
      set_background
        (BackgroundState.mk (BackgroundState.type bg)
           (Some (BackgroundImage.mk (BackgroundImage.src img) (BackgroundImage.x img)
                    (BackgroundImage.y img) v))
           (BackgroundState.color bg) (BackgroundState.gradient bg))
        st
  | _, _ => st
  end.

Definition setOverlayColor (c : string) (st : EditorState) : EditorState :=
  set_overlay (Overlay.mk c (Overlay.opacity (overlay st))) st.

Definition setOverlayOpacity (o : Q) (st : EditorState) : EditorState :=
  set_overlay (Overlay.mk (Overlay.color (overlay st)) o) st.

(** ** Eraser tool *)

(** The mouse event on the eraser canvas together with the canvas's
    [getBoundingClientRect()]. *)
Module EraserEvent.
Record t := mk {
  buttons : Z;
  clientX : Q;
  clientY : Q;
  rect_left : Q;
  rect_top : Q;
  rect_width : Q;
  rect_height : Q }.
End EraserEvent.

(** A canvas element as the browser creates it: 300 by 150, transparent. *)
Definition blankCanvas : Raster.t :=
  Raster.mk 300 150 (replicate (300 * 150 * 4) 0%Z).

Section Eraser.
(** Browser primitives the tool calls: PNG encoding of a canvas,
    [Math.hypot], and one radial-gradient stamp painted with
    [destination-out] (brush size, hardness, opacity, canvas, centre). *)
Variable toDataURL : Raster.t → string.
Variable hypot : Q → Q → Q.
Variable drawPoint : Q → Q → Q → Raster.t → Q → Q → Raster.t.

(** [startErasing]; the modal then renders and React attaches
    [eraserCanvasRef] to its new canvas. *)
Definition startErasing (st : EditorState) : EditorState :=
  if falsy (selectedId st) || bool_decide (selectedId st = Some "bg") then st
  else set_eraserCanvas (Some blankCanvas)
         (set_eraserLastPos None (set_isErasing true st)).

(** The effect that loads the selected image into the eraser canvas;
    [decoded] is the raster of the element's [src] once [img.onload]
    fires ([None] when it never does). *)
Definition eraserModalEffect (decoded : option Raster.t) (st : EditorState) : EditorState :=
  match isErasing st, eraserCanvas st, find_selected (selectedId st) (elements st) with
  | true, Some _, Some (_, Image _) =>
      match decoded with
      | Some r => set_eraserCanvas (Some r) st
      | None => st
      end
  | _, _, _ => st
  end.

Definition handleEraserDraw (e : EraserEvent.t) (st : EditorState) : EditorState :=
  if negb (bool_decide (EraserEvent.buttons e = 1%Z)) then st
  else
    match eraserCanvas st with
    | None => st
    | Some canvas =>
        let scaleX := (inject_Z (Raster.width canvas) / EraserEvent.rect_width e)%Q in
        let scaleY := (inject_Z (Raster.height canvas) / EraserEvent.rect_height e)%Q in
        let x := ((EraserEvent.clientX e - EraserEvent.rect_left e) * scaleX)%Q in
        let y := ((EraserEvent.clientY e - EraserEvent.rect_top e) * scaleY)%Q in
        let stamp := drawPoint (eraserBrushSize st) (eraserHardness st) (eraserOpacity st) in
        let canvas1 :=
          match eraserLastPos st with
          | Some last =>
              let dist := hypot (x - Point.x last)%Q (y - Point.y last)%Q in
              let steps := Qceiling (dist / (eraserBrushSize st * 0.2))%Q in
              fold_left
                (λ c i,
                   let t := (inject_Z i / inject_Z steps)%Q in
                   let interpX := (Point.x last + (x - Point.x last) * t)%Q in
                   let interpY := (Point.y last + (y - Point.y last) * t)%Q in
                   stamp c interpX interpY)
                (seqZ 0 steps) canvas
          | None => canvas
          end in
        let canvas2 := stamp canvas1 x y in
        set_eraserLastPos (Some (Point.mk x y)) (set_eraserCanvas (Some canvas2) st)
    end.

(** [onMouseLeave] of the eraser canvas. *)
Definition handleEraserLeave (st : EditorState) : EditorState :=
  set_eraserLastPos None st.

(** The green "save" button.  Closing the modal unmounts the canvas, which
    resets the ref. *)
Definition saveEraserResult (st : EditorState) : EditorState :=
  let st1 :=
    match eraserCanvas st with
    | Some canvas =>
        if negb (falsy (selectedId st))
        then updateElement (UpdSrc (toDataURL canvas)) st
        else st
    | None => st
    end in
  set_eraserCanvas None (set_isErasing false st1).

(** The red close button: [() => setIsErasing(false)]. *)
Definition closeEraser (st : EditorState) : EditorState :=
  set_eraserCanvas None (set_isErasing false st).
End Eraser.

(** ** White-background removal *)

(** [v > 240] for a byte read from the pixel array; a read past the end is
    [undefined], which compares false. *)
Definition above_threshold (v : option Z) : bool :=
  match v with
  | Some n => (240 <? n)%Z
  | None => false
  end.

(** The loop [for (let i = 0; i < data.length; i += 4)], with one unit of
    [fuel] per iteration. *)
Fixpoint whiten_from (fuel i : nat) (data : list Z) : list Z :=
  match fuel with
  | O => data
  | S fuel' =>
      if bool_decide (i < length data) then
        let r := data !! i in
        let g := data !! (i + 1) in
        let b := data !! (i + 2) in
        let data' :=
          if above_threshold r && above_threshold g && above_threshold b
          then <[i + 3 := 0%Z]> data            (* data[i + 3] = 0 *)
          else data in
        whiten_from fuel' (i + 4) data'
      else data
  end.

(** The pixel loop of [removeWhiteBackground] on the [ImageData] array; the
    index advances by four, so [length data] iterations always suffice. *)
Definition removeWhitePixels (data : list Z) : list Z :=
  whiten_from (length data) 0 data.

(** [removeWhiteBackground(img)]: [pixels] is what [getImageData] reads after
    [drawImage(img, 0, 0)], [ctx] whether [getContext('2d')] gave a context. *)
Definition removeWhiteBackground (toDataURL : Raster.t → string) (ctx : bool)
    (img : HTMLImage.t) (pixels : list Z) : string :=
  if negb ctx then HTMLImage.src img
  else toDataURL (Raster.mk (HTMLImage.width img) (HTMLImage.height img)
                    (removeWhitePixels pixels)).

(** [handleRemoveBackground]: [response] is the decoded image (with its
    pixels) that [extractProductFromImage] returned, [None] when the call
    fails and the [catch] block runs. *)
Definition handleRemoveBackground (toDataURL : Raster.t → string) (ctx : bool)
    (response : option (HTMLImage.t * list Z)) (st : EditorState) : EditorState :=
  match find_selected (selectedId st) (elements st) with
  | Some (_, Image _) =>
      match response with
      | Some (tempImg, pixels) =>
          updateElement (UpdSrc (removeWhiteBackground toDataURL ctx tempImg pixels)) st
      | None => st
      end
  | _ => st
  end.

(** ** Export: [handleDownload]

    The rasteriser is embedded as the sequence of calls and property writes
    it performs on the 2D context, in order, together with [console.error]
    and the final download click.  [await loadImage(src)] either yields the
    decoded image or rejects; a rejection unwinds to the nearest [catch]. *)

Inductive CssColor :=
| Named (s : string)
| Rgba (hex : string) (alpha : Q).

(** [hexToRgba(hex, alpha)], kept symbolic instead of formatted. *)
Definition hexToRgba (hex : string) (alpha : Q) : CssColor := Rgba hex alpha.

Inductive CanvasGradient :=
| LinearGradient (x0 y0 x1 y1 : Q) (stops : list (Q * string))
| RadialGradient (x0 y0 r0 x1 y1 r1 : Q) (stops : list (Q * string)).

Definition addColorStop (offset : Q) (c : string) (g : CanvasGradient) : CanvasGradient :=
  match g with
  | LinearGradient x0 y0 x1 y1 stops => LinearGradient x0 y0 x1 y1 (stops ++ [(offset, c)])
  | RadialGradient x0 y0 r0 x1 y1 r1 stops =>
      RadialGradient x0 y0 r0 x1 y1 r1 (stops ++ [(offset, c)])
  end.

Inductive FillStyle :=
| FillColor (c : string)
| FillGradient (g : CanvasGradient).

Inductive CanvasFilter :=
| FilterNone
| DropShadow (x y blur : Q) (c : CssColor).

Inductive CanvasOp :=
| SetFillStyle (s : FillStyle)
| SetGlobalAlpha (a : Q)
| FillRect (x y w h : Q)
| Save
| Restore
| Translate (x y : Q)
| Rotate (degrees : Q)          (* ctx.rotate(degrees * Math.PI / 180) *)
| SetShadowColor (c : CssColor)
| SetShadowBlur (v : Q)
| SetShadowOffsetX (v : Q)
| SetShadowOffsetY (v : Q)
| SetFont (px : Q) (name : string)
| SetTextAlign (a : Align)
| SetTextBaseline (b : string)
| FillText (line : string) (x y : Q)
| SetFilter (f : CanvasFilter)
| BeginPath
| RoundRect (x y w h r : Q)
| Ellipse (x y rx ry : Q)       (* a full turn, no rotation *)
| Clip
| DrawImage (img : HTMLImage.t) (x y w h : Q)
| SetLineWidth (v : Q)
| SetStrokeStyle (c : string)
| SetLineDash (segments : list Q)
| Stroke
| Fill
| ConsoleError (msg : string)
| LinkClick (filename : string).  (* link.href = canvas.toDataURL(); link.click() *)

(** The rendering monad: the trace so far goes in; out come the trace and
    either a value or [None] for a pending rejection. *)
Definition Render (A : Type) : Type := list CanvasOp → option A * list CanvasOp.

#[global] Instance Render_ret : MRet Render := λ A a tr, (Some a, tr).
#[global] Instance Render_bind : MBind Render := λ A B f m tr,
  match m tr with
  | (Some a, tr') => f a tr'
  | (None, tr') => (None, tr')
  end.

Definition emit (op : CanvasOp) : Render unit := λ tr, (Some (), tr ++ [op]).
Definition reject {A : Type} : Render A := λ tr, (None, tr).

(** [try { body } catch (e) { handler }] *)
Definition try_catch (body handler : Render unit) : Render unit := λ tr,
  match body tr with
  | (Some a, tr') => (Some a, tr')
  | (None, tr') => handler tr'
  end.

Definition when (b : bool) (m : Render unit) : Render unit :=
  if b then m else mret ().

(** [for (const x of xs) body(x)] *)
Fixpoint for_of {A : Type} (xs : list A) (body : A → Render unit) : Render unit :=
  match xs with
  | [] => mret ()
  | x :: rest => body x ;; for_of rest body
  end.

(** [xs.forEach((x, i) => body(x, i))], the index counted from [i]. *)
Fixpoint forEach_from {A : Type} (i : nat) (xs : list A) (body : A → nat → Render unit)
  : Render unit :=
  match xs with
  | [] => mret ()
  | x :: rest => body x i ;; forEach_from (S i) rest body
  end.

Definition FONTS : list (string * string) :=
  [ ("Roboto", "font-roboto");
    ("Open Sans", "font-opensans");
    ("Montserrat", "font-montserrat");
    ("Playfair Display", "font-playfair");
    ("Oswald", "font-oswald");
    ("Lobster", "font-lobster");
    ("Dancing Script", "font-dancing") ].

(** [FONTS.find(f => f.value === fontFamily)?.name || 'Arial'] *)
Definition fontName (fontFamily : string) : string :=
  match list_find (λ f, snd f = fontFamily) FONTS with
  | Some (_, f) => if bool_decide (fst f = EmptyString) then "Arial" else fst f
  | None => "Arial"
  end.

(** [content.split('\n')] *)
Fixpoint split_lines (s : string) : list string :=
  match s with
  | EmptyString => [EmptyString]
  | String c rest =>
      if Ascii.eqb c (Ascii.ascii_of_nat 10) then EmptyString :: split_lines rest
      else match split_lines rest with
           | l :: ls => String c l :: ls
           | [] => [String c EmptyString]
           end
  end.

(** [s.includes(sub)] *)
Definition includes (sub s : string) : bool :=
  bool_decide (is_Some (String.index 0 sub s)).

Section Exporter.
(** [loadImage(src)]: the decoded image, or [None] when [img.onerror]
    rejects the promise. *)
Variable loadImage : string → option HTMLImage.t.

Definition await_loadImage (src : string) : Render HTMLImage.t :=
  match loadImage src with
  | Some img => mret img
  | None => reject
  end.

Definition setLineDashFor (style : BorderStyle) : Render unit :=
  when (match style with dashed => true | _ => false end) (emit (SetLineDash [10; 5]%Q)) ;;
  when (match style with dotted => true | _ => false end) (emit (SetLineDash [2; 2]%Q)).

Definition renderBackground (cw ch : Q) (bg : BackgroundState.t) : Render unit :=
  match BackgroundState.type bg, BackgroundState.gradient bg, BackgroundState.image bg with
  | bg_solid, _, _ =>
      emit (SetFillStyle (FillColor
              (match BackgroundState.color bg with
               | Some c => if bool_decide (c = EmptyString) then "#ffffff" else c
               | None => "#ffffff"
               end))) ;;
      emit (FillRect 0 0 cw ch)
  | bg_gradient, Some g, _ =>
      let direction := Gradient.direction g in
      let grad :=
        if includes "right" direction then LinearGradient 0 0 cw 0 []
        else if includes "bottom" direction then LinearGradient 0 0 0 ch []
        else if includes "radial" direction
             then RadialGradient (cw / 2) (ch / 2) 10 (cw / 2) (ch / 2) (cw / 2) []
        else LinearGradient 0 0 cw ch [] in
      match Gradient.colors g !! 0%nat, Gradient.colors g !! 1%nat with
      | Some c0, Some c1 =>
          emit (SetFillStyle (FillGradient (addColorStop 1 c1 (addColorStop 0 c0 grad)))) ;;
          emit (FillRect 0 0 cw ch)
      | _, _ => reject            (* addColorStop(_, undefined) throws *)
      end
  | bg_image, _, Some image =>
      emit (SetFillStyle (FillColor "#ffffff")) ;;
      emit (FillRect 0 0 cw ch) ;;
      try_catch
        (img ← await_loadImage (BackgroundImage.src image);
         let w := (inject_Z (HTMLImage.width img) * BackgroundImage.scale image)%Q in
         let h := (inject_Z (HTMLImage.height img) * BackgroundImage.scale image)%Q in
         emit (DrawImage img (BackgroundImage.x image) (BackgroundImage.y image) w h))
        (emit (ConsoleError "Could not load background"))
  | _, _, _ => mret ()
  end%Q.

Definition renderOverlay (cw ch : Q) (ov : Overlay.t) : Render unit :=
  when (Qgtb (Overlay.opacity ov) 0)
    (emit (SetFillStyle (FillColor (Overlay.color ov))) ;;
     emit (SetGlobalAlpha (Overlay.opacity ov)) ;;
     emit (FillRect 0 0 cw ch) ;;
     emit (SetGlobalAlpha 1)).

Definition renderText (textEl : TextElement.t) : Render unit :=
  match TextElement.shadowEnabled textEl, BaseElement.shadow (TextElement.base textEl) with
  | true, Some sh =>
      emit (SetShadowColor (hexToRgba (ShadowData.color sh) (ShadowData.opacity sh))) ;;
      emit (SetShadowBlur (ShadowData.blur sh)) ;;
      emit (SetShadowOffsetX (ShadowData.x sh)) ;;
      emit (SetShadowOffsetY (ShadowData.y sh))
  | _, _ => mret ()
  end ;;
  emit (SetFont (TextElement.fontSize textEl) (fontName (TextElement.fontFamily textEl))) ;;
  emit (SetFillStyle (FillColor (TextElement.color textEl))) ;;
  emit (SetTextAlign (TextElement.align textEl)) ;;
  emit (SetTextBaseline "middle") ;;
  let lines := split_lines (TextElement.content textEl) in
  let lineHeight := (TextElement.fontSize textEl * 1.2)%Q in
  let totalHeight := (inject_Z (Z.of_nat (length lines)) * lineHeight)%Q in
  let startY := (- (totalHeight / 2) + lineHeight / 2)%Q in
  forEach_from 0 lines
    (λ line i, emit (FillText line 0 (startY + inject_Z (Z.of_nat i) * lineHeight)%Q)).

Definition renderImage (imgEl : ImageElement.t) : Render unit :=
  try_catch
    (img ← await_loadImage (ImageElement.src imgEl);
     let radius := default 0%Q (ImageElement.borderRadius imgEl) in
     let crop := default (CropData.mk 0 0 0 0) (BaseElement.crop (ImageElement.base imgEl)) in
     match BaseElement.shadow (ImageElement.base imgEl) with
     | Some sh =>
         if Qgtb (ShadowData.opacity sh) 0 then
           emit (SetFilter (DropShadow (ShadowData.x sh) (ShadowData.y sh) (ShadowData.blur sh)
                              (hexToRgba (ShadowData.color sh) (ShadowData.opacity sh))))
         else emit (SetFilter FilterNone)
     | None => emit (SetFilter FilterNone)
     end ;;
     let width := ImageElement.width imgEl in
     let height := ImageElement.height imgEl in
     let cropL := (width * (CropData.left crop / 100))%Q in
     let cropT := (height * (CropData.top crop / 100))%Q in
     let cropR := (width * (CropData.right crop / 100))%Q in
     let cropB := (height * (CropData.bottom crop / 100))%Q in
     let visibleW := (width - cropL - cropR)%Q in
     let visibleH := (height - cropT - cropB)%Q in
     let drawX := (- width / 2 + cropL)%Q in
     let drawY := (- height / 2 + cropT)%Q in
     emit BeginPath ;;
     emit (RoundRect drawX drawY visibleW visibleH radius) ;;
     emit Save ;;
     emit Clip ;;
     emit (DrawImage img (- width / 2)%Q (- height / 2)%Q width height) ;;
     emit Restore ;;
     emit (SetFilter FilterNone) ;;
     match BaseElement.border (ImageElement.base imgEl) with
     | Some bd =>
         when (Qgtb (BorderData.width bd) 0)
           (emit BeginPath ;;
            emit (RoundRect drawX drawY visibleW visibleH radius) ;;
            emit (SetLineWidth (BorderData.width bd)) ;;
            emit (SetStrokeStyle (BorderData.color bd)) ;;
            setLineDashFor (BorderData.style bd) ;;
            emit Stroke)
     | None => mret ()
     end)
    (emit (ConsoleError "Could not load image element")).

Definition renderShape (shapeEl : ShapeElement.t) : Render unit :=
  let radius := default 0%Q (ShapeElement.borderRadius shapeEl) in
  match BaseElement.shadow (ShapeElement.base shapeEl) with
  | Some sh =>
      when (Qgtb (ShadowData.opacity sh) 0)
        (emit (SetShadowColor (hexToRgba (ShadowData.color sh) (ShadowData.opacity sh))) ;;
         emit (SetShadowBlur (ShadowData.blur sh)) ;;
         emit (SetShadowOffsetX (ShadowData.x sh)) ;;
         emit (SetShadowOffsetY (ShadowData.y sh)))
  | None => mret ()
  end ;;
  emit (SetFillStyle (FillColor (ShapeElement.color shapeEl))) ;;
  emit BeginPath ;;
  match ShapeElement.shapeType shapeEl with
  | circle =>
      emit (Ellipse 0 0 (ShapeElement.width shapeEl / 2) (ShapeElement.height shapeEl / 2))%Q
  | rectangle =>
      emit (RoundRect (- ShapeElement.width shapeEl / 2) (- ShapeElement.height shapeEl / 2)
              (ShapeElement.width shapeEl) (ShapeElement.height shapeEl) radius)%Q
  end ;;
  emit Fill ;;
  emit (SetShadowColor (Named "transparent")) ;;
  match BaseElement.border (ShapeElement.base shapeEl) with
  | Some bd =>
      when (Qgtb (BorderData.width bd) 0)
        (emit (SetLineWidth (BorderData.width bd)) ;;
         emit (SetStrokeStyle (BorderData.color bd)) ;;
         setLineDashFor (BorderData.style bd) ;;
         emit Stroke)
  | None => mret ()
  end.

(** The body of [for (const el of elements)]. *)
Definition renderElement (el : EditorElement) : Render unit :=
  emit Save ;;
  emit (Translate (BaseElement.x (el_base el)) (BaseElement.y (el_base el))) ;;
  emit (Rotate (BaseElement.rotation (el_base el))) ;;
  match el with
  | Text textEl => renderText textEl
  | Image imgEl => renderImage imgEl
  | Shape shapeEl => renderShape shapeEl
  end ;;
  emit Restore.

(** [render()]; [now] is the [Date.now()] of the file name. *)
Definition render (now : N) (st : EditorState) : Render unit :=
  let cw := Dimensions.width (canvasDimensions st) in
  let ch := Dimensions.height (canvasDimensions st) in
  renderBackground cw ch (background st) ;;
  renderOverlay cw ch (overlay st) ;;
  for_of (elements st) renderElement ;;
  emit (LinkClick ("design-" +:+ pretty now +:+ ".png")).

(** [handleDownload]: [ctx] tells whether [getContext('2d')] gave a
    context.  The result is the outcome of the [render()] promise and
    everything it did. *)
Definition handleDownload (ctx : bool) (now : N) (st : EditorState)
  : option unit * list CanvasOp :=
  if negb ctx then (Some (), [])
  else render now st [].
End Exporter.

(** * Properties *)

(** ** White-background removal *)

(** The pixel at position [p] of an RGBA array is white for the filter. *)
Definition is_white (data : list Z) (p : nat) : bool :=
  above_threshold (data !! (4 * p)) && above_threshold (data !! (4 * p + 1))
  && above_threshold (data !! (4 * p + 2)).

Lemma is_white_insert_alpha data p k v :
  is_white (<[4 * k + 3 := v]> data) p = is_white data p.
Proof.
  unfold is_white.
  rewrite !list_lookup_insert_ne by lia. reflexivity.
Qed.

Lemma pixel_offset p c :
  c < 4 → (4 * p + c) `mod` 4 = c ∧ (4 * p + c) `div` 4 = p.
Proof.
  intros Hc.
  pose proof (Nat.div_mod_eq (4 * p + c) 4).
  pose proof (Nat.mod_upper_bound (4 * p + c) 4 ltac:(lia)). lia.
Qed.

(** What the loop started at pixel [k] leaves at index [j]. *)
Lemma whiten_from_lookup fuel : ∀ k data j,
  length data ≤ 4 * k + 4 * fuel →
  whiten_from fuel (4 * k) data !! j =
    if bool_decide (j `mod` 4 = 3) && bool_decide (k ≤ j `div` 4) && is_white data (j `div` 4)
    then (λ _, 0%Z) <$> data !! j
    else data !! j.
Proof.
  induction fuel as [|fuel IH]; intros k data j Hlen; cbn [whiten_from].
  - destruct (bool_decide (j `mod` 4 = 3) && bool_decide (k ≤ j `div` 4)) eqn:E;
      cbn [andb]; [|reflexivity].
    apply andb_prop in E as [_ E]. apply bool_decide_eq_true in E.
    assert (length data ≤ j) as Hj.
    { pose proof (Nat.div_mod_eq j 4). lia. }
    rewrite (lookup_ge_None_2 _ _ Hj). by destruct (is_white _ _).
  - case_bool_decide as Hlt.
    + replace (4 * k + 4) with (4 * S k) by lia.
      fold (is_white data k).
      set (data' := if is_white data k then <[4 * k + 3 := 0%Z]> data else data).
      assert (length data' = length data) as Hl'.
      { unfold data'. destruct (is_white data k); [apply length_insert|done]. }
      assert (∀ p, is_white data' p = is_white data p) as Hw'.
      { intros p. unfold data'. destruct (is_white data k);
          [apply is_white_insert_alpha|done]. }
      rewrite IH by lia. rewrite Hw'.
      pose proof (Nat.div_mod_eq j 4) as Hdm.
      pose proof (Nat.mod_upper_bound j 4 ltac:(lia)) as Hmod.
      destruct (decide (j = 4 * k + 3)) as [->|Hne].
      * assert ((4 * k + 3) `mod` 4 = 3) as Hm by lia.
        assert ((4 * k + 3) `div` 4 = k) as Hd by lia.
        rewrite Hm, Hd.
        rewrite (bool_decide_eq_true_2 (3 = 3)) by done.
        rewrite (bool_decide_eq_true_2 (k ≤ k)) by lia.
        rewrite (bool_decide_eq_false_2 (S k ≤ k)) by lia. cbn [andb].
        unfold data'. destruct (is_white data k) eqn:Ew; [|done].
        destruct (decide (4 * k + 3 < length data)) as [Hin|Hout].
        -- rewrite list_lookup_insert_eq by done.
           destruct (lookup_lt_is_Some_2 data (4 * k + 3) Hin) as [a ->]. done.
        -- rewrite list_insert_ge by lia.
           rewrite (lookup_ge_None_2 data (4 * k + 3)) by lia. done.
      * assert (data' !! j = data !! j) as ->.
        { unfold data'. destruct (is_white data k); [|done].
          by rewrite list_lookup_insert_ne. }
        destruct (bool_decide (j `mod` 4 = 3)) eqn:Em; cbn [andb]; [|done].
        apply bool_decide_eq_true in Em.
        assert (j `div` 4 ≠ k) by lia.
        destruct (decide (k ≤ j `div` 4)).
        -- rewrite !bool_decide_eq_true_2 by lia. done.
        -- rewrite !bool_decide_eq_false_2 by lia. done.
    + destruct (bool_decide (j `mod` 4 = 3) && bool_decide (k ≤ j `div` 4)) eqn:E;
        cbn [andb]; [|reflexivity].
      apply andb_prop in E as [_ E]. apply bool_decide_eq_true in E.
      assert (length data ≤ j) as Hj.
      { pose proof (Nat.div_mod_eq j 4). lia. }
      rewrite (lookup_ge_None_2 _ _ Hj). by destruct (is_white _ _).
Qed.

Lemma whiten_from_length fuel : ∀ i data, length (whiten_from fuel i data) = length data.
Proof.
  induction fuel as [|fuel IH]; intros i data; cbn [whiten_from]; [done|].
  case_bool_decide; [|done].
  rewrite IH. destruct (_ && _); [apply length_insert|done].
Qed.

(** Every index of the result, characterised. *)
Lemma removeWhitePixels_lookup data j :
  removeWhitePixels data !! j =
    if bool_decide (j `mod` 4 = 3) && is_white data (j `div` 4)
    then (λ _, 0%Z) <$> data !! j
    else data !! j.
Proof.
  unfold removeWhitePixels.
  change 0 with (4 * 0) at 1.
  rewrite (whiten_from_lookup (length data) 0 data j) by lia.
  rewrite (bool_decide_eq_true_2 (0 ≤ j `div` 4)) by lia.
  by rewrite andb_true_r.
Qed.

(** C10.  In the pixel array that [removeWhiteBackground] processes, a pixel
    whose red, green and blue bytes all exceed 240 gets alpha 0, and every
    other pixel keeps its four bytes (the colour bytes are kept in both
    cases, and the array keeps its length). *)
Theorem removeWhitePixels_alpha (data : list Z) (p : nat) (r g b a : Z) :
  data !! (4 * p) = Some r →
  data !! (4 * p + 1) = Some g →
  data !! (4 * p + 2) = Some b →
  data !! (4 * p + 3) = Some a →
  let out := removeWhitePixels data in
  length out = length data
  ∧ out !! (4 * p) = Some r
  ∧ out !! (4 * p + 1) = Some g
  ∧ out !! (4 * p + 2) = Some b
  ∧ out !! (4 * p + 3) = Some (if (240 <? r)%Z && (240 <? g)%Z && (240 <? b)%Z then 0%Z else a).
Proof.
  intros Hr Hg Hb Ha out. subst out.
  split; [apply whiten_from_length|].
  rewrite !removeWhitePixels_lookup.
  destruct (pixel_offset p 0 ltac:(lia)) as [H0 _].
  destruct (pixel_offset p 1 ltac:(lia)) as [H1 _].
  destruct (pixel_offset p 2 ltac:(lia)) as [H2 _].
  destruct (pixel_offset p 3 ltac:(lia)) as [H3 Hd].
  rewrite Nat.add_0_r in H0.
  rewrite H0, H1, H2, H3, Hd.
  rewrite !(bool_decide_eq_false_2 (_ = 3)) by lia.
  rewrite bool_decide_eq_true_2 by done. cbn [andb].
  repeat split; try done.
  unfold is_white. rewrite Hr, Hg, Hb, Ha. cbn [above_threshold fmap option_fmap option_map].
  by destruct (_ && _).
Qed.

Lemma removeWhitePixels_alpha_witness :
  let out := removeWhitePixels [255; 250; 241; 255; 10; 250; 250; 200]%Z in
  length out = 8
  ∧ out !! 0 = Some 255%Z ∧ out !! 1 = Some 250%Z ∧ out !! 2 = Some 241%Z
  ∧ out !! 3 = Some 0%Z.
Proof.
  exact (removeWhitePixels_alpha [255; 250; 241; 255; 10; 250; 250; 200]%Z 0
           255 250 241 255 eq_refl eq_refl eq_refl eq_refl).
Defined.

(** With a 2D context the result is the encoding of the filtered pixels;
    without one, the source of the image as it came. *)
Lemma removeWhiteBackground_with_context toDataURL img pixels :
  removeWhiteBackground toDataURL true img pixels
  = toDataURL (Raster.mk (HTMLImage.width img) (HTMLImage.height img)
                 (removeWhitePixels pixels)).
Proof. reflexivity. Qed.

Lemma removeWhiteBackground_without_context toDataURL img pixels :
  removeWhiteBackground toDataURL false img pixels = HTMLImage.src img.
Proof. reflexivity. Qed.

(** ** Layer order *)

Lemma set_elements_id st : set_elements (elements st) st = st.
Proof. by destruct st. Qed.

Lemma set_elements_twice l1 l2 st :
  set_elements l1 (set_elements l2 st) = set_elements l1 st.
Proof. done. Qed.

(** A hit of [find]/[findIndex] splits the array around the first element
    that carries the id. *)
Lemma find_by_id_split i l n el :
  find_by_id i l = Some (n, el) →
  ∃ l1 l2, l = l1 ++ el :: l2 ∧ length l1 = n ∧ el_id el = i
           ∧ Forall (λ e, el_id e ≠ i) l1.
Proof.
  unfold find_by_id. rewrite list_find_Some. intros (Hl & Hid & Hbefore).
  exists (take n l), (drop (S n) l). repeat split.
  - by rewrite take_drop_middle.
  - rewrite length_take. apply lookup_lt_Some in Hl. lia.
  - done.
  - apply Forall_lookup_2. intros j y [Hy Hj]%lookup_take_Some. eauto.
Qed.

Lemma find_by_id_middle i l1 el l2 :
  Forall (λ e, el_id e ≠ i) l1 → el_id el = i →
  find_by_id i (l1 ++ el :: l2) = Some (length l1, el).
Proof.
  intros Hl1 Hid. unfold find_by_id. apply list_find_Some. repeat split.
  - by rewrite list_lookup_middle.
  - done.
  - intros j y Hj Hlt. rewrite lookup_app_l in Hj by done.
    eapply Forall_lookup_1 in Hl1; eauto.
Qed.

(** With unique ids, no other element carries the id of a given one. *)
Lemma NoDup_ids_others l1 el l2 :
  NoDup (el_id <$> (l1 ++ el :: l2)) →
  Forall (λ e, el_id e ≠ el_id el) l1 ∧ Forall (λ e, el_id e ≠ el_id el) l2.
Proof.
  rewrite fmap_app, fmap_cons. intros (_ & Hdisj & Hnd)%NoDup_app.
  apply NoDup_cons in Hnd as [Hnotin _].
  split; apply Forall_forall; intros e He Heq.
  - apply (Hdisj (el_id e)); [by apply list_elem_of_fmap_2|].
    rewrite Heq. apply list_elem_of_here.
  - apply Hnotin. rewrite <- Heq. by apply list_elem_of_fmap_2.
Qed.

(** The two assignments of the ['up'] and ['down'] branches exchange
    neighbours. *)
Lemma swap_up {A} (l1 : list A) a b l2 :
  <[length l1 + 1 := a]> (<[length l1 := b]> (l1 ++ a :: b :: l2)) = l1 ++ b :: a :: l2.
Proof. induction l1 as [|c l1 IH]; simpl; [done|]. by f_equal. Qed.

Lemma swap_down {A} (l1 : list A) a b l2 :
  <[length l1 + 1 - 1 := b]> (<[length l1 + 1 := a]> (l1 ++ a :: b :: l2))
  = l1 ++ b :: a :: l2.
Proof.
  replace (length l1 + 1 - 1) with (length l1) by lia.
  induction l1 as [|c l1 IH]; simpl; [done|]. by f_equal.
Qed.

(** A selection that [moveLayer] acts on. *)
Definition layer_selected (st : EditorState) (sel : string) : Prop :=
  selectedId st = Some sel ∧ sel ≠ EmptyString ∧ sel ≠ "bg".

Lemma layer_selected_guard st sel :
  layer_selected st sel →
  falsy (selectedId st) || bool_decide (selectedId st = Some "bg") = false.
Proof.
  intros (-> & H1 & H2). unfold falsy.
  rewrite !bool_decide_eq_false_2; [done| |done]. congruence.
Qed.

Lemma not_layer_selected st :
  (∀ sel, ¬ layer_selected st sel) → ∀ d, moveLayer d st = st.
Proof.
  intros Hno d. unfold moveLayer.
  destruct (selectedId st) as [sel|] eqn:Hsel; [|done].
  unfold falsy. case_bool_decide as H1; [done|].
  case_bool_decide as H2; [done|]. exfalso. apply (Hno sel).
  repeat split; [done|done|]. intros ->. by apply H2.
Qed.

Lemma moveLayer_up_middle st sel l1 el x l2 :
  layer_selected st sel →
  elements st = l1 ++ el :: x :: l2 →
  Forall (λ e, el_id e ≠ sel) l1 → el_id el = sel →
  moveLayer Direction.up st = set_elements (l1 ++ x :: el :: l2) st.
Proof.
  intros Hsel Hels Hl1 Hid. unfold moveLayer.
  rewrite (layer_selected_guard _ _ Hsel). destruct Hsel as (Hs & _ & _).
  rewrite Hs. cbn [find_selected]. rewrite Hels.
  rewrite (find_by_id_middle sel l1 el (x :: l2)) by done.
  rewrite bool_decide_eq_true_2 by (rewrite length_app; simpl; lia).
  replace (l1 ++ el :: x :: l2) with ((l1 ++ [el]) ++ x :: l2) at 1
    by (by rewrite <- app_assoc).
  replace (length l1 + 1) with (length (l1 ++ [el])) at 1
    by (rewrite length_app; simpl; lia).
  rewrite list_lookup_middle by done.
  by rewrite swap_up.
Qed.

Lemma moveLayer_down_middle st sel l1 x el l2 :
  layer_selected st sel →
  elements st = l1 ++ x :: el :: l2 →
  Forall (λ e, el_id e ≠ sel) l1 → el_id x ≠ sel → el_id el = sel →
  moveLayer Direction.down st = set_elements (l1 ++ el :: x :: l2) st.
Proof.
  intros Hsel Hels Hl1 Hx Hid. unfold moveLayer.
  rewrite (layer_selected_guard _ _ Hsel). destruct Hsel as (Hs & _ & _).
  rewrite Hs. cbn [find_selected]. rewrite Hels.
  replace (l1 ++ x :: el :: l2) with ((l1 ++ [x]) ++ el :: l2) at 1
    by (by rewrite <- app_assoc).
  rewrite (find_by_id_middle sel (l1 ++ [x]) el l2);
    [|apply Forall_app; split; [done|by constructor]|done].
  rewrite length_app. cbn [length].
  rewrite bool_decide_eq_true_2 by lia.
  replace (length l1 + 1 - 1) with (length l1) at 1 by lia.
  rewrite list_lookup_middle by done.
  by rewrite swap_down.
Qed.

Lemma moveLayer_top_middle st sel l1 el l2 :
  layer_selected st sel →
  elements st = l1 ++ el :: l2 →
  Forall (λ e, el_id e ≠ sel) l1 → el_id el = sel →
  moveLayer Direction.top st = set_elements (l1 ++ l2 ++ [el]) st.
Proof.
  intros Hsel Hels Hl1 Hid. unfold moveLayer.
  rewrite (layer_selected_guard _ _ Hsel). destruct Hsel as (Hs & _ & _).
  rewrite Hs. cbn [find_selected]. rewrite Hels.
  rewrite (find_by_id_middle sel l1 el l2) by done.
  by rewrite delete_middle, <- app_assoc.
Qed.

(** ['down'] on the bottom element, and ['up'] on the top one, leave the
    array as it is. *)
Lemma moveLayer_down_bottom st sel el l2 :
  layer_selected st sel → elements st = el :: l2 → el_id el = sel →
  moveLayer Direction.down st = st.
Proof.
  intros Hsel Hels Hid. unfold moveLayer.
  rewrite (layer_selected_guard _ _ Hsel). destruct Hsel as (Hs & _ & _).
  rewrite Hs. cbn [find_selected]. rewrite Hels.
  pose proof (find_by_id_middle sel [] el l2 (Forall_nil_2 _) Hid) as Hf.
  cbn [app length] in Hf. rewrite Hf.
  rewrite bool_decide_eq_false_2 by lia.
  rewrite <- Hels. apply set_elements_id.
Qed.

Lemma moveLayer_up_top st sel l1 el :
  layer_selected st sel → elements st = l1 ++ [el] →
  Forall (λ e, el_id e ≠ sel) l1 → el_id el = sel →
  moveLayer Direction.up st = st.
Proof.
  intros Hsel Hels Hl1 Hid. unfold moveLayer.
  rewrite (layer_selected_guard _ _ Hsel). destruct Hsel as (Hs & _ & _).
  rewrite Hs. cbn [find_selected]. rewrite Hels.
  rewrite (find_by_id_middle sel l1 el []) by done.
  rewrite bool_decide_eq_false_2 by (rewrite length_app; simpl; lia).
  rewrite <- Hels. apply set_elements_id.
Qed.

(** Repeated ['down'] carries the selected element below the [l2] that sits
    under it. *)
Lemma moveLayer_down_iter sel l2 : ∀ st l1 el l3,
  layer_selected st sel →
  elements st = l1 ++ l2 ++ el :: l3 →
  Forall (λ e, el_id e ≠ sel) l1 → Forall (λ e, el_id e ≠ sel) l2 → el_id el = sel →
  Nat.iter (length l2) (moveLayer Direction.down) st
  = set_elements (l1 ++ el :: l2 ++ l3) st.
Proof.
  induction l2 as [|x l2 IH] using rev_ind; intros st l1 el l3 Hsel Hels Hl1 Hl2 Hid.
  - simpl in *. by rewrite <- Hels, set_elements_id.
  - rewrite length_app. cbn [length]. rewrite Nat.add_1_r, Nat.iter_succ_r.
    apply Forall_app in Hl2 as [Hl2 Hx]. rewrite Forall_singleton in Hx.
    assert (elements st = (l1 ++ l2) ++ x :: el :: l3) as Hels'
      by (by rewrite Hels, <- !app_assoc).
    assert (Forall (λ e, el_id e ≠ sel) (l1 ++ l2)) as Hl12 by (by apply Forall_app).
    rewrite (moveLayer_down_middle st sel (l1 ++ l2) x el l3 Hsel Hels' Hl12 Hx Hid).
    assert (elements (set_elements ((l1 ++ l2) ++ el :: x :: l3) st)
            = l1 ++ l2 ++ el :: x :: l3) as Hels'' by (by rewrite <- app_assoc).
    rewrite (IH (set_elements ((l1 ++ l2) ++ el :: x :: l3) st) l1 el (x :: l3)
               Hsel Hels'' Hl1 Hl2 Hid).
    by rewrite set_elements_twice, <- !app_assoc.
Qed.

Lemma classic_layer st :
  (∃ sel, layer_selected st sel) ∨ (∀ sel, ¬ layer_selected st sel).
Proof.
  destruct (selectedId st) as [sel|] eqn:Hs.
  - destruct (decide (sel = EmptyString)) as [->|H1];
      [right; intros sel (Hsel & Hne & _); congruence|].
    destruct (decide (sel = "bg")) as [->|H2];
      [right; intros sel (Hsel & _ & Hbg); congruence|].
    left. by exists sel.
  - right. intros sel (Hsel & _). congruence.
Qed.

(** The selected element is the last of the array and has others beneath it:
    the one position where ['up'] finds nothing to exchange while ['down']
    does. *)
Definition selected_on_top (st : EditorState) : Prop :=
  ∃ i el, find_selected (selectedId st) (elements st) = Some (i, el)
          ∧ S i = length (elements st) ∧ 0 < i.

Definition two_texts : EditorState := addText 2 (addText 1 initialState).

(** C1, as stated, fails: on the topmost of two layers ['up'] changes
    nothing and the following ['down'] moves the layer below the other. *)
Lemma moveLayer_up_down_top_layer :
  elements (moveLayer Direction.down (moveLayer Direction.up two_texts))
  ≠ elements two_texts.
Proof. vm_compute. discriminate. Qed.

(** C1 (amended).  With unique ids, ['up'] followed by ['down'] restores the
    state unless the selected layer is the last of an array of two or more;
    and ['top'] followed by as many ['down'] as there were layers above the
    selected one restores it too. *)
Theorem moveLayer_roundtrip (st : EditorState) :
  NoDup (el_id <$> elements st) →
  (¬ selected_on_top st →
   moveLayer Direction.down (moveLayer Direction.up st) = st)
  ∧ (∀ i el, find_selected (selectedId st) (elements st) = Some (i, el) →
       Nat.iter (length (elements st) - 1 - i) (moveLayer Direction.down)
                (moveLayer Direction.top st) = st).
Proof.
  intros Hnd.
  destruct (classic_layer st) as [(sel & Hsel)|Hno].
  2: { split; [intros _|intros i el _].
       - by rewrite !(not_layer_selected st Hno).
       - rewrite (not_layer_selected st Hno).
         induction (_ - _) as [|n IHn]; [done|].
         by rewrite Nat.iter_succ, IHn, (not_layer_selected st Hno). }
  pose proof Hsel as (Hs & Hne & Hbg).
  split.
  - intros Hnot.
    destruct (find_by_id sel (elements st)) as [[i el]|] eqn:Hfind.
    + destruct (find_by_id_split _ _ _ _ Hfind) as (l1 & l2 & Hels & Hlen & Hid & Hl1).
      pose proof Hnd as Hnd'. rewrite Hels in Hnd'.
      apply NoDup_ids_others in Hnd' as [_ Hl2]. rewrite Hid in Hl2.
      destruct l2 as [|x l2].
      * rewrite (moveLayer_up_top st sel l1 el) by done.
        destruct l1 as [|y l1]; [by apply (moveLayer_down_bottom st sel el [])|].
        exfalso. apply Hnot. exists i, el. rewrite Hs. cbn [find_selected].
        split; [done|]. rewrite Hels, length_app. simpl in *. lia.
      * apply Forall_cons in Hl2 as [Hx Hl2].
        rewrite (moveLayer_up_middle st sel l1 el x l2) by done.
        rewrite (moveLayer_down_middle _ sel l1 x el l2); try done.
        by rewrite set_elements_twice, <- Hels, set_elements_id.
    + unfold moveLayer at 2. rewrite (layer_selected_guard _ _ Hsel), Hs.
      cbn [find_selected]. rewrite Hfind.
      unfold moveLayer. rewrite (layer_selected_guard _ _ Hsel), Hs.
      cbn [find_selected]. by rewrite Hfind.
  - intros i el Hfind. rewrite Hs in Hfind. cbn [find_selected] in Hfind.
    destruct (find_by_id_split _ _ _ _ Hfind) as (l1 & l2 & Hels & Hlen & Hid & Hl1).
    pose proof Hnd as Hnd'. rewrite Hels in Hnd'.
    apply NoDup_ids_others in Hnd' as [_ Hl2]. rewrite Hid in Hl2.
    rewrite (moveLayer_top_middle st sel l1 el l2) by done.
    replace (length (elements st) - 1 - i) with (length l2)
      by (rewrite Hels, length_app; simpl; lia).
    rewrite (moveLayer_down_iter sel l2 _ l1 el []); try done.
    by rewrite set_elements_twice, app_nil_r, <- Hels, set_elements_id.
Qed.

(** The first of the two layers of [two_texts], selected by a click. *)
Definition two_texts_first_selected : EditorState :=
  handleMouseUp (handleMouseDown (Point.mk 0 0) "1" Gesture.move None two_texts).

Lemma moveLayer_roundtrip_witness :
  moveLayer Direction.down (moveLayer Direction.up two_texts_first_selected)
    = two_texts_first_selected
  ∧ Nat.iter 1 (moveLayer Direction.down) (moveLayer Direction.top two_texts_first_selected)
    = two_texts_first_selected.
Proof.
  assert (NoDup (el_id <$> elements two_texts_first_selected)) as Hnd.
  { apply (bool_decide_unpack _). vm_compute. exact I. }
  destruct (moveLayer_roundtrip two_texts_first_selected Hnd) as [Hud Htop].
  split.
  - apply Hud. intros (i & el & Hf & Hlen & Hpos).
    vm_compute in Hf. inversion Hf; subst. inversion Hpos.
  - destruct (find_selected (selectedId two_texts_first_selected)
                (elements two_texts_first_selected)) as [[i el]|] eqn:Hf.
    + vm_compute in Hf. inversion Hf; subst. exact (Htop 0%nat _ eq_refl).
    + vm_compute in Hf. discriminate Hf.
Defined.

(** ** Stored z-index *)

(** The lower of the two layers, selected by a click while idle. *)
Definition two_texts_first_selected' : EditorState :=
  handleMouseDown (Point.mk 0 0) "1" Gesture.move None two_texts.

(** The stored rank of every element is its position in the array. *)
Definition zIndex_matches (l : list EditorElement) : Prop :=
  ∀ i el, l !! i = Some el → el_zIndex el = i.

Lemma zIndex_matches_snoc l el :
  zIndex_matches l → el_zIndex el = length l → zIndex_matches (l ++ [el]).
Proof.
  intros Hl Hel i e Hi.
  apply lookup_app_Some in Hi as [Hi|[Hge Hi]]; [by apply Hl|].
  apply list_lookup_singleton_Some in Hi as [Hi ->]. lia.
Qed.

Lemma moveLayer_Permutation d st : elements (moveLayer d st) ≡ₚ elements st.
Proof.
  unfold moveLayer. destruct (_ || _); [done|].
  destruct (find_selected _ _) as [[i el]|] eqn:Hfind; [|done].
  destruct (selectedId st) as [sel|]; [|done]. cbn [find_selected] in Hfind.
  destruct (find_by_id_split _ _ _ _ Hfind) as (l1 & l2 & Hels & Hlen & Hid & Hl1).
  cbn [elements set_elements]. rewrite Hels. subst i. destruct d.
  - case_bool_decide as Hlt; [|done].
    destruct l2 as [|x l2]; [rewrite length_app in Hlt; simpl in Hlt; lia|].
    replace (l1 ++ el :: x :: l2) with ((l1 ++ [el]) ++ x :: l2) at 1
      by (by rewrite <- app_assoc).
    replace (length l1 + 1) with (length (l1 ++ [el])) at 1
      by (rewrite length_app; simpl; lia).
    rewrite list_lookup_middle by done. rewrite swap_up.
    apply Permutation_app_head, perm_swap.
  - case_bool_decide as Hlt; [|done].
    destruct l1 as [|x l1 _] using rev_ind; [simpl in Hlt; lia|].
    rewrite length_app. cbn [length].
    replace (length l1 + 1 - 1) with (length l1) at 1 by lia.
    rewrite <- app_assoc. cbn [app].
    rewrite list_lookup_middle by done. rewrite swap_down.
    apply Permutation_app_head, perm_swap.
  - rewrite delete_middle, <- app_assoc.
    apply Permutation_app_head. symmetry. apply Permutation_cons_append.
  - rewrite delete_middle. apply Permutation_middle.
Qed.

Lemma deleteSelected_sublist st : elements (deleteSelected st) `sublist_of` elements st.
Proof.
  unfold deleteSelected. case_bool_decide; [done|].
  cbn [elements set_elements set_isCropping set_selectedId]. apply sublist_filter.
Qed.

(** C2, as stated, fails: the two layers are created with ranks 0 and 1;
    after ['down'] on the upper one each still carries its rank of creation,
    now at the other position, and after deleting the lower one the survivor
    sits at position 0 with rank 1. *)
Lemma zIndex_stale_after_moveLayer :
  zIndex_matches (elements two_texts)
  ∧ ¬ zIndex_matches (elements (moveLayer Direction.down two_texts))
  ∧ ¬ zIndex_matches (elements (deleteSelected two_texts_first_selected')).
Proof.
  split; [|split].
  - intros [|[|i]] el Hel; vm_compute in Hel; [by inversion Hel..|discriminate].
  - intros H. specialize (H 0 _ eq_refl). vm_compute in H. discriminate.
  - intros H. specialize (H 0 _ eq_refl). vm_compute in H. discriminate.
Qed.

(** C2 (amended).  The stored rank is written once, at creation, as the
    length of the array the element is appended to: the three constructors
    keep "rank = position" when it holds.  [moveLayer] only permutes the
    array and [deleteSelected] only removes entries; neither rewrites a
    rank, the stacking order being the array order itself. *)
Theorem zIndex_written_at_creation (st : EditorState) :
  (zIndex_matches (elements st) →
     (∀ now, zIndex_matches (elements (addText now st)))
     ∧ (∀ now shapeType, zIndex_matches (elements (addShape now shapeType st)))
     ∧ (∀ now src img, zIndex_matches (elements (addImageElement now src img st))))
  ∧ (∀ d, elements (moveLayer d st) ≡ₚ elements st)
  ∧ elements (deleteSelected st) `sublist_of` elements st.
Proof.
  split; [|split; [intros d; apply moveLayer_Permutation|apply deleteSelected_sublist]].
  intros Hz. repeat split.
  - intros now. by apply zIndex_matches_snoc.
  - intros now shapeType. by apply zIndex_matches_snoc.
  - intros now src [img|]; [|done]. by apply zIndex_matches_snoc.
Qed.

(** ** Pointer gestures *)

(** A run of pointer-move events. *)
Fixpoint pointerMoves (moves : list Point.t) (st : EditorState) : option EditorState :=
  match moves with
  | [] => Some st
  | e :: rest => st' ← handleMouseMove e st; pointerMoves rest st'
  end.

Lemma Math_min_le_r a b : (Math_min a b <= b)%Q.
Proof. unfold Math_min. destruct (Qlt_le_dec b a); lra. Qed.

Lemma Math_min_glb a b c : (c <= a → c <= b → c <= Math_min a b)%Q.
Proof. unfold Math_min. destruct (Qlt_le_dec b a); lra. Qed.

Lemma Math_max_ge_l a b : (a <= Math_max a b)%Q.
Proof. unfold Math_max. destruct (Qlt_le_dec a b); lra. Qed.

(** [d * 1] is [d], as terms. *)
Lemma Qmult_1_r_eq (d : Q) : (d * 1)%Q = d.
Proof.
  destruct d as [n m]. unfold Qmult. cbn [Qnum Qden].
  by rewrite Z.mul_1_r, Pos.mul_1_r.
Qed.

(** *** Cropping *)

(** The visible region of a crop rectangle is not empty. *)
Definition crop_ok (c : CropData.t) : Prop :=
  (CropData.top c + CropData.bottom c < 100)%Q
  ∧ (CropData.left c + CropData.right c < 100)%Q.

(** The crop of an element, when it has one, is [crop_ok]. *)
Definition el_crop_ok (el : EditorElement) : Prop :=
  ∀ c, el_crop el = Some c → crop_ok c.

Lemma el_crop_set_base b el : el_crop (el_set_base b el) = BaseElement.crop b.
Proof. by destruct el. Qed.

Lemma el_id_set_base b el : el_id (el_set_base b el) = BaseElement.id b.
Proof. by destruct el. Qed.

(** One crop update: both sums end at most at 95, whatever the crop was, and
    an updated side is not negative when the side opposite is at most 95. *)
Lemma cropElement_bounds h snap dx dy el el' :
  cropElement h snap dx dy el = Some el' →
  ∃ c', el_crop el' = Some c'
        ∧ (CropData.top c' + CropData.bottom c' <= 95)%Q
        ∧ (CropData.left c' + CropData.right c' <= 95)%Q.
Proof.
  unfold cropElement. destruct (snap_crop snap) as [init|]; [|done].
  cbn [mbind option_bind]. intros [= <-].
  rewrite el_crop_set_base. cbn [BaseElement.crop BaseElement.set_crop].
  eexists. split; [done|].
  set (cur := default _ (el_crop el)).
  destruct h; cbn [CropData.top CropData.bottom CropData.left CropData.right];
    split;
    match goal with
    | |- context [Math_min ?a ?b] => pose proof (Math_min_le_r a b); lra
    end.
Qed.

Lemma cropElement_total h snap dx dy el :
  is_Some (snap_crop snap) → is_Some (cropElement h snap dx dy el).
Proof. intros [init Hinit]. unfold cropElement. rewrite Hinit. by eexists. Qed.

Lemma cropElement_id h snap dx dy el el' :
  cropElement h snap dx dy el = Some el' → el_id el' = el_id el.
Proof.
  unfold cropElement. destruct (snap_crop snap) as [init|]; [|done].
  cbn [mbind option_bind]. intros [= <-]. by rewrite el_id_set_base.
Qed.

Lemma cropElement_crop_ok h snap dx dy el el' :
  cropElement h snap dx dy el = Some el' → el_crop_ok el'.
Proof.
  intros (c' & Hc' & Htb & Hlr)%cropElement_bounds c Hc.
  rewrite Hc' in Hc. injection Hc as <-. split; lra.
Qed.

(** All four percentages lie in [0, 95]: the range the clamp maintains from
    the all-zero crop of a new element on. *)
Definition crop_in_range (c : CropData.t) : Prop :=
  (0 <= CropData.top c <= 95 ∧ 0 <= CropData.right c <= 95
   ∧ 0 <= CropData.bottom c <= 95 ∧ 0 <= CropData.left c <= 95)%Q.

Lemma clamp_range v o :
  (0 <= o <= 95 → 0 <= Math_min (Math_max 0 v) (100 - o - 5) <= 95)%Q.
Proof.
  intros Ho. pose proof (Math_max_ge_l 0 v).
  pose proof (Math_min_le_r (Math_max 0 v) (100 - o - 5)).
  pose proof (Math_min_glb (Math_max 0 v) (100 - o - 5) 0).
  lra.
Qed.

Lemma cropElement_in_range h snap dx dy el el' c :
  el_crop el = Some c → crop_in_range c →
  cropElement h snap dx dy el = Some el' →
  ∃ c', el_crop el' = Some c' ∧ crop_in_range c'.
Proof.
  intros Hc (Ht & Hr & Hb & Hl). unfold cropElement.
  destruct (snap_crop snap) as [init|]; [|done].
  cbn [mbind option_bind]. intros [= <-].
  rewrite el_crop_set_base. cbn [BaseElement.crop BaseElement.set_crop].
  eexists. split; [done|]. rewrite Hc. cbn [default].
  destruct h; unfold crop_in_range;
    cbn [CropData.top CropData.bottom CropData.left CropData.right];
    repeat split; try tauto; by apply clamp_range.
Qed.

Lemma handleMouseDown_elements e id type h st :
  elements (handleMouseDown e id type h st) = elements st.
Proof.
  unfold handleMouseDown. destruct (isErasing st); [done|].
  destruct (_ && _); [done|].
  case_bool_decide.
  - destruct (BackgroundState.type (background st)),
      (BackgroundState.image (background st)), type, h; done.
  - destruct (find_by_id id (elements st)) as [[??]|], type, h; done.
Qed.

(** What a pointer-move leaves alone: everything except the elements and
    the background. *)
Definition same_controls (st st' : EditorState) : Prop :=
  selectedId st' = selectedId st
  ∧ overlay st' = overlay st
  ∧ isDragging st' = isDragging st
  ∧ isResizing st' = isResizing st
  ∧ isRotating st' = isRotating st
  ∧ isCropping st' = isCropping st
  ∧ isCroppingDrag st' = isCroppingDrag st
  ∧ isErasing st' = isErasing st
  ∧ dragStart st' = dragStart st
  ∧ initialElementState st' = initialElementState st.

(** How a pointer-move at [e] may change one element of [st]. *)
Definition moved_element (e : Point.t) (st : EditorState) (el el' : EditorElement) : Prop :=
  el' = el
  ∨ (is_selected (selectedId st) (el_id el) = true
     ∧ gestureElement st (Point.x e - Point.x (dragStart st))%Q
                         (Point.y e - Point.y (dragStart st))%Q el = Some el').

Lemma Forall2_same {A} (R : A → A → Prop) (l : list A) :
  (∀ x, R x x) → Forall2 R l l.
Proof. intros HR. induction l; by constructor. Qed.

Lemma Forall2_compose {A} (R1 R2 R3 : A → A → Prop) (l1 l2 l3 : list A) :
  (∀ x y z, R1 x y → R2 y z → R3 x z) →
  Forall2 R1 l1 l2 → Forall2 R2 l2 l3 → Forall2 R3 l1 l3.
Proof.
  intros HR H12. revert l3.
  induction H12 as [|x y l1 l2 Hxy _ IH]; intros l3 H23; inversion H23; subst;
    constructor; eauto.
Qed.

Lemma mapM_total {A B} (f : A → option B) (l : list A) :
  Forall (λ x, is_Some (f x)) l → is_Some (mapM f l).
Proof.
  induction 1 as [|x l [y Hy] _ [k Hk]]; [by eexists|].
  exists (y :: k). apply mapM_Some_2. constructor; [done|]. by apply mapM_Some_1.
Qed.

Lemma handleMouseMove_inv e st st' :
  handleMouseMove e st = Some st' →
  same_controls st st'
  ∧ Forall2 (moved_element e st) (elements st) (elements st').
Proof.
  assert (∀ s, Forall2 (moved_element e s) (elements st) (elements st)) as Hsame.
  { intros s. apply Forall2_same. by left. }
  unfold handleMouseMove.
  destruct (_ && _); [by intros [= <-]|].
  destruct (falsy _); [by intros [= <-]|].
  set (dx := (_ - _)%Q). set (dy := (_ - _)%Q).
  assert (∀ els, mapM (λ el, if is_selected (selectedId st) (el_id el)
                             then gestureElement st dx dy el else Some el)
                      (elements st) = Some els →
                 Forall2 (moved_element e st) (elements st) els) as Hmap.
  { intros els Hels%mapM_Some_1.
    eapply Forall2_impl; [exact Hels|]. intros el el' Hel. cbv beta in Hel.
    destruct (is_selected _ _) eqn:Hsel; [by right|]. left. by injection Hel. }
  destruct (bool_decide (selectedId st = Some "bg")).
  - destruct (BackgroundState.type (background st)).
    + destruct (BackgroundState.image (background st)) as [img|].
      * destruct (isDragging st).
        { destruct (snap_x _); [|done]. destruct (snap_y _); [|done].
          by intros [= <-]. }
        destruct (isResizing st); [|by intros [= <-]].
        destruct (snap_scale _); [|done]. by intros [= <-].
      * destruct (mapM _ _) as [els|] eqn:Hels; [|done].
        intros [= <-]. split; [done|by apply Hmap].
    + destruct (mapM _ _) as [els|] eqn:Hels; [|done].
      intros [= <-]. split; [done|by apply Hmap].
    + destruct (mapM _ _) as [els|] eqn:Hels; [|done].
      intros [= <-]. split; [done|by apply Hmap].
  - destruct (mapM _ _) as [els|] eqn:Hels; [|done].
    intros [= <-]. split; [done|by apply Hmap].
Qed.

Lemma dragElement_inv snap dx dy el el' :
  dragElement snap dx dy el = Some el' →
  ∃ b, el' = el_set_base b el ∧ BaseElement.id b = el_id el
       ∧ BaseElement.crop b = el_crop el.
Proof.
  unfold dragElement. destruct (snap_x snap); [|done]. destruct (snap_y snap); [|done].
  cbn [mbind option_bind]. intros [= <-]. by eexists.
Qed.

Lemma rotateElement_inv snap dx el el' :
  rotateElement snap dx el = Some el' →
  ∃ b, el' = el_set_base b el ∧ BaseElement.id b = el_id el
       ∧ BaseElement.crop b = el_crop el.
Proof.
  unfold rotateElement. destruct (snap_rotation snap); [|done].
  cbn [mbind option_bind]. intros [= <-]. by eexists.
Qed.

Lemma resizeElement_base snap dx el el' :
  resizeElement snap dx el = Some el' → el_base el' = el_base el.
Proof.
  unfold resizeElement. destruct el as [t|i|s].
  - destruct (snap_fontSize snap); [|done]. by intros [= <-].
  - destruct (snap_width snap); [|done]. destruct (snap_aspectRatio snap); [|done].
    by intros [= <-].
  - destruct (snap_width snap); [|done]. destruct (snap_height snap); [|done].
    by intros [= <-].
Qed.

(** No branch of a pointer-move changes an id. *)
Lemma gestureElement_id st dx dy el el' :
  gestureElement st dx dy el = Some el' → el_id el' = el_id el.
Proof.
  unfold gestureElement. destruct (isCroppingDrag st); [apply cropElement_id|].
  destruct (isDragging st).
  { intros (b & -> & Hb & _)%dragElement_inv. by rewrite el_id_set_base. }
  destruct (isResizing st).
  { intros Hr%resizeElement_base. unfold el_id. by rewrite Hr. }
  destruct (isRotating st); [|by intros [= <-]].
  intros (b & -> & Hb & _)%rotateElement_inv. by rewrite el_id_set_base.
Qed.

(** Every branch of a pointer-move leaves a non-empty visible region
    non-empty; the crop branch produces one whatever it started from. *)
Lemma gestureElement_crop_ok st dx dy el el' :
  gestureElement st dx dy el = Some el' → el_crop_ok el → el_crop_ok el'.
Proof.
  unfold gestureElement.
  destruct (isCroppingDrag st); [intros H _; by eapply cropElement_crop_ok|].
  destruct (isDragging st).
  { intros (b & -> & _ & Hb)%dragElement_inv Hok c. rewrite el_crop_set_base, Hb. apply Hok. }
  destruct (isResizing st).
  { intros Hr%resizeElement_base Hok c. unfold el_crop. rewrite Hr. apply Hok. }
  destruct (isRotating st); [|by intros [= <-]].
  intros (b & -> & _ & Hb)%rotateElement_inv Hok c. rewrite el_crop_set_base, Hb. apply Hok.
Qed.

Lemma pointerMoves_crop_pointwise moves : ∀ st st',
  pointerMoves moves st = Some st' →
  Forall2 (λ el el', el_crop_ok el → el_crop_ok el') (elements st) (elements st').
Proof.
  induction moves as [|e moves IH]; intros st st'; cbn [pointerMoves].
  - intros [= <-]. by apply Forall2_same.
  - destruct (handleMouseMove e st) as [st1|] eqn:Hmove; [|done].
    cbn [mbind option_bind]. intros Hrest%IH.
    apply handleMouseMove_inv in Hmove as [_ Hmove].
    eapply Forall2_compose; [|exact Hmove|exact Hrest].
    intros el el1 el2 [->|[_ Hg]] H12 Hok; [by apply H12|].
    apply H12. by eapply gestureElement_crop_ok.
Qed.

(** While a crop handle is held over an element whose snapshot has a crop
    rectangle, a pointer-move completes. *)
Definition cropping_on (h : CropHandle.t) (st : EditorState) : Prop :=
  isCroppingDrag st = Some h
  ∧ is_Some (snap_crop (initialElementState st))
  ∧ selectedId st ≠ Some "bg".

Lemma handleMouseMove_cropping_total h e st :
  cropping_on h st →
  ∃ st', handleMouseMove e st = Some st' ∧ cropping_on h st'.
Proof.
  intros (Hh & Hsnap & Hbg).
  assert (is_Some (handleMouseMove e st)) as [st' Hst'].
  { unfold handleMouseMove.
    destruct (_ && _); [by eexists|]. destruct (falsy _); [by eexists|].
    rewrite (bool_decide_eq_false_2 _ Hbg).
    set (f := λ el, if is_selected _ _ then _ else _).
    assert (is_Some (mapM f (elements st))) as [els ->]; [|by eexists].
    apply mapM_total, Forall_forall. intros el _. unfold f.
    destruct (is_selected _ _); [|by eexists].
    unfold gestureElement. rewrite Hh. by apply cropElement_total. }
  exists st'. split; [done|].
  apply handleMouseMove_inv in Hst' as [Hc _].
  unfold same_controls in Hc. destruct_and!.
  unfold cropping_on. by repeat match goal with H : _ st' = _ |- _ => rewrite H end.
Qed.

Lemma pointerMoves_cropping_total h moves : ∀ st,
  cropping_on h st → is_Some (pointerMoves moves st).
Proof.
  induction moves as [|e moves IH]; intros st Hc; cbn [pointerMoves]; [by eexists|].
  destruct (handleMouseMove_cropping_total h e st Hc) as (st' & -> & Hc').
  cbn [mbind option_bind]. by apply IH.
Qed.

(** C3.  Through a crop gesture (pointer-down on any handle, then any run of
    pointer-moves) an element whose crop satisfied [top + bottom < 100] and
    [left + right < 100] satisfies it in the state after every move -- the
    list of moves is arbitrary, so this covers each intermediate state --
    and the moves do run to completion when the gesture starts on an element
    that has a crop rectangle.  Each update bounds the new side by
    [100 - opposite - 5], so the sums end at 95 or less, and the four
    percentages stay within [0, 95] once they are. *)
Theorem crop_gesture_keeps_visible_region
    (st : EditorState) (p0 : Point.t) (id : string) (h : CropHandle.t)
    (moves : list Point.t) :
  let st0 := handleMouseDown p0 id Gesture.crop (Some h) st in
  (∀ st', pointerMoves moves st0 = Some st' →
          Forall2 (λ el el', el_crop_ok el → el_crop_ok el') (elements st) (elements st'))
  ∧ (isErasing st = false →
     (isCropping st = true → selectedId st = Some id) →
     id ≠ "bg" →
     (∃ i el0, find_by_id id (elements st) = Some (i, el0) ∧ is_Some (el_crop el0)) →
     is_Some (pointerMoves moves st0))
  ∧ (∀ snap dx dy el el', cropElement h snap dx dy el = Some el' →
       (∃ c', el_crop el' = Some c'
              ∧ (CropData.top c' + CropData.bottom c' <= 95)%Q
              ∧ (CropData.left c' + CropData.right c' <= 95)%Q)
       ∧ (∀ c, el_crop el = Some c → crop_in_range c →
               ∃ c', el_crop el' = Some c' ∧ crop_in_range c')).
Proof.
  intros st0. split; [|split].
  - intros st' Hrun%pointerMoves_crop_pointwise.
    unfold st0 in Hrun. by rewrite handleMouseDown_elements in Hrun.
  - intros Her Hcrop Hbg (i & el0 & Hfind & Hc0).
    apply (pointerMoves_cropping_total h). unfold st0, handleMouseDown.
    rewrite Her.
    assert (isCropping st && negb (is_selected (selectedId st) id) = false) as ->.
    { destruct (isCropping st); [|done]. unfold is_selected.
      by rewrite bool_decide_eq_true_2 by auto. }
    rewrite (bool_decide_eq_false_2 _ Hbg), Hfind.
    repeat split; [done|]. cbn. congruence.
  - intros snap dx dy el el' Hcrop. split; [by eapply cropElement_bounds|].
    intros c Hc Hrange. by eapply cropElement_in_range.
Qed.

(** *** Resizing *)

(** The resize mapping as the design states it, on the pre-gesture element:
    text [fontSize' = max(10, fontSize0 + d*0.5)]; image
    [width' = max(20, width0 + d)], [height' = width' / aspectRatio]; shape
    [width' = max(20, width0 + d)], [height' = max(20, height0 + d)]. *)
Definition resize_spec (el0 : EditorElement) (d : Q) : EditorElement :=
  match el0 with
  | Text t0 =>
      Text (TextElement.set_fontSize (Math_max 10 (TextElement.fontSize t0 + d * 0.5)) t0)
  | Image i0 =>
      let width' := Math_max 20 (ImageElement.width i0 + d) in
      Image (ImageElement.set_size width' (width' / ImageElement.aspectRatio i0) i0)
  | Shape s0 =>
      Shape (ShapeElement.set_size (Math_max 20 (ShapeElement.width s0 + d))
               (Math_max 20 (ShapeElement.height s0 + d)) s0)
  end%Q.

(** [el] is [el0] up to the attributes a resize rewrites. *)
Definition same_but_size (el0 el : EditorElement) : Prop :=
  match el0, el with
  | Text t0, Text t => TextElement.set_fontSize (TextElement.fontSize t0) t = t0
  | Image i0, Image i =>
      ImageElement.set_size (ImageElement.width i0) (ImageElement.height i0) i = i0
  | Shape s0, Shape s =>
      ShapeElement.set_size (ShapeElement.width s0) (ShapeElement.height s0) s = s0
  | _, _ => False
  end.

Lemma same_but_size_refl el0 : same_but_size el0 el0.
Proof. by destruct el0 as [[]|[]|[]]. Qed.

Lemma same_but_size_resize_spec el0 d : same_but_size el0 (resize_spec el0 d).
Proof. by destruct el0 as [[]|[]|[]]. Qed.

Lemma same_but_size_id el0 el : same_but_size el0 el → el_id el = el_id el0.
Proof.
  destruct el0 as [t0|i0|s0], el as [t|i|s]; try done; cbn; by intros <-.
Qed.

(** The resize branch computes from the snapshot alone. *)
Lemma resizeElement_snapshot el0 el d :
  same_but_size el0 el →
  resizeElement (SnapElement el0) d el = Some (resize_spec el0 d).
Proof.
  destruct el0 as [t0|i0|s0], el as [t|i|s]; try done; cbn; intros <-.
  - by destruct t.
  - by destruct i.
  - destruct s as [b sh w h c r]. cbn. destruct sh; by rewrite Qmult_1_r_eq.
Qed.

Lemma insert_middle {A} (l1 : list A) x y l2 :
  <[length l1 := y]> (l1 ++ x :: l2) = l1 ++ y :: l2.
Proof. induction l1 as [|c l1 IH]; simpl; [done|]. by f_equal. Qed.

(** The [map] of [handleMouseMove] rewrites the one element that carries the
    selected id. *)
Lemma mapM_selected_middle (f : EditorElement → option EditorElement) id l1 el l2 el' :
  Forall (λ e, el_id e ≠ id) l1 → Forall (λ e, el_id e ≠ id) l2 →
  el_id el = id → f el = Some el' →
  mapM (λ e, if is_selected (Some id) (el_id e) then f e else Some e) (l1 ++ el :: l2)
  = Some (l1 ++ el' :: l2).
Proof.
  intros Hl1 Hl2 Hid Hf.
  assert (∀ l, Forall (λ e, el_id e ≠ id) l →
               Forall2 (λ x y, (if is_selected (Some id) (el_id x) then f x else Some x)
                               = Some y) l l) as Hkeep.
  { intros l Hl. induction Hl as [|x l Hx _ IH]; constructor; [|done].
    unfold is_selected. rewrite bool_decide_eq_false_2; [done|congruence]. }
  apply mapM_Some_2, Forall2_app; [by apply Hkeep|].
  constructor; [|by apply Hkeep].
  unfold is_selected. rewrite bool_decide_eq_true_2; [done|congruence].
Qed.

(** The controls while the resize handle of element [id] is held, the
    gesture having started at [p0] on the element [el0]. *)
Definition resizing_on (p0 : Point.t) (id : string) (el0 : EditorElement)
    (st : EditorState) : Prop :=
  selectedId st = Some id
  ∧ isCroppingDrag st = None
  ∧ isDragging st = false
  ∧ isResizing st = true
  ∧ dragStart st = p0
  ∧ initialElementState st = SnapElement el0.

Lemma handleMouseMove_resizing p0 id el0 e st l1 el l2 :
  resizing_on p0 id el0 st →
  id ≠ EmptyString → id ≠ "bg" →
  elements st = l1 ++ el :: l2 →
  Forall (λ e, el_id e ≠ id) l1 → Forall (λ e, el_id e ≠ id) l2 →
  el_id el0 = id → same_but_size el0 el →
  handleMouseMove e st
  = Some (set_elements (l1 ++ resize_spec el0 (Point.x e - Point.x p0) :: l2) st).
Proof.
  intros (Hsel & Hcd & Hdr & Hrs & Hds & Hsnap) Hne Hbg Hels Hl1 Hl2 Hid0 Hsame.
  unfold handleMouseMove. rewrite Hdr, Hrs, Hsel. cbn [negb andb].
  unfold falsy. rewrite (bool_decide_eq_false_2 _ Hne).
  rewrite bool_decide_eq_false_2 by congruence.
  rewrite Hels, Hds.
  rewrite (mapM_selected_middle _ id l1 el l2
             (resize_spec el0 (Point.x e - Point.x p0))); try done.
  - by rewrite (same_but_size_id _ _ Hsame).
  - unfold gestureElement. rewrite Hcd, Hdr, Hrs, Hsnap.
    by apply resizeElement_snapshot.
Qed.

Lemma pointerMoves_resizing p0 id el0 l1 l2 p moves : ∀ st el,
  resizing_on p0 id el0 st →
  id ≠ EmptyString → id ≠ "bg" →
  elements st = l1 ++ el :: l2 →
  Forall (λ e, el_id e ≠ id) l1 → Forall (λ e, el_id e ≠ id) l2 →
  el_id el0 = id → same_but_size el0 el →
  ∃ st', pointerMoves (moves ++ [p]) st = Some st'
         ∧ elements st' = l1 ++ resize_spec el0 (Point.x p - Point.x p0) :: l2.
Proof.
  induction moves as [|e moves IH]; intros st el Hon Hne Hbg Hels Hl1 Hl2 Hid0 Hsame;
    cbn [app pointerMoves];
    rewrite (handleMouseMove_resizing p0 id el0 _ st l1 el l2) by done;
    cbn [mbind option_bind].
  - by eexists.
  - eapply IH; try done. apply same_but_size_resize_spec.
Qed.

(** C5.  A resize gesture on the element [el0] that carries [id]: whatever
    the intermediate pointer positions were, after the move to [p] the
    element is [resize_spec el0 d] with [d] the horizontal distance of [p]
    from the point of the pointer-down, and no other element has changed. *)
Theorem resize_gesture_from_snapshot
    (st : EditorState) (p0 p : Point.t) (id : string) (moves : list Point.t)
    (i : nat) (el0 : EditorElement) :
  isErasing st = false →
  (isCropping st = true → selectedId st = Some id) →
  isDragging st = false → isCroppingDrag st = None →
  id ≠ EmptyString → id ≠ "bg" →
  NoDup (el_id <$> elements st) →
  find_by_id id (elements st) = Some (i, el0) →
  ∃ st', pointerMoves (moves ++ [p]) (handleMouseDown p0 id Gesture.resize None st) = Some st'
         ∧ elements st' = <[i := resize_spec el0 (Point.x p - Point.x p0)]> (elements st).
Proof.
  intros Her Hcrop Hdr Hcd Hne Hbg Hnd Hfind.
  destruct (find_by_id_split _ _ _ _ Hfind) as (l1 & l2 & Hels & Hlen & Hid & Hl1).
  pose proof Hnd as Hnd'. rewrite Hels in Hnd'.
  apply NoDup_ids_others in Hnd' as [_ Hl2]. rewrite Hid in Hl2.
  replace (<[i := resize_spec el0 (Point.x p - Point.x p0)]> (elements st))
    with (l1 ++ resize_spec el0 (Point.x p - Point.x p0) :: l2)
    by (rewrite Hels; subst i; by rewrite insert_middle).
  apply (pointerMoves_resizing p0 id el0 l1 l2 p moves _ el0); try done.
  - unfold handleMouseDown. rewrite Her.
    assert (isCropping st && negb (is_selected (selectedId st) id) = false) as ->.
    { destruct (isCropping st); [|done]. unfold is_selected.
      by rewrite bool_decide_eq_true_2 by auto. }
    rewrite (bool_decide_eq_false_2 _ Hbg), Hfind. by repeat split.
  - by rewrite handleMouseDown_elements.
  - apply same_but_size_refl.
Qed.

(** *** Aspect lock *)

(** [height == width / aspectRatio] for an image; nothing for the others. *)
Definition aspect_locked (el : EditorElement) : Prop :=
  match el with
  | Image i => (ImageElement.height i == ImageElement.width i / ImageElement.aspectRatio i)%Q
  | _ => True
  end.

(** No gesture is in progress: the snapshot ref is [null], as it is
    initially and after every pointer-up. *)
Definition no_gesture (st : EditorState) : Prop :=
  initialElementState st = SnapNull.

(** The states the editor reaches by user actions, one pointer at a time:
    content is added and a pointer goes down only while no gesture is in
    progress; ids handed out by the clock are fresh; a decoded image has
    positive intrinsic dimensions. *)
Inductive Reachable : EditorState → Prop :=
| reach_init : Reachable initialState
| reach_addImage st now src img :
    Reachable st → no_gesture st →
    fresh_id now ∉ (el_id <$> elements st) →
    (0 < HTMLImage.width img)%Z → (0 < HTMLImage.height img)%Z →
    Reachable (addImageElement now src (Some img) st)
| reach_addText st now :
    Reachable st → no_gesture st →
    fresh_id now ∉ (el_id <$> elements st) →
    Reachable (addText now st)
| reach_addShape st now shapeType :
    Reachable st → no_gesture st →
    fresh_id now ∉ (el_id <$> elements st) →
    Reachable (addShape now shapeType st)
| reach_backgroundUpload st file :
    Reachable st → no_gesture st → Reachable (handleBackgroundUpload file st)
| reach_pointerDown st p id type h :
    Reachable st → no_gesture st → Reachable (handleMouseDown p id type h st)
| reach_pointerMove st e st' :
    Reachable st → handleMouseMove e st = Some st' → Reachable st'
| reach_pointerUp st : Reachable st → Reachable (handleMouseUp st)
| reach_moveLayer st d : Reachable st → Reachable (moveLayer d st)
| reach_deleteSelected st : Reachable st → Reachable (deleteSelected st)
| reach_updateElement st u : Reachable st → Reachable (updateElement u st)
| reach_startCropping st : Reachable st → Reachable (startCropping st)
| reach_canvasClick st : Reachable st → Reachable (handleCanvasClick st).

(** The snapshot [el0] and the element [el] agree on the aspect ratio when
    both are images. *)
Definition same_ratio (el0 el : EditorElement) : Prop :=
  ∀ i0 i, el0 = Image i0 → el = Image i →
          ImageElement.aspectRatio i0 = ImageElement.aspectRatio i.

(** What holds of each element of a reachable state: it is locked, and when
    it is the selected one the snapshot, if any, has its aspect ratio. *)
Definition el_inv (st : EditorState) (el : EditorElement) : Prop :=
  aspect_locked el
  ∧ (selectedId st = Some (el_id el) →
     ∀ el0, initialElementState st = SnapElement el0 → same_ratio el0 el).

Definition scene_inv (st : EditorState) : Prop :=
  NoDup (el_id <$> elements st) ∧ Forall (el_inv st) (elements st).

Lemma Forall_Forall2_r {A} (P Q : A → Prop) (R : A → A → Prop) (l l' : list A) :
  (∀ x y, P x → R x y → Q y) → Forall P l → Forall2 R l l' → Forall Q l'.
Proof.
  intros HPQ HP HR. induction HR as [|x y l l' Hxy _ IH]; [done|].
  apply Forall_cons in HP as [Hx HP]. constructor; eauto.
Qed.

Lemma NoDup_ids_unique l el el' :
  NoDup (el_id <$> l) → el ∈ l → el' ∈ l → el_id el = el_id el' → el = el'.
Proof.
  intros Hnd [a Ha]%list_elem_of_lookup_1 [b Hb]%list_elem_of_lookup_1 Hid.
  assert (a = b) as ->; [|congruence].
  eapply (NoDup_lookup _ a b (el_id el) Hnd); rewrite list_lookup_fmap.
  - by rewrite Ha.
  - by rewrite Hb, Hid.
Qed.

Lemma aspect_locked_set_base b el : aspect_locked el → aspect_locked (el_set_base b el).
Proof. by destruct el. Qed.

Lemma same_ratio_set_base el0 b el : same_ratio el0 el → same_ratio el0 (el_set_base b el).
Proof.
  intros H i0 i' -> Hi'. destruct el as [t|i|s]; try done.
  injection Hi' as <-. by apply (H i0 i).
Qed.

(** One element through one pointer-move. *)
Lemma gestureElement_locked st dx dy el el' :
  gestureElement st dx dy el = Some el' →
  aspect_locked el →
  (∀ el0, initialElementState st = SnapElement el0 → same_ratio el0 el) →
  aspect_locked el' ∧ (∀ el0, same_ratio el0 el → same_ratio el0 el').
Proof.
  unfold gestureElement. intros Hg Hlock Hsnap.
  assert (∀ b, aspect_locked (el_set_base b el)
               ∧ (∀ el0, same_ratio el0 el → same_ratio el0 (el_set_base b el))) as Hbase.
  { intros b. split; [by apply aspect_locked_set_base|].
    intros el0. apply same_ratio_set_base. }
  destruct (isCroppingDrag st) as [h|].
  { unfold cropElement in Hg. destruct (snap_crop _); [|done].
    cbn [mbind option_bind] in Hg. injection Hg as <-. apply Hbase. }
  destruct (isDragging st).
  { apply dragElement_inv in Hg as (b & -> & _). apply Hbase. }
  destruct (isResizing st).
  { unfold resizeElement in Hg. destruct el as [t|i|s].
    - destruct (snap_fontSize _); [|done]. injection Hg as <-. by split.
    - destruct (initialElementState st) as [| |[t0|i0|s0]|] eqn:Hs; try done.
      cbn in Hg. injection Hg as <-. split.
      + cbn. rewrite (Hsnap _ eq_refl i0 i eq_refl eq_refl). reflexivity.
      + intros el0 H i1 i' -> [= <-]. by apply (H i1 i).
    - destruct (snap_width _); [|done]. destruct (snap_height _); [|done].
      injection Hg as <-. by split. }
  destruct (isRotating st); [|by injection Hg as <-].
  apply rotateElement_inv in Hg as (b & -> & _). apply Hbase.
Qed.

Lemma handleMouseMove_scene_inv e st st' :
  handleMouseMove e st = Some st' → scene_inv st → scene_inv st'.
Proof.
  intros [Hctl Hmove]%handleMouseMove_inv [Hnd Hall].
  unfold same_controls in Hctl. destruct Hctl as (Hsel & _ & _ & _ & _ & _ & _ & _ & _ & Hsnap).
  split.
  - replace (el_id <$> elements st') with (el_id <$> elements st); [done|].
    clear -Hmove. induction Hmove as [|el el' l l' Hel _ IH]; [done|].
    cbn. f_equal; [|done].
    destruct Hel as [->|[_ Hg]]; [done|]. symmetry. by eapply gestureElement_id.
  - eapply Forall_Forall2_r; [|exact Hall|exact Hmove].
    intros el el' [Hlock Hsnap0] [->|[Hs Hg]].
    + split; [done|]. rewrite Hsel, Hsnap. apply Hsnap0.
    + apply bool_decide_eq_true in Hs.
      destruct (gestureElement_locked _ _ _ _ _ Hg Hlock (Hsnap0 Hs)) as [Hl' Hr'].
      split; [done|]. rewrite Hsnap. intros _ el0 Hel0. apply Hr'. by apply Hsnap0.
Qed.

Lemma scene_inv_no_gesture st st' :
  no_gesture st' → elements st' = elements st → scene_inv st → scene_inv st'.
Proof.
  intros Hng Hels [Hnd Hall]. split; rewrite Hels; [done|].
  eapply Forall_impl; [exact Hall|]. intros el [Hlock _]. split; [done|].
  intros _ el0. rewrite Hng. discriminate.
Qed.

Lemma scene_inv_append st st' el :
  no_gesture st' → elements st' = elements st ++ [el] →
  el_id el ∉ (el_id <$> elements st) → aspect_locked el →
  scene_inv st → scene_inv st'.
Proof.
  intros Hng Hels Hfresh Hlock [Hnd Hall]. split; rewrite Hels.
  - rewrite fmap_app. apply NoDup_app. repeat split; [done| |apply NoDup_singleton].
    intros x Hx [->|[]%elem_of_nil]%elem_of_cons. by apply Hfresh.
  - apply Forall_app. split.
    + eapply Forall_impl; [exact Hall|]. intros e [He _]. split; [done|].
      intros _ el0. rewrite Hng. discriminate.
    + constructor; [|done]. split; [done|]. intros _ el0. rewrite Hng. discriminate.
Qed.

(** A new image element is locked when the decoded image has positive
    dimensions. *)
Lemma new_image_locked (w h : Z) :
  (0 < w)%Z → (0 < h)%Z →
  let aspectRatio := (inject_Z w / inject_Z h)%Q in
  ((if Qgeb aspectRatio 1 then 200 / aspectRatio else 200)
   == (if Qgeb aspectRatio 1 then 200 else 200 * aspectRatio) / aspectRatio)%Q.
Proof.
  intros Hw Hh aspectRatio.
  assert (0 < aspectRatio)%Q as Hpos.
  { unfold aspectRatio. apply Qlt_shift_div_l.
    - change 0%Q with (inject_Z 0). by rewrite <- Zlt_Qlt.
    - rewrite Qmult_0_l. change 0%Q with (inject_Z 0). by rewrite <- Zlt_Qlt. }
  destruct (Qgeb aspectRatio 1); [reflexivity|].
  field. lra.
Qed.

Lemma handleMouseDown_scene_inv p id type h st :
  no_gesture st → scene_inv st → scene_inv (handleMouseDown p id type h st).
Proof.
  intros Hng Hinv. pose proof Hinv as [Hnd Hall].
  unfold handleMouseDown. destruct (isErasing st); [done|].
  destruct (_ && _); [by apply (scene_inv_no_gesture st)|].
  case_bool_decide as Hbg.
  - assert (∀ s, elements s = elements st →
                 (∀ el0, initialElementState s ≠ SnapElement el0) → scene_inv s) as Hok.
    { intros s Hels Hs. split; rewrite Hels; [done|].
      eapply Forall_impl; [exact Hall|]. intros el [Hlock _]. split; [done|].
      intros _ el0 Hel0. by destruct (Hs el0). }
    destruct (BackgroundState.type (background st)),
      (BackgroundState.image (background st)), type, h;
      apply Hok; try done; cbn; intros el0; rewrite ?Hng; discriminate.
  - destruct (find_by_id id (elements st)) as [[i el0]|] eqn:Hfind.
    + assert (∀ s, elements s = elements st → selectedId s = Some id →
                   initialElementState s = SnapElement el0 → scene_inv s) as Hok.
      { intros s Hels Hsel Hs. split; rewrite Hels; [done|].
        apply Forall_forall. intros el Hel.
        destruct (proj1 (Forall_forall _ _) Hall el Hel) as [Hlock _].
        split; [done|]. rewrite Hsel, Hs. intros [= Hid] ? [= <-].
        apply find_by_id_split in Hfind as (l1 & l2 & Hl & _ & Hid0 & _).
        assert (el0 ∈ elements st) as Hel0 by (rewrite Hl; apply elem_of_app; right; apply list_elem_of_here).
        rewrite (NoDup_ids_unique _ el el0 Hnd Hel Hel0) by congruence.
        by intros i0 i1 -> [= ->]. }
      destruct type, h; by apply Hok.
    + assert (∀ s, elements s = elements st →
                   initialElementState s = SnapEmpty → scene_inv s) as Hok.
      { intros s Hels Hs. split; rewrite Hels; [done|].
        eapply Forall_impl; [exact Hall|]. intros el [Hlock _]. split; [done|].
        intros _ el0. rewrite Hs. discriminate. }
      destruct type, h; by apply Hok.
Qed.

Lemma assign_field_inv u el :
  el_id (assign_field u el) = el_id el
  ∧ (aspect_locked el → aspect_locked (assign_field u el))
  ∧ (∀ el0, same_ratio el0 el → same_ratio el0 (assign_field u el)).
Proof.
  destruct u, el as [t|i|s]; cbn; repeat split; try done;
    intros el0 H i0 i' -> [= <-]; by apply (H i0 i).
Qed.

Lemma updateElement_scene_inv u st : scene_inv st → scene_inv (updateElement u st).
Proof.
  intros [Hnd Hall]. unfold updateElement. destruct (_ || _); [done|].
  split; cbn [elements set_elements].
  - replace (el_id <$> map _ (elements st)) with (el_id <$> elements st); [done|].
    clear. induction (elements st) as [|el l IH]; [done|]. cbn. f_equal; [|done].
    destruct (is_selected _ _); [|done]. symmetry. apply assign_field_inv.
  - apply Forall_fmap. eapply Forall_impl; [exact Hall|].
    intros el [Hlock Hsnap]. cbn.
    destruct (is_selected _ _); [|done].
    destruct (assign_field_inv u el) as (Hid & Hl & Hr).
    split; [by apply Hl|]. rewrite Hid. intros Hs el0 Hel0. apply Hr. by apply Hsnap.
Qed.

Lemma moveLayer_scene_inv d st : scene_inv st → scene_inv (moveLayer d st).
Proof.
  intros [Hnd Hall]. pose proof (moveLayer_Permutation d st) as Hperm.
  assert (selectedId (moveLayer d st) = selectedId st
          ∧ initialElementState (moveLayer d st) = initialElementState st) as [Hsel Hsnap].
  { unfold moveLayer. destruct (_ || _); [done|].
    by destruct (find_selected _ _) as [[??]|]. }
  split.
  - by rewrite Hperm.
  - rewrite Hperm. eapply Forall_impl; [exact Hall|].
    intros el [Hlock Hs]. split; [done|]. by rewrite Hsel, Hsnap.
Qed.

Lemma deleteSelected_scene_inv st : scene_inv st → scene_inv (deleteSelected st).
Proof.
  intros [Hnd Hall]. pose proof (deleteSelected_sublist st) as Hsub.
  assert (selectedId (deleteSelected st) = None) as Hsel.
  { unfold deleteSelected. by case_bool_decide. }
  split.
  - eapply sublist_NoDup; [exact Hnd|]. by apply fmap_sublist.
  - apply Forall_forall. intros el Hel.
    destruct (proj1 (Forall_forall _ _) Hall el (elem_of_sublist _ _ _ Hel Hsub)) as [Hlock _].
    split; [done|]. by rewrite Hsel.
Qed.

Lemma Reachable_scene_inv st : Reachable st → scene_inv st.
Proof.
  induction 1 as [ | st now src img _ IH Hng Hfresh Hw Hh
                   | st now _ IH Hng Hfresh
                   | st now shapeType _ IH Hng Hfresh
                   | st file _ IH Hng
                   | st p id type h _ IH Hng
                   | st e st' _ IH Hmove
                   | st _ IH | st d _ IH | st _ IH | st u _ IH | st _ IH | st _ IH ].
  - split; [apply NoDup_nil_2|done].
  - eapply (scene_inv_append st); [exact Hng|reflexivity|exact Hfresh| |exact IH].
    cbn. by apply new_image_locked.
  - by eapply (scene_inv_append st); [exact Hng|reflexivity|exact Hfresh| |exact IH].
  - by eapply (scene_inv_append st); [exact Hng|reflexivity|exact Hfresh| |exact IH].
  - apply (scene_inv_no_gesture st); [|  |exact IH];
      unfold handleBackgroundUpload; destruct file as [[ty [b|]]|]; done.
  - by apply handleMouseDown_scene_inv.
  - by eapply handleMouseMove_scene_inv.
  - by apply (scene_inv_no_gesture st).
  - by apply moveLayer_scene_inv.
  - by apply deleteSelected_scene_inv.
  - by apply updateElement_scene_inv.
  - destruct IH as [Hnd Hall]. unfold startCropping. by destruct (_ && _).
  - destruct IH as [Hnd Hall]. unfold handleCanvasClick.
    destruct (negb _); [|done]. split; [done|].
    eapply Forall_impl; [exact Hall|]. by intros el [Hlock _].
Qed.


(** *** A concrete scene: one 400 by 200 image, added to the empty editor *)

Definition sample_src : string := "data:image/png;base64,iVBORw0KGgo=".

Definition one_image : EditorState :=
  addImageElement 1 sample_src (Some (HTMLImage.mk sample_src 400 200)) initialState.

Definition one_image_el : EditorElement :=
  Image (ImageElement.mk
    (BaseElement.mk "1" (500 / 2) (500 / 2) 0 0
       (Some (CropData.mk 0 0 0 0))
       (Some (BorderData.mk 0 solid "#000000"))
       (Some (ShadowData.mk "#000000" 0.5 0 0 0))
       None)
    sample_src 200 (200 / (inject_Z 400 / inject_Z 200)) (inject_Z 400 / inject_Z 200)
    (Some 0%Q)).

Example one_image_elements : elements one_image = [one_image_el].
Proof. reflexivity. Qed.

(** Dragging the lower-right crop handle far up and left stops at 95 percent
    on both sides. *)
Example crop_gesture_clamps :
  (λ s, el_crop <$> elements s)
    <$> pointerMoves [Point.mk (-300) (-300)]
          (handleMouseDown (Point.mk 0 0) "1" Gesture.crop (Some CropHandle.rb)
             (startCropping one_image))
  = Some [Some (CropData.mk 0 95 95 0)].
Proof. reflexivity. Qed.

Lemma resize_gesture_from_snapshot_witness :
  ∃ st', pointerMoves ([Point.mk 30 0] ++ [Point.mk 50 7])
           (handleMouseDown (Point.mk 0 0) "1" Gesture.resize None one_image) = Some st'
         ∧ elements st'
           = <[0 := resize_spec one_image_el (Point.x (Point.mk 50 7) - Point.x (Point.mk 0 0))]>
               (elements one_image).
Proof.
  apply (resize_gesture_from_snapshot one_image (Point.mk 0 0) (Point.mk 50 7) "1"
           [Point.mk 30 0] 0 one_image_el).
  - reflexivity.
  - intros H. discriminate H.
  - reflexivity.
  - reflexivity.
  - discriminate.
  - discriminate.
  - apply (bool_decide_unpack _). vm_compute. exact I.
  - reflexivity.
Defined.


Lemma crop_gesture_keeps_visible_region_witness :
  is_Some (pointerMoves [Point.mk (-300) (-300); Point.mk (-20) (-10)]
             (handleMouseDown (Point.mk 0 0) "1" Gesture.crop (Some CropHandle.rb)
                (startCropping one_image))).
Proof.
  apply (crop_gesture_keeps_visible_region (startCropping one_image) (Point.mk 0 0) "1"
           CropHandle.rb [Point.mk (-300) (-300); Point.mk (-20) (-10)]).
  - reflexivity.
  - reflexivity.
  - discriminate.
  - exists 0%nat, one_image_el. split; [reflexivity|]. by eexists.
Defined.

Lemma zIndex_written_at_creation_witness :
  zIndex_matches (elements (addShape 3 circle two_texts))
  ∧ elements (moveLayer Direction.down two_texts) ≡ₚ elements two_texts.
Proof.
  destruct (zIndex_written_at_creation two_texts) as (Hadd & Hmove & _).
  split; [|apply Hmove].
  apply Hadd. intros [|[|i]] el Hel; vm_compute in Hel; [by inversion Hel..|discriminate].
Defined.

(** *** Crop mode and pointer-down on another element *)

Definition gesture_active (type : Gesture.t) (st : EditorState) : bool :=
  match type with
  | Gesture.move => isDragging st
  | Gesture.resize => isResizing st
  | Gesture.rotate => isRotating st
  | Gesture.crop => bool_decide (is_Some (isCroppingDrag st))
  end.

(** An image (id 1) in crop mode, with a text layer (id 2) beside it. *)
Definition cropping_image_beside_text : EditorState :=
  startCropping
    (handleMouseUp
       (handleMouseDown (Point.mk 0 0) "1" Gesture.move None (addText 2 one_image))).

(** C4, as stated, fails: while the image is being cropped, a pointer-down
    that asks to drag the text leaves crop mode and does nothing else; the
    image stays selected and no drag begins. *)
Lemma pointer_down_while_cropping_only_cancels :
  let st' := handleMouseDown (Point.mk 5 5) "2" Gesture.move None cropping_image_beside_text in
  isCropping cropping_image_beside_text = true
  ∧ selectedId cropping_image_beside_text = Some "1"
  ∧ isCropping st' = false
  ∧ ¬ (selectedId st' = Some "2" ∧ gesture_active Gesture.move st' = true).
Proof. vm_compute. repeat split; try reflexivity. intros [H _]. discriminate H. Qed.

(** C4 (amended).  While crop mode is active on the selected element, a
    pointer-down on another element only leaves crop mode: selection,
    snapshot and gesture flags stay as they were.  A following pointer-down
    on that element selects it and, for drag, resize and rotate, enters the
    gesture. *)
Theorem pointer_down_other_element_cancels_crop
    (st : EditorState) (p p' : Point.t) (id : string) (type : Gesture.t)
    (h : option CropHandle.t) :
  isErasing st = false →
  isCropping st = true →
  selectedId st ≠ Some id →
  let st1 := handleMouseDown p id type h st in
  let st2 := handleMouseDown p' id type h st1 in
  st1 = set_isCropping false st
  ∧ selectedId st2 = Some id
  ∧ dragStart st2 = p'
  ∧ (type ≠ Gesture.crop → gesture_active type st2 = true).
Proof.
  intros Her Hcrop Hsel st1 st2.
  assert (st1 = set_isCropping false st) as Hst1.
  { unfold st1, handleMouseDown. rewrite Her, Hcrop. unfold is_selected.
    by rewrite bool_decide_eq_false_2 by done. }
  split; [done|]. unfold st2. rewrite Hst1. unfold handleMouseDown.
  cbn [isErasing isCropping set_isCropping andb].
  rewrite Her.
  cbn [background elements set_isCropping].
  destruct (bool_decide (id = "bg"));
    [destruct (BackgroundState.type (background st)),
       (BackgroundState.image (background st))
    |destruct (find_by_id id (elements st)) as [[??]|]];
    destruct type, h; repeat split; try done.
Qed.

Lemma pointer_down_other_element_cancels_crop_witness :
  let st1 := handleMouseDown (Point.mk 5 5) "2" Gesture.move None cropping_image_beside_text in
  let st2 := handleMouseDown (Point.mk 6 6) "2" Gesture.move None st1 in
  st1 = set_isCropping false cropping_image_beside_text
  ∧ selectedId st2 = Some "2"
  ∧ dragStart st2 = Point.mk 6 6
  ∧ (Gesture.move ≠ Gesture.crop → gesture_active Gesture.move st2 = true).
Proof.
  apply (pointer_down_other_element_cancels_crop cropping_image_beside_text
           (Point.mk 5 5) (Point.mk 6 6) "2" Gesture.move None).
  - reflexivity.
  - reflexivity.
  - discriminate.
Defined.

(** ** Background variants *)

Definition sample_file : File.t := File.mk "image/png" (Some "iVBORw0KGgo=").

(** A background image, zoomed to 2 and then panned to (30, 40). *)
Definition panned_background : EditorState :=
  default initialState
    (pointerMoves [Point.mk 30 40]
       (handleMouseDown (Point.mk 0 0) "bg" Gesture.move None
          (setBackgroundScale 2 (handleBackgroundUpload (Some sample_file) initialState)))).

(** C7, as stated, fails in its first half: the "solid" button only changes
    the variant tag, and the image with its pan and scale is still in the
    background state. *)
Lemma solid_button_keeps_image_record :
  BackgroundState.image (background (selectSolidBackground panned_background))
  = Some (BackgroundImage.mk (dataURL "image/png" "iVBORw0KGgo=") (0 + (30 - 0)) (0 + (40 - 0)) 2)
  ∧ BackgroundState.image (background (selectSolidBackground panned_background)) ≠ None.
Proof. split; [reflexivity|discriminate]. Qed.

Section BackgroundVariants.
Variable loadImage : string → option HTMLImage.t.

(** C7 (amended).  The "solid" button sets the variant to solid and keeps
    the image record (source, pan, scale) in the state, where the export
    does not read it: the solid background draws as if the record were
    absent.  The image variant is entered only through an upload, which
    installs pan (0, 0) and scale 1 whatever the state held; when no file
    is chosen the state is left as it is. *)
Theorem background_image_to_solid_and_back (st : EditorState) (f : File.t) (base64 : string) :
  File.base64 f = Some base64 →
  let st1 := selectSolidBackground st in
  BackgroundState.type (background st1) = bg_solid
  ∧ BackgroundState.image (background st1) = BackgroundState.image (background st)
  ∧ (∀ cw ch,
       renderBackground loadImage cw ch (background st1)
       = renderBackground loadImage cw ch
           (BackgroundState.mk bg_solid None (BackgroundState.color (background st)) None))
  ∧ background (selectImageBackground (Some f) st1)
    = BackgroundState.mk bg_image
        (Some (BackgroundImage.mk (dataURL (File.type f) base64) 0 0 1)) None None
  ∧ selectImageBackground None st1 = st1.
Proof.
  intros Hf st1. repeat split.
  unfold selectImageBackground, handleBackgroundUpload. by rewrite Hf.
Qed.
End BackgroundVariants.

Lemma background_image_to_solid_and_back_witness :
  let st1 := selectSolidBackground panned_background in
  BackgroundState.type (background st1) = bg_solid
  ∧ BackgroundState.image (background st1) = BackgroundState.image (background panned_background)
  ∧ (∀ cw ch,
       renderBackground (λ _, None) cw ch (background st1)
       = renderBackground (λ _, None) cw ch
           (BackgroundState.mk bg_solid None
              (BackgroundState.color (background panned_background)) None))
  ∧ background (selectImageBackground (Some sample_file) st1)
    = BackgroundState.mk bg_image
        (Some (BackgroundImage.mk (dataURL (File.type sample_file) "iVBORw0KGgo=") 0 0 1))
        None None
  ∧ selectImageBackground None st1 = st1.
Proof.
  exact (background_image_to_solid_and_back (λ _, None) panned_background sample_file
           "iVBORw0KGgo=" eq_refl).
Defined.

(** ** Eraser sessions *)

(** The scene model: what the live view and the export draw. *)
Definition scene (st : EditorState) : BackgroundState.t * Overlay.t * list EditorElement :=
  (background st, overlay st, elements st).

(** What can happen while the eraser modal is open: the image load of the
    modal effect, a stroke event, the pointer leaving the canvas, and the
    window-level pointer handlers, which stay installed. *)
Inductive EraserAction :=
| EraserLoad (decoded : option Raster.t)
| EraserDraw (e : EraserEvent.t)
| EraserLeave
| EraserPointerDown (p : Point.t) (id : string) (type : Gesture.t) (h : option CropHandle.t)
| EraserPointerUp
| EraserCanvasClick.

Lemma map_selected_middle (f : EditorElement → EditorElement) id l1 el l2 :
  Forall (λ e, el_id e ≠ id) l1 → Forall (λ e, el_id e ≠ id) l2 → el_id el = id →
  map (λ e, if is_selected (Some id) (el_id e) then f e else e) (l1 ++ el :: l2)
  = l1 ++ f el :: l2.
Proof.
  intros Hl1 Hl2 Hid.
  assert (∀ l, Forall (λ e, el_id e ≠ id) l →
               map (λ e, if is_selected (Some id) (el_id e) then f e else e) l = l) as Hkeep.
  { intros l Hl. induction Hl as [|x l Hx _ IH]; [done|]. cbn. rewrite IH.
    unfold is_selected. rewrite bool_decide_eq_false_2; [done|congruence]. }
  rewrite map_app. cbn. rewrite !Hkeep by done.
  unfold is_selected. rewrite bool_decide_eq_true_2; [done|congruence].
Qed.

Section EraserSession.
Variable toDataURL : Raster.t → string.
Variable hypot : Q → Q → Q.
Variable drawPoint : Q → Q → Q → Raster.t → Q → Q → Raster.t.

Definition eraserAction (st : EditorState) (a : EraserAction) : EditorState :=
  match a with
  | EraserLoad decoded => eraserModalEffect decoded st
  | EraserDraw e => handleEraserDraw hypot drawPoint e st
  | EraserLeave => handleEraserLeave st
  | EraserPointerDown p id type h => handleMouseDown p id type h st
  | EraserPointerUp => handleMouseUp st
  | EraserCanvasClick => handleCanvasClick st
  end.

(** The state after [startErasing] and a run of actions in the modal. *)
Definition eraserSession (st : EditorState) (actions : list EraserAction) : EditorState :=
  foldl eraserAction (startErasing st) actions.

Lemma startErasing_scene st : scene (startErasing st) = scene st.
Proof. unfold startErasing. by destruct (_ || _). Qed.

Lemma eraserAction_scene st a : scene (eraserAction st a) = scene st.
Proof.
  destruct a as [decoded|e| |p id type h| |]; cbn [eraserAction].
  - unfold eraserModalEffect.
    destruct (isErasing st), (eraserCanvas st),
      (find_selected (selectedId st) (elements st)) as [[? [?|?|?]]|], decoded; done.
  - unfold handleEraserDraw. destruct (negb _); [done|].
    by destruct (eraserCanvas st).
  - done.
  - unfold scene. rewrite handleMouseDown_elements.
    unfold handleMouseDown. destruct (isErasing st); [done|].
    destruct (_ && _); [done|].
    destruct (bool_decide (id = "bg"));
      [destruct (BackgroundState.type (background st)),
         (BackgroundState.image (background st))
      |destruct (find_by_id id (elements st)) as [[??]|]];
      by destruct type, h.
  - done.
  - unfold handleCanvasClick. by destruct (negb _).
Qed.

Lemma eraserSession_scene actions : ∀ st0,
  scene (foldl eraserAction st0 actions) = scene st0.
Proof.
  induction actions as [|a actions IH]; intros st0; [done|].
  cbn [foldl]. by rewrite IH, eraserAction_scene.
Qed.

(** While the modal is open the selection stays and the canvas stays
    mounted. *)
Definition eraser_open (id : string) (st : EditorState) : Prop :=
  isErasing st = true ∧ selectedId st = Some id ∧ is_Some (eraserCanvas st).

Lemma eraserAction_open id st a : eraser_open id st → eraser_open id (eraserAction st a).
Proof.
  intros (Her & Hsel & [c Hc]). destruct a as [decoded|e| |p i type h| |]; cbn [eraserAction].
  - unfold eraserModalEffect. rewrite Her, Hc.
    destruct (find_selected (selectedId st) (elements st)) as [[? [?|?|?]]|], decoded;
      by repeat split; eauto.
  - unfold handleEraserDraw. rewrite Hc. destruct (negb _); by repeat split; eauto.
  - by repeat split; eauto.
  - unfold handleMouseDown. rewrite Her. by repeat split; eauto.
  - by repeat split; eauto.
  - unfold handleCanvasClick. rewrite Her. by repeat split; eauto.
Qed.

Lemma eraserSession_open id actions : ∀ st0,
  eraser_open id st0 → eraser_open id (foldl eraserAction st0 actions).
Proof.
  induction actions as [|a actions IH]; intros st0 Hopen; [done|].
  cbn [foldl]. by apply IH, eraserAction_open.
Qed.

(** C9.  After any session in the eraser modal, closing it leaves
    background, overlay and every element as they were before the tool was
    opened.  Saving, instead, replaces the [src] of the selected image by
    the encoding of the eraser canvas and changes nothing else. *)
Theorem eraser_close_discards_save_commits
    (st : EditorState) (actions : list EraserAction) :
  let session := eraserSession st actions in
  scene (closeEraser session) = scene st
  ∧ ∀ (id : string) (i : nat) (img : ImageElement.t),
      selectedId st = Some id → id ≠ EmptyString → id ≠ "bg" →
      NoDup (el_id <$> elements st) →
      elements st !! i = Some (Image img) → el_id (Image img) = id →
      ∃ canvas, eraserCanvas session = Some canvas
        ∧ scene (saveEraserResult toDataURL session)
          = (background st, overlay st,
             <[i := Image (ImageElement.set_src (toDataURL canvas) img)]> (elements st)).
Proof.
  intros session.
  assert (scene session = scene st) as Hscene.
  { unfold session, eraserSession. by rewrite eraserSession_scene, startErasing_scene. }
  split; [exact Hscene|].
  intros id i img Hsel Hne Hbg Hnd Hi Hid.
  assert (eraser_open id session) as (Her & Hsel' & [canvas Hc]).
  { apply eraserSession_open. unfold startErasing, falsy. rewrite Hsel.
    rewrite (bool_decide_eq_false_2 _ Hne).
    rewrite bool_decide_eq_false_2 by congruence. by repeat split; eauto. }
  exists canvas. split; [done|].
  injection Hscene as Hb Ho He.
  unfold saveEraserResult, updateElement, scene. rewrite Hc, Hsel'.
  unfold falsy. rewrite (bool_decide_eq_false_2 _ Hne).
  rewrite bool_decide_eq_false_2 by congruence.
  cbn [negb orb background overlay elements set_eraserCanvas set_isErasing set_elements].
  rewrite Hb, Ho, He. f_equal.
  rewrite <- (take_drop_middle _ _ _ Hi) in Hnd |- *.
  apply NoDup_ids_others in Hnd as [Hl1 Hl2]. rewrite Hid in Hl1, Hl2.
  rewrite (map_selected_middle _ id) by done.
  assert (length (take i (elements st)) = i) as Hlen.
  { rewrite length_take. apply lookup_lt_Some in Hi. lia. }
  rewrite <- Hlen at 3. by rewrite insert_middle.
Qed.
End EraserSession.

Lemma eraser_close_discards_save_commits_witness :
  let toDataURL := λ _ : Raster.t, "data:image/png;base64,AAAA" in
  let session :=
    eraserSession (λ _ _, 0%Q) (λ _ _ _ r _ _, r) one_image
      [EraserLoad (Some (Raster.mk 1 1 [0; 0; 0; 255]%Z));
       EraserDraw (EraserEvent.mk 1 3 4 0 0 10 10)] in
  scene (closeEraser session) = scene one_image
  ∧ ∃ canvas, eraserCanvas session = Some canvas
      ∧ scene (saveEraserResult toDataURL session)
        = (background one_image, overlay one_image,
           <[0%nat := assign_field (UpdSrc (toDataURL canvas)) one_image_el]>
             (elements one_image)).
Proof.
  intros toDataURL session.
  destruct (eraser_close_discards_save_commits toDataURL (λ _ _, 0%Q) (λ _ _ _ r _ _, r)
              one_image
              [EraserLoad (Some (Raster.mk 1 1 [0; 0; 0; 255]%Z));
               EraserDraw (EraserEvent.mk 1 3 4 0 0 10 10)]) as [Hclose Hsave].
  split; [exact Hclose|].
  apply (Hsave "1" 0%nat); try reflexivity; try discriminate.
  apply (bool_decide_unpack _). vm_compute. exact I.
Defined.

(** One stroke on the sample image, then close or save. *)
Example eraser_session_sample :
  let toDataURL := λ _ : Raster.t, "data:image/png;base64,AAAA" in
  let session :=
    eraserSession (λ _ _, 0%Q) (λ _ _ _ r _ _, r) one_image
      [EraserLoad (Some (Raster.mk 1 1 [0; 0; 0; 255]%Z));
       EraserDraw (EraserEvent.mk 1 3 4 0 0 10 10)] in
  scene (closeEraser session) = scene one_image
  ∧ (el_id <$> elements (saveEraserResult toDataURL session)) = ["1"]
  ∧ elements (saveEraserResult toDataURL session)
    = [assign_field (UpdSrc "data:image/png;base64,AAAA") one_image_el].
Proof. repeat split. Qed.

(** ** Export *)

(** A rendering step only appends to the trace, and what it appends does not
    depend on the trace it is given. *)
Definition appends {A : Type} (m : Render A) : Prop :=
  ∀ tr, m tr = ((m []).1, tr ++ (m []).2).

(** The calls a step makes, and whether it ends without a pending rejection. *)
Definition ops_of {A : Type} (m : Render A) : list CanvasOp := (m []).2.
Definition completes (m : Render unit) : Prop := (m []).1 = Some ().

Lemma appends_ret {A} (a : A) : appends (mret a).
Proof. intros tr. cbn. by rewrite app_nil_r. Qed.

Lemma appends_emit op : appends (emit op).
Proof. by intros tr. Qed.

Lemma appends_reject {A} : appends (@reject A).
Proof. intros tr. cbn. by rewrite app_nil_r. Qed.

Lemma appends_bind {A B} (m : Render A) (f : A → Render B) :
  appends m → (∀ a, appends (f a)) → appends (m ≫= f).
Proof.
  intros Hm Hf tr. unfold mbind, Render_bind.
  rewrite (Hm tr). destruct (m []) as [[a|] ops]; cbn [fst snd].
  - rewrite (Hf a (tr ++ ops)), (Hf a ops). cbn [fst snd]. by rewrite app_assoc.
  - done.
Qed.

Lemma appends_try_catch body handler :
  appends body → appends handler → appends (try_catch body handler).
Proof.
  intros Hb Hh tr. unfold try_catch.
  rewrite (Hb tr). destruct (body []) as [[a|] ops]; cbn [fst snd]; [done|].
  rewrite (Hh (tr ++ ops)), (Hh ops). cbn [fst snd]. by rewrite app_assoc.
Qed.

Lemma appends_when b m : appends m → appends (when b m).
Proof. destruct b; [done|]. intros _. apply appends_ret. Qed.

Lemma appends_for_of {A} (xs : list A) body :
  (∀ x, appends (body x)) → appends (for_of xs body).
Proof.
  intros Hb. induction xs as [|x xs IH]; cbn [for_of]; [apply appends_ret|].
  apply appends_bind; [apply Hb|done].
Qed.

Lemma appends_forEach_from {A} (xs : list A) body : ∀ i,
  (∀ x j, appends (body x j)) → appends (forEach_from i xs body).
Proof.
  induction xs as [|x xs IH]; intros i Hb; cbn [forEach_from]; [apply appends_ret|].
  apply appends_bind; [apply Hb|]. intros _. by apply IH.
Qed.

Create HintDb render discriminated.
#[local] Hint Resolve appends_ret appends_emit appends_reject appends_try_catch
  appends_when appends_for_of appends_forEach_from : render.
#[local] Hint Extern 2 (appends (_ ≫= _)) => apply appends_bind; [|intros ?] : render.
#[local] Hint Extern 3 (appends (match ?x with _ => _ end)) => destruct x : render.

(** Sequencing two steps that append: the traces concatenate. *)
Lemma ops_of_seq (m k : Render unit) :
  appends k → completes m → ops_of (m ;; k) = ops_of m ++ ops_of k.
Proof.
  intros Hk Hm. unfold ops_of, completes, mbind, Render_bind in *.
  destruct (m []) as [[[]|] ops]; [|done]. cbn [fst snd] in *.
  by rewrite (Hk ops).
Qed.

Lemma completes_seq (m k : Render unit) :
  appends k → completes m → completes k → completes (m ;; k).
Proof.
  intros Hk Hm Hkc. unfold completes, mbind, Render_bind in *.
  destruct (m []) as [[[]|] ops]; [|done]. by rewrite (Hk ops).
Qed.

Section ExportProperties.
Variable loadImage : string → option HTMLImage.t.

Lemma appends_await src : appends (await_loadImage loadImage src).
Proof. unfold await_loadImage. destruct (loadImage src); auto with render. Qed.

Lemma appends_setLineDashFor style : appends (setLineDashFor style).
Proof. unfold setLineDashFor. auto with render. Qed.

#[local] Hint Resolve appends_await appends_setLineDashFor : render.

Lemma appends_renderText t : appends (renderText t).
Proof. unfold renderText. auto 20 with render. Qed.

Lemma appends_renderImage i : appends (renderImage loadImage i).
Proof. unfold renderImage. auto 40 with render. Qed.

Lemma appends_renderShape s : appends (renderShape s).
Proof. unfold renderShape. auto 30 with render. Qed.

Lemma appends_renderElement el : appends (renderElement loadImage el).
Proof.
  unfold renderElement.
  pose proof appends_renderText. pose proof appends_renderImage.
  pose proof appends_renderShape.
  destruct el; auto 20 with render.
Qed.

Lemma appends_renderBackground cw ch bg : appends (renderBackground loadImage cw ch bg).
Proof. unfold renderBackground. auto 20 with render. Qed.

Lemma appends_renderOverlay cw ch ov : appends (renderOverlay cw ch ov).
Proof. unfold renderOverlay. auto 20 with render. Qed.
End ExportProperties.

Lemma completes_emit op : completes (emit op).
Proof. done. Qed.

Lemma completes_ret : completes (mret ()).
Proof. done. Qed.

Lemma completes_when b m : completes m → completes (when b m).
Proof. by destruct b. Qed.

Lemma completes_try_catch body handler :
  appends handler → completes handler → completes (try_catch body handler).
Proof.
  intros Hh Hc. unfold completes, try_catch in *.
  destruct (body []) as [[[]|] ops]; [done|]. by rewrite (Hh ops).
Qed.

Lemma completes_for_of {A} (xs : list A) body :
  (∀ x, appends (body x)) → (∀ x, completes (body x)) → completes (for_of xs body).
Proof.
  intros Ha Hc. induction xs as [|x xs IH]; [done|]. cbn [for_of].
  apply completes_seq; [by apply appends_for_of|apply Hc|done].
Qed.

Lemma completes_forEach_from {A} (xs : list A) body : ∀ i,
  (∀ x j, appends (body x j)) → (∀ x j, completes (body x j)) →
  completes (forEach_from i xs body).
Proof.
  induction xs as [|x xs IH]; intros i Ha Hc; [done|]. cbn [forEach_from].
  apply completes_seq; [by apply appends_forEach_from|apply Hc|by apply IH].
Qed.

(** The trace of a loop is the concatenation of the traces of its rounds. *)
Lemma ops_of_for_of {A} (xs : list A) body :
  (∀ x, appends (body x)) → (∀ x, completes (body x)) →
  ops_of (for_of xs body) = concat ((λ x, ops_of (body x)) <$> xs).
Proof.
  intros Ha Hc. induction xs as [|x xs IH]; [done|]. cbn [for_of fmap list_fmap concat].
  rewrite ops_of_seq; [by rewrite IH|by apply appends_for_of|apply Hc].
Qed.

Lemma elem_of_ops_seq_l op (m k : Render unit) :
  appends k → op ∈ ops_of m → op ∈ ops_of (m ;; k).
Proof.
  intros Hk Hop. unfold ops_of, mbind, Render_bind in *.
  destruct (m []) as [[[]|] ops]; [|done]. cbn [snd] in *.
  rewrite (Hk ops). cbn [snd]. apply elem_of_app. by left.
Qed.

Lemma elem_of_ops_seq_r op (m k : Render unit) :
  appends k → completes m → op ∈ ops_of k → op ∈ ops_of (m ;; k).
Proof.
  intros Hk Hm Hop. rewrite ops_of_seq by done. apply elem_of_app. by right.
Qed.

#[local] Hint Resolve completes_emit completes_ret completes_when completes_try_catch
  completes_for_of completes_forEach_from : render.
#[local] Hint Extern 2 (completes (_ ≫= _)) => apply completes_seq : render.
#[local] Hint Extern 3 (completes (match ?x with _ => _ end)) => destruct x : render.

(** Walks a concrete trace to the call looked for. *)
Ltac find_op := repeat first [apply list_elem_of_here | apply list_elem_of_further].

(** The background variant carries the parameters its type names: a
    gradient has its two colour stops, an image background its image. *)
Definition background_well_formed (bg : BackgroundState.t) : Prop :=
  match BackgroundState.type bg with
  | bg_solid => True
  | bg_gradient =>
      ∃ g c0 c1, BackgroundState.gradient bg = Some g
                 ∧ Gradient.colors g !! 0%nat = Some c0
                 ∧ Gradient.colors g !! 1%nat = Some c1
  | bg_image => is_Some (BackgroundState.image bg)
  end.

Section ExportTheorems.
Variable loadImage : string → option HTMLImage.t.

#[local] Hint Resolve appends_await appends_setLineDashFor appends_renderText
  appends_renderImage appends_renderShape appends_renderElement
  appends_renderBackground appends_renderOverlay : render.

Lemma completes_setLineDashFor style : completes (setLineDashFor style).
Proof. unfold setLineDashFor. destruct style; done. Qed.

#[local] Hint Resolve completes_setLineDashFor : render.

Lemma completes_renderText t : completes (renderText t).
Proof. unfold renderText. auto 30 with render. Qed.

Lemma completes_renderImage i : completes (renderImage loadImage i).
Proof. unfold renderImage. auto with render. Qed.

Lemma completes_renderShape s : completes (renderShape s).
Proof. unfold renderShape. auto 40 with render. Qed.

(** No element makes the export stop: a failed load is caught inside the
    round of the element it belongs to. *)
Lemma completes_renderElement el : completes (renderElement loadImage el).
Proof.
  unfold renderElement.
  pose proof completes_renderText. pose proof completes_renderImage.
  pose proof completes_renderShape.
  destruct el; auto 30 with render.
Qed.

Lemma completes_renderOverlay cw ch ov : completes (renderOverlay cw ch ov).
Proof. unfold renderOverlay. auto 30 with render. Qed.

Lemma completes_renderBackground cw ch bg :
  background_well_formed bg → completes (renderBackground loadImage cw ch bg).
Proof.
  unfold background_well_formed, renderBackground.
  destruct (BackgroundState.type bg).
  - intros [image ->]. destruct (BackgroundState.gradient bg); auto 30 with render.
  - intros _. destruct (BackgroundState.gradient bg), (BackgroundState.image bg);
      auto 30 with render.
  - intros (g & c0 & c1 & -> & -> & ->).
    destruct (BackgroundState.image bg); repeat case_match; auto 30 with render.
Qed.

(** The background is filled over the whole canvas. *)
Lemma renderBackground_fills cw ch bg :
  background_well_formed bg →
  FillRect 0 0 cw ch ∈ ops_of (renderBackground loadImage cw ch bg).
Proof.
  unfold background_well_formed, renderBackground.
  destruct (BackgroundState.type bg).
  - intros [image ->].
    assert (FillRect 0 0 cw ch ∈
              ops_of (emit (SetFillStyle (FillColor "#ffffff")) ;;
                      emit (FillRect 0 0 cw ch) ;;
                      try_catch
                        (img ← await_loadImage loadImage (BackgroundImage.src image);
                         emit (DrawImage img (BackgroundImage.x image) (BackgroundImage.y image)
                                 (inject_Z (HTMLImage.width img) * BackgroundImage.scale image)
                                 (inject_Z (HTMLImage.height img) * BackgroundImage.scale image)))
                        (emit (ConsoleError "Could not load background")))) as Hin.
    { apply elem_of_ops_seq_r; [auto 20 with render|done|].
      apply elem_of_ops_seq_l; [auto 20 with render|]. find_op. }
    by destruct (BackgroundState.gradient bg).
  - intros _. assert (∀ c, FillRect 0 0 cw ch ∈
              ops_of (emit (SetFillStyle (FillColor c)) ;; emit (FillRect 0 0 cw ch))) as Hin
      by (intros c; find_op).
    destruct (BackgroundState.gradient bg), (BackgroundState.image bg); apply Hin.
  - intros (g & c0 & c1 & -> & -> & ->).
    destruct (BackgroundState.image bg); find_op.
Qed.

(** The round of an image that fails to load: the transform is set up, the
    failure is logged, the context is restored; nothing is drawn. *)
Lemma renderElement_undecodable i :
  loadImage (ImageElement.src i) = None →
  ops_of (renderElement loadImage (Image i))
  = [Save;
     Translate (BaseElement.x (ImageElement.base i)) (BaseElement.y (ImageElement.base i));
     Rotate (BaseElement.rotation (ImageElement.base i));
     ConsoleError "Could not load image element";
     Restore].
Proof.
  intros Hload.
  unfold ops_of, renderElement, renderImage, try_catch, await_loadImage, mbind, Render_bind.
  cbn. by rewrite Hload.
Qed.

Lemma renderElement_image_drawn i img :
  loadImage (ImageElement.src i) = Some img →
  DrawImage img (- ImageElement.width i / 2)%Q (- ImageElement.height i / 2)%Q
    (ImageElement.width i) (ImageElement.height i)
  ∈ ops_of (renderElement loadImage (Image i)).
Proof.
  intros Hload. unfold renderElement.
  do 3 (apply elem_of_ops_seq_r; [auto 20 with render|done|]).
  apply elem_of_ops_seq_l; [auto with render|].
  unfold ops_of, renderImage, try_catch, await_loadImage, mbind, Render_bind.
  rewrite Hload. cbn.
  destruct (BaseElement.shadow (ImageElement.base i)) as [sh|];
    [destruct (Qgtb (ShadowData.opacity sh) 0)|];
    (destruct (BaseElement.border (ImageElement.base i)) as [bd|];
     [destruct (Qgtb (BorderData.width bd) 0); [destruct (BorderData.style bd)|]|]);
    cbn; find_op.
Qed.

Lemma renderElement_shape_filled s :
  Fill ∈ ops_of (renderElement loadImage (Shape s)).
Proof.
  unfold renderElement.
  do 3 (apply elem_of_ops_seq_r; [auto 20 with render|done|]).
  apply elem_of_ops_seq_l; [auto with render|].
  unfold ops_of, renderShape, mbind, Render_bind.
  destruct (BaseElement.shadow (ShapeElement.base s)) as [sh|];
    [destruct (Qgtb (ShadowData.opacity sh) 0)|];
    destruct (ShapeElement.shapeType s);
    (destruct (BaseElement.border (ShapeElement.base s)) as [bd|];
     [destruct (Qgtb (BorderData.width bd) 0); [destruct (BorderData.style bd)|]|]);
    cbn; find_op.
Qed.

Lemma forEach_from_fillText (f : nat → Q) line lines : ∀ i,
  line ∈ lines →
  ∃ j, FillText line 0 (f j)
       ∈ ops_of (forEach_from i lines (λ l j, emit (FillText l 0 (f j)))).
Proof.
  induction lines as [|l lines IH]; intros i; [by intros ?%elem_of_nil|].
  intros [->|Hin]%elem_of_cons; cbn [forEach_from].
  - exists i. apply elem_of_ops_seq_l; [|find_op].
    apply appends_forEach_from. auto with render.
  - destruct (IH (S i) Hin) as [j Hj]. exists j.
    apply elem_of_ops_seq_r; [|done|done].
    apply appends_forEach_from. auto with render.
Qed.

Lemma renderElement_text_lines t line :
  line ∈ split_lines (TextElement.content t) →
  ∃ y, FillText line 0 y ∈ ops_of (renderElement loadImage (Text t)).
Proof.
  intros Hin. unfold renderElement, renderText.
  set (lineHeight := (TextElement.fontSize t * 1.2)%Q).
  set (startY := (- (_ / 2) + lineHeight / 2)%Q).
  destruct (forEach_from_fillText
              (λ j, (startY + inject_Z (Z.of_nat j) * lineHeight)%Q) line _ 0 Hin) as [j Hj].
  exists (startY + inject_Z (Z.of_nat j) * lineHeight)%Q.
  assert (∀ (A : Type) (xs : list A) body i,
            (∀ x j, appends (body x j)) → appends (forEach_from i xs body)) as Hfe
    by (intros; by apply appends_forEach_from).
  do 3 (apply elem_of_ops_seq_r; [auto 30 with render|done|]).
  apply elem_of_ops_seq_l; [auto with render|].
  apply elem_of_ops_seq_r; [auto 30 with render| |].
  { destruct (TextElement.shadowEnabled t), (BaseElement.shadow (TextElement.base t));
      auto 30 with render. }
  do 4 (apply elem_of_ops_seq_r; [auto 30 with render|done|]).
  exact Hj.
Qed.

(** What the export shows of one element: an image that fails to load
    leaves only a logged failure; any other element is drawn. *)
Definition element_exported (el : EditorElement) : Prop :=
  match el with
  | Image i =>
      match loadImage (ImageElement.src i) with
      | None =>
          ops_of (renderElement loadImage el)
          = [Save;
             Translate (BaseElement.x (ImageElement.base i))
                       (BaseElement.y (ImageElement.base i));
             Rotate (BaseElement.rotation (ImageElement.base i));
             ConsoleError "Could not load image element";
             Restore]
      | Some img =>
          DrawImage img (- ImageElement.width i / 2)%Q (- ImageElement.height i / 2)%Q
            (ImageElement.width i) (ImageElement.height i)
          ∈ ops_of (renderElement loadImage el)
      end
  | Shape s => Fill ∈ ops_of (renderElement loadImage el)
  | Text t =>
      ∀ line, line ∈ split_lines (TextElement.content t) →
              ∃ y, FillText line 0 y ∈ ops_of (renderElement loadImage el)
  end.

(** C8.  The export runs to the download click whatever images fail to
    load.  Its trace is the background, then the overlay, then one
    self-contained round per element in array order; the round of an image
    that fails to load holds the logged failure and no drawing call, and
    the round of every other element holds its drawing call. *)
Theorem export_skips_undecodable_images (now : N) (st : EditorState) :
  background_well_formed (background st) →
  let cw := Dimensions.width (canvasDimensions st) in
  let ch := Dimensions.height (canvasDimensions st) in
  handleDownload loadImage true now st
  = (Some (),
     ops_of (renderBackground loadImage cw ch (background st))
     ++ ops_of (renderOverlay cw ch (overlay st))
     ++ concat ((λ el, ops_of (renderElement loadImage el)) <$> elements st)
     ++ [LinkClick ("design-" +:+ pretty now +:+ ".png")])
  ∧ FillRect 0 0 cw ch ∈ ops_of (renderBackground loadImage cw ch (background st))
  ∧ (Qgtb (Overlay.opacity (overlay st)) 0 = true →
     FillRect 0 0 cw ch ∈ ops_of (renderOverlay cw ch (overlay st)))
  ∧ Forall element_exported (elements st).
Proof.
  intros Hbg cw ch. repeat split.
  - unfold handleDownload. cbn [negb].
    assert (appends (for_of (elements st) (renderElement loadImage))) as Hfor
      by auto with render.
    assert (completes (for_of (elements st) (renderElement loadImage))) as Hforc.
    { apply completes_for_of; [auto with render|apply completes_renderElement]. }
    pose proof (completes_renderBackground cw ch _ Hbg) as Hbgc.
    pose proof (completes_renderOverlay cw ch (overlay st)) as Hovc.
    set (m := render loadImage now st).
    assert (completes m) as Hm.
    { unfold m, render. fold cw ch. auto 20 with render. }
    assert (ops_of m
            = ops_of (renderBackground loadImage cw ch (background st))
              ++ ops_of (renderOverlay cw ch (overlay st))
              ++ concat ((λ el, ops_of (renderElement loadImage el)) <$> elements st)
              ++ [LinkClick ("design-" +:+ pretty now +:+ ".png")]) as Hops.
    { unfold m, render. fold cw ch.
      rewrite ops_of_seq by auto 20 with render.
      rewrite ops_of_seq by auto 20 with render.
      rewrite ops_of_seq by auto 20 with render.
      rewrite ops_of_for_of; [done|auto with render|apply completes_renderElement]. }
    unfold completes in Hm. unfold ops_of in Hops at 1.
    destruct (m []) as [r ops]. cbn [fst snd] in *. by subst.
  - by apply renderBackground_fills.
  - intros Hov. unfold renderOverlay. rewrite Hov. cbn [when]. find_op.
  - apply Forall_forall. intros [t|i|s] _; cbn [element_exported].
    + intros line. apply renderElement_text_lines.
    + destruct (loadImage (ImageElement.src i)) as [img|] eqn:Hload.
      * by apply renderElement_image_drawn.
      * by apply renderElement_undecodable.
    + apply renderElement_shape_filled.
Qed.
End ExportTheorems.

(** The image fails to load, the text above it is still drawn, and the
    download is reached. *)
Example export_with_broken_image :
  handleDownload (λ _, None) true 7 (addText 2 one_image)
  = (Some (),
     [ SetFillStyle (FillColor "#ffffff"); FillRect 0 0 500 500;
       Save; Translate (500 / 2) (500 / 2); Rotate 0;
       ConsoleError "Could not load image element";
       Restore;
       Save; Translate (500 / 2) (500 / 2); Rotate 0;
       SetShadowColor (Rgba "#000000" 0.8); SetShadowBlur 4;
       SetShadowOffsetX 2; SetShadowOffsetY 2;
       SetFont 24 "Roboto"; SetFillStyle (FillColor "#ffffff");
       SetTextAlign align_center; SetTextBaseline "middle";
       FillText "Nhập văn bản..." 0 (- (inject_Z 1 * (24 * 1.2) / 2) + 24 * 1.2 / 2 + inject_Z 0 * (24 * 1.2));
       Restore;
       LinkClick "design-7.png" ]%Q).
Proof. reflexivity. Qed.

Lemma export_skips_undecodable_images_witness :
  let loadImage := λ _ : string, @None HTMLImage.t in
  let st := addText 2 one_image in
  let cw := Dimensions.width (canvasDimensions st) in
  let ch := Dimensions.height (canvasDimensions st) in
  handleDownload loadImage true 7 st
  = (Some (),
     ops_of (renderBackground loadImage cw ch (background st))
     ++ ops_of (renderOverlay cw ch (overlay st))
     ++ concat ((λ el, ops_of (renderElement loadImage el)) <$> elements st)
     ++ [LinkClick ("design-" +:+ pretty 7%N +:+ ".png")])
  ∧ FillRect 0 0 cw ch ∈ ops_of (renderBackground loadImage cw ch (background st))
  ∧ (Qgtb (Overlay.opacity (overlay st)) 0 = true →
     FillRect 0 0 cw ch ∈ ops_of (renderOverlay cw ch (overlay st)))
  ∧ Forall (element_exported loadImage) (elements st).
Proof.
  exact (export_skips_undecodable_images (λ _, None) 7 (addText 2 one_image) I).
Defined.


(** * Further properties of the editor *)

(** ** White-background removal, continued *)

Lemma is_white_removeWhitePixels data p :
  is_white (removeWhitePixels data) p = is_white data p.
Proof.
  unfold is_white. rewrite !removeWhitePixels_lookup.
  destruct (pixel_offset p 0 ltac:(lia)) as [H0 _].
  destruct (pixel_offset p 1 ltac:(lia)) as [H1 _].
  destruct (pixel_offset p 2 ltac:(lia)) as [H2 _].
  rewrite Nat.add_0_r in H0. rewrite H0, H1, H2.
  by rewrite !(bool_decide_eq_false_2 (_ = 3)) by lia.
Qed.

(** X1.  Filtering an already filtered pixel array changes nothing: the
    loop reads only colour bytes and writes only alpha bytes. *)
Theorem removeWhitePixels_idempotent (data : list Z) :
  removeWhitePixels (removeWhitePixels data) = removeWhitePixels data.
Proof.
  apply list_eq. intros j.
  rewrite (removeWhitePixels_lookup (removeWhitePixels data)).
  rewrite is_white_removeWhitePixels, removeWhitePixels_lookup.
  destruct (_ && _); [|done]. by destruct (data !! j).
Qed.

(** ** Property edits *)

(** Two edits write the same key. *)
Definition same_key (u1 u2 : FieldUpdate) : bool :=
  match u1, u2 with
  | UpdSrc _, UpdSrc _ | UpdContent _, UpdContent _ | UpdFontFamily _, UpdFontFamily _
  | UpdColor _, UpdColor _ | UpdAlign _, UpdAlign _ | UpdBorderRadius _, UpdBorderRadius _ => true
  | _, _ => false
  end.

Lemma assign_field_overwrite u1 u2 el :
  same_key u1 u2 = true → assign_field u2 (assign_field u1 el) = assign_field u2 el.
Proof. by destruct u1, u2, el as [[]|[]|[]]. Qed.

Lemma assign_field_commute u1 u2 el :
  same_key u1 u2 = false →
  assign_field u2 (assign_field u1 el) = assign_field u1 (assign_field u2 el).
Proof. by destruct u1, u2, el as [[]|[]|[]]. Qed.

Lemma assign_field_base u el : el_base (assign_field u el) = el_base el.
Proof. by destruct u, el as [[]|[]|[]]. Qed.

Lemma assign_field_id u el : el_id (assign_field u el) = el_id el.
Proof. unfold el_id. by rewrite assign_field_base. Qed.

(** [updateElement] as one rewrite of the element array. *)
Definition edited (u : FieldUpdate) (st : EditorState) (l : list EditorElement)
  : list EditorElement :=
  if falsy (selectedId st) || bool_decide (selectedId st = Some "bg") then l
  else map (λ el, if is_selected (selectedId st) (el_id el) then assign_field u el else el) l.

Lemma updateElement_set_elements u l st :
  updateElement u (set_elements l st) = set_elements (edited u st l) st.
Proof.
  unfold updateElement, edited. cbn [selectedId set_elements elements].
  by destruct (_ || _).
Qed.

Lemma updateElement_edited u st :
  updateElement u st = set_elements (edited u st (elements st)) st.
Proof. by rewrite <- updateElement_set_elements, set_elements_id. Qed.

Lemma edited_twice u1 u2 st l g :
  (∀ el, assign_field u2 (assign_field u1 el) = g el) →
  edited u2 st (edited u1 st l)
  = if falsy (selectedId st) || bool_decide (selectedId st = Some "bg") then l
    else map (λ el, if is_selected (selectedId st) (el_id el) then g el else el) l.
Proof.
  intros Hg. unfold edited. destruct (_ || _); [done|].
  rewrite map_map. apply map_ext. intros el.
  destruct (is_selected (selectedId st) (el_id el)) eqn:Hsel.
  - by rewrite assign_field_id, Hsel, Hg.
  - by rewrite Hsel.
Qed.



(** ** Operations without a target *)

(** No element carries the selected id: nothing is selected, the background
    is, or the id belongs to an element that is no longer there. *)
Definition no_target (st : EditorState) : Prop :=
  Forall (λ el, selectedId st ≠ Some (el_id el)) (elements st).

Lemma no_target_find st : no_target st → find_selected (selectedId st) (elements st) = None.
Proof.
  intros Hno. destruct (selectedId st) as [sel|] eqn:Hsel; [|done].
  apply list_find_None. eapply Forall_impl; [exact Hno|]. intros el H ?. congruence.
Qed.

Lemma no_target_map (f : EditorElement → EditorElement) st :
  no_target st →
  map (λ el, if is_selected (selectedId st) (el_id el) then f el else el) (elements st)
  = elements st.
Proof.
  intros Hno. induction Hno as [|el l Hel _ IH]; [done|]. cbn. rewrite IH.
  unfold is_selected. by rewrite bool_decide_eq_false_2.
Qed.

Lemma no_target_mapM (f : EditorElement → option EditorElement) st :
  no_target st →
  mapM (λ el, if is_selected (selectedId st) (el_id el) then f el else Some el) (elements st)
  = Some (elements st).
Proof.
  intros Hno. apply mapM_Some_2.
  induction Hno as [|el l Hel _ IH]; constructor; [|done].
  unfold is_selected. by rewrite bool_decide_eq_false_2.
Qed.

(** X3.  An operation addressed to an element that is not there is ignored:
    the layer buttons leave the state as it is, and a property edit, a
    deletion and a pointer-move leave the element array as it is. *)
Theorem missing_target_is_ignored (st : EditorState) :
  no_target st →
  (∀ d, moveLayer d st = st)
  ∧ (∀ u, elements (updateElement u st) = elements st)
  ∧ elements (deleteSelected st) = elements st
  ∧ (∀ e st', handleMouseMove e st = Some st' → elements st' = elements st).
Proof.
  intros Hno. repeat split.
  - intros d. unfold moveLayer. destruct (_ || _); [done|]. by rewrite no_target_find.
  - intros u. unfold updateElement. destruct (_ || _); [done|].
    cbn [elements set_elements]. by apply no_target_map.
  - unfold deleteSelected. case_bool_decide; [done|].
    cbn [elements set_elements set_isCropping set_selectedId].
    clear -Hno. induction Hno as [|el l Hel _ IH]; [done|].
    rewrite filter_cons_True by done. by rewrite IH.
  - intros e st'. unfold handleMouseMove.
    destruct (_ && _); [by intros [= <-]|].
    destruct (falsy _); [by intros [= <-]|].
    rewrite no_target_mapM by done. cbn [mbind option_bind].
    destruct (bool_decide _); [|by intros [= <-]].
    destruct (BackgroundState.type (background st)); [|by intros [= <-]..].
    destruct (BackgroundState.image (background st)); [|by intros [= <-]].
    destruct (isDragging st).
    { destruct (snap_x _); [|done]. destruct (snap_y _); [|done]. by intros [= <-]. }
    destruct (isResizing st); [|by intros [= <-]].
    destruct (snap_scale _); [|done]. by intros [= <-].
Qed.

Lemma missing_target_is_ignored_witness :
  (∀ d, moveLayer d (handleCanvasClick two_texts) = handleCanvasClick two_texts)
  ∧ (∀ u, elements (updateElement u (handleCanvasClick two_texts))
          = elements (handleCanvasClick two_texts))
  ∧ elements (deleteSelected (handleCanvasClick two_texts))
    = elements (handleCanvasClick two_texts)
  ∧ (∀ e st', handleMouseMove e (handleCanvasClick two_texts) = Some st' →
              elements st' = elements (handleCanvasClick two_texts)).
Proof.
  apply missing_target_is_ignored.
  repeat constructor; discriminate.
Defined.

(** ** Deletion *)

Lemma filter_not_selected_middle sel l1 el l2 :
  Forall (λ e, el_id e ≠ sel) l1 → Forall (λ e, el_id e ≠ sel) l2 → el_id el = sel →
  filter (λ t, ¬ (Some sel = Some (el_id t))) (l1 ++ el :: l2) = l1 ++ l2.
Proof.
  intros Hl1 Hl2 Hid.
  assert (∀ l, Forall (λ e, el_id e ≠ sel) l →
               filter (λ t, ¬ (Some sel = Some (el_id t))) l = l) as Hkeep.
  { intros l Hl. induction Hl as [|x l Hx _ IH]; [done|].
    rewrite filter_cons_True by congruence. by rewrite IH. }
  rewrite filter_app, filter_cons_False by (intros H; apply H; congruence).
  by rewrite !Hkeep.
Qed.

(** X4.  Deleting the selected element removes exactly that element: the
    others keep their order, the selection is cleared and crop mode ends.
    Deleting the background resets it to solid white and leaves every
    element in place. *)
Theorem deleteSelected_removes_the_selection (st : EditorState) :
  NoDup (el_id <$> elements st) →
  (∀ id i el, selectedId st = Some id → id ≠ "bg" →
     find_by_id id (elements st) = Some (i, el) →
     elements (deleteSelected st) = delete i (elements st)
     ∧ selectedId (deleteSelected st) = None
     ∧ isCropping (deleteSelected st) = false
     ∧ background (deleteSelected st) = background st)
  ∧ (selectedId st = Some "bg" →
     elements (deleteSelected st) = elements st
     ∧ selectedId (deleteSelected st) = None
     ∧ background (deleteSelected st)
       = BackgroundState.mk bg_solid None (Some "#ffffff") None).
Proof.
  intros Hnd. split.
  - intros id i el Hsel Hbg Hfind.
    destruct (find_by_id_split _ _ _ _ Hfind) as (l1 & l2 & Hels & Hlen & Hid & Hl1).
    pose proof Hnd as Hnd'. rewrite Hels in Hnd'.
    apply NoDup_ids_others in Hnd' as [_ Hl2]. rewrite Hid in Hl2.
    unfold deleteSelected. rewrite Hsel.
    rewrite bool_decide_eq_false_2 by congruence.
    cbn [elements set_elements set_isCropping set_selectedId selectedId isCropping background].
    repeat split. rewrite Hels, <- Hlen, delete_middle.
    by apply filter_not_selected_middle.
  - intros Hsel. unfold deleteSelected. rewrite Hsel.
    by rewrite bool_decide_eq_true_2.
Qed.

(** The text that [addText 1] puts into the empty editor. *)
Definition first_text : TextElement.t :=
  TextElement.mk
    (BaseElement.mk "1" (500 / 2) (500 / 2) 0 0 None None
       (Some (ShadowData.mk "#000000" 0.8 2 2 4)) None)
    "Nhập văn bản..." 24 "font-roboto" "#ffffff" align_center true.

Lemma deleteSelected_removes_the_selection_witness :
  elements (deleteSelected two_texts_first_selected)
  = delete 0%nat (elements two_texts_first_selected)
  ∧ selectedId (deleteSelected two_texts_first_selected) = None
  ∧ isCropping (deleteSelected two_texts_first_selected) = false
  ∧ background (deleteSelected two_texts_first_selected)
    = background two_texts_first_selected.
Proof.
  assert (NoDup (el_id <$> elements two_texts_first_selected)) as Hnd.
  { apply (bool_decide_unpack _). vm_compute. exact I. }
  destruct (deleteSelected_removes_the_selection two_texts_first_selected Hnd) as [H _].
  apply (H "1" 0%nat (Text first_text)); [reflexivity|discriminate|reflexivity].
Defined.

(** ** Layer order, continued *)

(** The selected element is the first of the array and has others above
    it: the mirror image of [selected_on_top]. *)
Definition selected_at_bottom (st : EditorState) : Prop :=
  ∃ el, find_selected (selectedId st) (elements st) = Some (0%nat, el)
        ∧ 1 < length (elements st).

(** X5.  With unique ids, ['down'] followed by ['up'] restores the state
    unless the selected layer is the first of an array of two or more, where
    ['down'] finds nothing to exchange. *)
Theorem moveLayer_down_up_roundtrip (st : EditorState) :
  NoDup (el_id <$> elements st) →
  ¬ selected_at_bottom st →
  moveLayer Direction.up (moveLayer Direction.down st) = st.
Proof.
  intros Hnd Hnot.
  destruct (classic_layer st) as [(sel & Hsel)|Hno];
    [|by rewrite !(not_layer_selected st Hno)].
  pose proof Hsel as (Hs & Hne & Hbg).
  destruct (find_by_id sel (elements st)) as [[i el]|] eqn:Hfind.
  - destruct (find_by_id_split _ _ _ _ Hfind) as (l1 & l2 & Hels & Hlen & Hid & Hl1).
    pose proof Hnd as Hnd'. rewrite Hels in Hnd'.
    apply NoDup_ids_others in Hnd' as [_ Hl2]. rewrite Hid in Hl2.
    destruct l1 as [|x l1 _] using rev_ind.
    + rewrite (moveLayer_down_bottom st sel el l2) by done.
      destruct l2 as [|y l2]; [by apply (moveLayer_up_top st sel [] el)|].
      exfalso. apply Hnot. exists el. rewrite Hs. cbn [find_selected].
      subst i. split; [done|]. rewrite Hels. simpl. lia.
    + apply Forall_app in Hl1 as [Hl1 Hx]. rewrite Forall_singleton in Hx.
      assert (elements st = l1 ++ x :: el :: l2) as Hels'
        by (by rewrite Hels, <- app_assoc).
      rewrite (moveLayer_down_middle st sel l1 x el l2) by done.
      rewrite (moveLayer_up_middle _ sel l1 el x l2); try done.
      by rewrite set_elements_twice, <- Hels', set_elements_id.
  - unfold moveLayer at 2. rewrite (layer_selected_guard _ _ Hsel), Hs.
    cbn [find_selected]. rewrite Hfind.
    unfold moveLayer. rewrite (layer_selected_guard _ _ Hsel), Hs.
    cbn [find_selected]. by rewrite Hfind.
Qed.

Lemma moveLayer_down_up_roundtrip_witness :
  moveLayer Direction.up (moveLayer Direction.down two_texts) = two_texts.
Proof.
  apply moveLayer_down_up_roundtrip.
  - apply (bool_decide_unpack _). vm_compute. exact I.
  - intros (el & Hf & _). vm_compute in Hf. discriminate Hf.
Defined.

Lemma moveLayer_bottom_middle st sel l1 el l2 :
  layer_selected st sel →
  elements st = l1 ++ el :: l2 →
  Forall (λ e, el_id e ≠ sel) l1 → el_id el = sel →
  moveLayer Direction.bottom st = set_elements (el :: l1 ++ l2) st.
Proof.
  intros Hsel Hels Hl1 Hid. unfold moveLayer.
  rewrite (layer_selected_guard _ _ Hsel). destruct Hsel as (Hs & _ & _).
  rewrite Hs. cbn [find_selected]. rewrite Hels.
  rewrite (find_by_id_middle sel l1 el l2) by done.
  by rewrite delete_middle.
Qed.

(** X6.  ['top'] puts the selected layer last and ['bottom'] puts it first,
    the other layers keeping their order; doing either twice is the same as
    doing it once, and of ['top'] and ['bottom'] in a row the second
    decides. *)
Theorem moveLayer_top_bottom (st : EditorState) (id : string) (i : nat) (el : EditorElement) :
  NoDup (el_id <$> elements st) →
  layer_selected st id →
  find_by_id id (elements st) = Some (i, el) →
  let top := moveLayer Direction.top in
  let bottom := moveLayer Direction.bottom in
  elements (top st) = delete i (elements st) ++ [el]
  ∧ elements (bottom st) = el :: delete i (elements st)
  ∧ top (top st) = top st
  ∧ bottom (bottom st) = bottom st
  ∧ bottom (top st) = bottom st
  ∧ top (bottom st) = top st.
Proof.
  intros Hnd Hsel Hfind top bottom.
  destruct (find_by_id_split _ _ _ _ Hfind) as (l1 & l2 & Hels & Hlen & Hid & Hl1).
  pose proof Hnd as Hnd'. rewrite Hels in Hnd'.
  apply NoDup_ids_others in Hnd' as [_ Hl2]. rewrite Hid in Hl2.
  assert (Forall (λ e, el_id e ≠ id) (l1 ++ l2)) as Hl12 by (by apply Forall_app).
  assert (top st = set_elements (l1 ++ l2 ++ [el]) st) as Htop
    by (by apply (moveLayer_top_middle st id l1 el l2)).
  assert (bottom st = set_elements (el :: l1 ++ l2) st) as Hbot
    by (by apply (moveLayer_bottom_middle st id l1 el l2)).
  assert (∀ l, top (set_elements ((l1 ++ l2) ++ [el]) (set_elements l st))
               = set_elements (l1 ++ l2 ++ [el]) st) as Htop_last.
  { intros l. unfold top.
    rewrite (moveLayer_top_middle _ id (l1 ++ l2) el []); try done.
    by rewrite app_nil_l, <- app_assoc. }
  assert (∀ l, bottom (set_elements ([] ++ el :: l1 ++ l2) (set_elements l st))
               = set_elements (el :: l1 ++ l2) st) as Hbot_first.
  { intros l. unfold bottom.
    by rewrite (moveLayer_bottom_middle _ id [] el (l1 ++ l2)). }
  assert (∀ l, bottom (set_elements ((l1 ++ l2) ++ [el]) (set_elements l st))
               = set_elements (el :: l1 ++ l2) st) as Hbot_last.
  { intros l. unfold bottom.
    rewrite (moveLayer_bottom_middle _ id (l1 ++ l2) el []); try done.
    by rewrite app_nil_r. }
  assert (∀ l, top (set_elements ([] ++ el :: l1 ++ l2) (set_elements l st))
               = set_elements (l1 ++ l2 ++ [el]) st) as Htop_first.
  { intros l. unfold top.
    rewrite (moveLayer_top_middle _ id [] el (l1 ++ l2)); try done.
    by rewrite app_nil_l, <- app_assoc. }
  rewrite Htop, Hbot. cbn [elements set_elements].
  rewrite Hels, <- Hlen, delete_middle.
  repeat split.
  - by rewrite <- app_assoc.
  - rewrite <- (set_elements_twice (l1 ++ l2 ++ [el]) (elements st) st).
    rewrite app_assoc. rewrite Htop_last. by rewrite <- app_assoc.
  - rewrite <- (set_elements_twice (el :: l1 ++ l2) (elements st) st).
    by rewrite <- (Hbot_first (elements st)) at 2.
  - rewrite <- (set_elements_twice (l1 ++ l2 ++ [el]) (elements st) st).
    rewrite app_assoc. by rewrite Hbot_last.
  - rewrite <- (set_elements_twice (el :: l1 ++ l2) (elements st) st).
    change (el :: l1 ++ l2) with ([] ++ el :: l1 ++ l2) at 1.
    by rewrite Htop_first.
Qed.

Lemma moveLayer_top_bottom_witness :
  let top := moveLayer Direction.top in
  let bottom := moveLayer Direction.bottom in
  elements (top two_texts_first_selected)
    = delete 0%nat (elements two_texts_first_selected) ++ [Text first_text]
  ∧ elements (bottom two_texts_first_selected)
    = Text first_text :: delete 0%nat (elements two_texts_first_selected)
  ∧ top (top two_texts_first_selected) = top two_texts_first_selected
  ∧ bottom (bottom two_texts_first_selected) = bottom two_texts_first_selected
  ∧ bottom (top two_texts_first_selected) = bottom two_texts_first_selected
  ∧ top (bottom two_texts_first_selected) = top two_texts_first_selected.
Proof.
  apply (moveLayer_top_bottom two_texts_first_selected "1" 0%nat (Text first_text)).
  - apply (bool_decide_unpack _). vm_compute. exact I.
  - repeat split; discriminate.
  - reflexivity.
Defined.

(** ** Dragging and rotating *)

(** The element [el0] moved by ([dx], [dy]), and turned by half a degree per
    pixel of [dx]. *)
Definition dragged (el0 : EditorElement) (dx dy : Q) : EditorElement :=
  el_set_base
    (BaseElement.set_xy (BaseElement.x (el_base el0) + dx) (BaseElement.y (el_base el0) + dy)
       (el_base el0))
    el0.

Definition rotated (el0 : EditorElement) (dx : Q) : EditorElement :=
  el_set_base
    (BaseElement.set_rotation (BaseElement.rotation (el_base el0) + dx * 0.5) (el_base el0))
    el0.

(** [el] is [el0] up to its position, or up to its rotation. *)
Definition same_but_xy (el0 el : EditorElement) : Prop :=
  ∃ a b, el = el_set_base (BaseElement.set_xy a b (el_base el0)) el0.

Definition same_but_rotation (el0 el : EditorElement) : Prop :=
  ∃ r, el = el_set_base (BaseElement.set_rotation r (el_base el0)) el0.

Lemma same_but_xy_refl el0 : same_but_xy el0 el0.
Proof.
  exists (BaseElement.x (el_base el0)), (BaseElement.y (el_base el0)).
  by destruct el0 as [[[]]|[[]]|[[]]].
Qed.

Lemma same_but_rotation_refl el0 : same_but_rotation el0 el0.
Proof.
  exists (BaseElement.rotation (el_base el0)). by destruct el0 as [[[]]|[[]]|[[]]].
Qed.

Lemma dragElement_snapshot el0 el dx dy :
  same_but_xy el0 el → dragElement (SnapElement el0) dx dy el = Some (dragged el0 dx dy).
Proof. intros (a & b & ->). by destruct el0 as [[[]]|[[]]|[[]]]. Qed.

Lemma rotateElement_snapshot el0 el dx :
  same_but_rotation el0 el → rotateElement (SnapElement el0) dx el = Some (rotated el0 dx).
Proof. intros (r & ->). by destruct el0 as [[[]]|[[]]|[[]]]. Qed.

(** A gesture on one element, in general: [sim] relates the element to its
    snapshot, [target] is what a move by ([dx], [dy]) makes of the
    snapshot. *)
Section ElementGesture.
Variable sim : EditorElement → EditorElement → Prop.
Variable target : EditorElement → Q → Q → EditorElement.
Variable holding : EditorState → Prop.

Hypothesis sim_id : ∀ el0 el, sim el0 el → el_id el = el_id el0.
Hypothesis sim_target : ∀ el0 dx dy, sim el0 (target el0 dx dy).
Hypothesis holding_frame : ∀ st l, holding st → holding (set_elements l st).
Hypothesis holding_moving : ∀ st, holding st →
  negb (isDragging st) && negb (isResizing st) && negb (isRotating st)
  && negb (bool_decide (is_Some (isCroppingDrag st))) = false.
Hypothesis holding_step : ∀ st el0 el dx dy,
  holding st → initialElementState st = SnapElement el0 → sim el0 el →
  gestureElement st dx dy el = Some (target el0 dx dy).

Lemma handleMouseMove_holding p0 id el0 e st l1 el l2 :
  holding st → selectedId st = Some id → dragStart st = p0 →
  initialElementState st = SnapElement el0 →
  id ≠ EmptyString → id ≠ "bg" →
  elements st = l1 ++ el :: l2 →
  Forall (λ e, el_id e ≠ id) l1 → Forall (λ e, el_id e ≠ id) l2 →
  el_id el0 = id → sim el0 el →
  handleMouseMove e st
  = Some (set_elements
            (l1 ++ target el0 (Point.x e - Point.x p0) (Point.y e - Point.y p0) :: l2) st).
Proof using sim_id holding_moving holding_step.
  intros Hh Hsel Hds Hsnap Hne Hbg Hels Hl1 Hl2 Hid0 Hsim.
  unfold handleMouseMove. rewrite (holding_moving _ Hh), Hsel.
  unfold falsy. rewrite (bool_decide_eq_false_2 _ Hne).
  rewrite bool_decide_eq_false_2 by congruence.
  rewrite Hels, Hds.
  rewrite (mapM_selected_middle _ id l1 el l2
             (target el0 (Point.x e - Point.x p0) (Point.y e - Point.y p0))); try done.
  - by rewrite (sim_id _ _ Hsim).
  - by apply holding_step.
Qed.

Lemma pointerMoves_holding p0 id el0 l1 l2 p moves : ∀ st el,
  holding st → selectedId st = Some id → dragStart st = p0 →
  initialElementState st = SnapElement el0 →
  id ≠ EmptyString → id ≠ "bg" →
  elements st = l1 ++ el :: l2 →
  Forall (λ e, el_id e ≠ id) l1 → Forall (λ e, el_id e ≠ id) l2 →
  el_id el0 = id → sim el0 el →
  ∃ st', pointerMoves (moves ++ [p]) st = Some st'
         ∧ elements st'
           = l1 ++ target el0 (Point.x p - Point.x p0) (Point.y p - Point.y p0) :: l2.
Proof using sim_id sim_target holding_frame holding_moving holding_step.
  induction moves as [|e moves IH];
    intros st el Hh Hsel Hds Hsnap Hne Hbg Hels Hl1 Hl2 Hid0 Hsim;
    cbn [app pointerMoves];
    rewrite (handleMouseMove_holding p0 id el0 _ st l1 el l2) by done;
    cbn [mbind option_bind].
  - by eexists.
  - eapply IH; try done. by apply holding_frame.
Qed.
End ElementGesture.

Definition dragging (st : EditorState) : Prop :=
  isCroppingDrag st = None ∧ isDragging st = true.

Definition rotating (st : EditorState) : Prop :=
  isCroppingDrag st = None ∧ isDragging st = false ∧ isResizing st = false
  ∧ isRotating st = true.

(** The state right after an effective pointer-down on an element. *)
Lemma handleMouseDown_element p0 id type st i el0 :
  isErasing st = false →
  (isCropping st = true → selectedId st = Some id) →
  id ≠ "bg" →
  find_by_id id (elements st) = Some (i, el0) →
  handleMouseDown p0 id type None st
  = match type with
    | Gesture.move => set_isDragging true
    | Gesture.resize => set_isResizing true
    | Gesture.rotate => set_isRotating true
    | Gesture.crop => λ s, s
    end (set_initialElementState (SnapElement el0)
           (set_dragStart p0 (set_selectedId (Some id) st))).
Proof.
  intros Her Hcrop Hbg Hfind. unfold handleMouseDown. rewrite Her.
  assert (isCropping st && negb (is_selected (selectedId st) id) = false) as ->.
  { destruct (isCropping st); [|done]. unfold is_selected.
    by rewrite bool_decide_eq_true_2 by auto. }
  rewrite (bool_decide_eq_false_2 _ Hbg), Hfind. by destruct type.
Qed.

(** X7.  A drag ends where the pointer is: after any run of pointer-moves
    the element sits at its pre-gesture position plus the distance of the
    last pointer position from the pointer-down, whatever the intermediate
    positions were, and no other element has moved. *)
Theorem drag_gesture_from_snapshot
    (st : EditorState) (p0 p : Point.t) (id : string) (moves : list Point.t)
    (i : nat) (el0 : EditorElement) :
  isErasing st = false →
  (isCropping st = true → selectedId st = Some id) →
  isCroppingDrag st = None →
  id ≠ EmptyString → id ≠ "bg" →
  NoDup (el_id <$> elements st) →
  find_by_id id (elements st) = Some (i, el0) →
  ∃ st', pointerMoves (moves ++ [p]) (handleMouseDown p0 id Gesture.move None st) = Some st'
         ∧ elements st'
           = <[i := dragged el0 (Point.x p - Point.x p0) (Point.y p - Point.y p0)]>
               (elements st).
Proof.
  intros Her Hcrop Hcd Hne Hbg Hnd Hfind.
  destruct (find_by_id_split _ _ _ _ Hfind) as (l1 & l2 & Hels & Hlen & Hid & Hl1).
  pose proof Hnd as Hnd'. rewrite Hels in Hnd'.
  apply NoDup_ids_others in Hnd' as [_ Hl2]. rewrite Hid in Hl2.
  replace (<[i := dragged el0 (Point.x p - Point.x p0) (Point.y p - Point.y p0)]>
             (elements st))
    with (l1 ++ dragged el0 (Point.x p - Point.x p0) (Point.y p - Point.y p0) :: l2)
    by (rewrite Hels; subst i; by rewrite insert_middle).
  rewrite (handleMouseDown_element p0 id Gesture.move st i el0) by done.
  assert (∀ e0 e1, same_but_xy e0 e1 → el_id e1 = el_id e0) as H1.
  { intros e0 e1 (a & b & ->). by rewrite el_id_set_base. }
  assert (∀ e0 dx dy, same_but_xy e0 (dragged e0 dx dy)) as H2.
  { intros e0 dx dy. by eexists _, _. }
  assert (∀ s l, dragging s → dragging (set_elements l s)) as H3 by done.
  assert (∀ s, dragging s →
               negb (isDragging s) && negb (isResizing s) && negb (isRotating s)
               && negb (bool_decide (is_Some (isCroppingDrag s))) = false) as H4.
  { intros s [_ Hd]. by rewrite Hd. }
  assert (∀ s e0 e1 dx dy, dragging s → initialElementState s = SnapElement e0 →
                           same_but_xy e0 e1 →
                           gestureElement s dx dy e1 = Some (dragged e0 dx dy)) as H5.
  { intros s e0 e1 dx dy [Hc Hd] Hs Hsim. unfold gestureElement.
    rewrite Hc, Hd, Hs. by apply dragElement_snapshot. }
  apply (pointerMoves_holding same_but_xy dragged dragging H1 H2 H3 H4 H5
           p0 id el0 l1 l2 p moves _ el0); try done.
  apply same_but_xy_refl.
Qed.

Lemma drag_gesture_from_snapshot_witness :
  ∃ st', pointerMoves ([Point.mk 30 0] ++ [Point.mk 50 7])
           (handleMouseDown (Point.mk 0 0) "1" Gesture.move None one_image) = Some st'
         ∧ elements st'
           = <[0%nat := dragged one_image_el (Point.x (Point.mk 50 7) - Point.x (Point.mk 0 0))
                          (Point.y (Point.mk 50 7) - Point.y (Point.mk 0 0))]>
               (elements one_image).
Proof.
  apply (drag_gesture_from_snapshot one_image (Point.mk 0 0) (Point.mk 50 7) "1"
           [Point.mk 30 0] 0 one_image_el).
  - reflexivity.
  - intros H. discriminate H.
  - reflexivity.
  - discriminate.
  - discriminate.
  - apply (bool_decide_unpack _). vm_compute. exact I.
  - reflexivity.
Defined.

(** X8.  The rotate handle maps horizontal distance to degrees: after any
    run of pointer-moves the rotation is the pre-gesture rotation plus half
    the horizontal distance of the last pointer position from the
    pointer-down; the vertical movement plays no part and no other element
    is touched. *)
Theorem rotate_gesture_from_snapshot
    (st : EditorState) (p0 p : Point.t) (id : string) (moves : list Point.t)
    (i : nat) (el0 : EditorElement) :
  isErasing st = false →
  (isCropping st = true → selectedId st = Some id) →
  isCroppingDrag st = None → isDragging st = false → isResizing st = false →
  id ≠ EmptyString → id ≠ "bg" →
  NoDup (el_id <$> elements st) →
  find_by_id id (elements st) = Some (i, el0) →
  ∃ st', pointerMoves (moves ++ [p]) (handleMouseDown p0 id Gesture.rotate None st) = Some st'
         ∧ elements st' = <[i := rotated el0 (Point.x p - Point.x p0)]> (elements st).
Proof.
  intros Her Hcrop Hcd Hdr Hrs Hne Hbg Hnd Hfind.
  destruct (find_by_id_split _ _ _ _ Hfind) as (l1 & l2 & Hels & Hlen & Hid & Hl1).
  pose proof Hnd as Hnd'. rewrite Hels in Hnd'.
  apply NoDup_ids_others in Hnd' as [_ Hl2]. rewrite Hid in Hl2.
  replace (<[i := rotated el0 (Point.x p - Point.x p0)]> (elements st))
    with (l1 ++ rotated el0 (Point.x p - Point.x p0) :: l2)
    by (rewrite Hels; subst i; by rewrite insert_middle).
  rewrite (handleMouseDown_element p0 id Gesture.rotate st i el0) by done.
  assert (∀ e0 e1, same_but_rotation e0 e1 → el_id e1 = el_id e0) as H1.
  { intros e0 e1 (r & ->). by rewrite el_id_set_base. }
  assert (∀ e0 (dx dy : Q), same_but_rotation e0 (rotated e0 dx)) as H2.
  { intros e0 dx dy. by eexists. }
  assert (∀ s l, rotating s → rotating (set_elements l s)) as H3 by done.
  assert (∀ s, rotating s →
               negb (isDragging s) && negb (isResizing s) && negb (isRotating s)
               && negb (bool_decide (is_Some (isCroppingDrag s))) = false) as H4.
  { intros s (_ & _ & _ & Hr). rewrite Hr. by rewrite andb_false_r. }
  assert (∀ s e0 e1 dx (dy : Q), rotating s → initialElementState s = SnapElement e0 →
                           same_but_rotation e0 e1 →
                           gestureElement s dx dy e1 = Some (rotated e0 dx)) as H5.
  { intros s e0 e1 dx dy (Hc & Hd & Hz & Hr) Hs Hsim. unfold gestureElement.
    rewrite Hc, Hd, Hz, Hr, Hs. by apply rotateElement_snapshot. }
  apply (pointerMoves_holding same_but_rotation (λ e dx _, rotated e dx) rotating
           H1 H2 H3 H4 H5 p0 id el0 l1 l2 p moves _ el0); try done.
  apply same_but_rotation_refl.
Qed.

Lemma rotate_gesture_from_snapshot_witness :
  ∃ st', pointerMoves ([Point.mk 30 0] ++ [Point.mk 50 7])
           (handleMouseDown (Point.mk 0 0) "1" Gesture.rotate None one_image) = Some st'
         ∧ elements st'
           = <[0%nat := rotated one_image_el (Point.x (Point.mk 50 7) - Point.x (Point.mk 0 0))]>
               (elements one_image).
Proof.
  apply (rotate_gesture_from_snapshot one_image (Point.mk 0 0) (Point.mk 50 7) "1"
           [Point.mk 30 0] 0 one_image_el).
  - reflexivity.
  - intros H. discriminate H.
  - reflexivity.
  - reflexivity.
  - reflexivity.
  - discriminate.
  - discriminate.
  - apply (bool_decide_unpack _). vm_compute. exact I.
  - reflexivity.
Defined.

(** ** Panning the background image *)

(** The controls while the background image is being dragged, the gesture
    having started at [p0] on the image record [img0]. *)
Definition panning (p0 : Point.t) (img0 : BackgroundImage.t) (st : EditorState) : Prop :=
  selectedId st = Some "bg"
  ∧ isDragging st = true
  ∧ dragStart st = p0
  ∧ initialElementState st = SnapBackground img0.

Lemma handleMouseMove_panning p0 img0 e st a b color gradient :
  panning p0 img0 st →
  background st
  = BackgroundState.mk bg_image
      (Some (BackgroundImage.mk (BackgroundImage.src img0) a b (BackgroundImage.scale img0)))
      color gradient →
  handleMouseMove e st
  = Some (set_background
            (BackgroundState.mk bg_image
               (Some (BackgroundImage.mk (BackgroundImage.src img0)
                        (BackgroundImage.x img0 + (Point.x e - Point.x p0))
                        (BackgroundImage.y img0 + (Point.y e - Point.y p0))
                        (BackgroundImage.scale img0)))
               color gradient)
            st).
Proof.
  intros (Hsel & Hdr & Hds & Hsnap) Hbg. unfold handleMouseMove.
  rewrite Hdr, Hsel, Hbg, Hds, Hsnap. cbn [negb andb falsy].
  rewrite bool_decide_eq_false_2 by discriminate.
  by rewrite bool_decide_eq_true_2.
Qed.

Lemma pointerMoves_panning p0 img0 p color gradient moves : ∀ st a b,
  panning p0 img0 st →
  background st
  = BackgroundState.mk bg_image
      (Some (BackgroundImage.mk (BackgroundImage.src img0) a b (BackgroundImage.scale img0)))
      color gradient →
  ∃ st', pointerMoves (moves ++ [p]) st = Some st'
         ∧ background st'
           = BackgroundState.mk bg_image
               (Some (BackgroundImage.mk (BackgroundImage.src img0)
                        (BackgroundImage.x img0 + (Point.x p - Point.x p0))
                        (BackgroundImage.y img0 + (Point.y p - Point.y p0))
                        (BackgroundImage.scale img0)))
               color gradient
         ∧ elements st' = elements st.
Proof.
  induction moves as [|e moves IH]; intros st a b Hpan Hbg; cbn [app pointerMoves];
    rewrite (handleMouseMove_panning p0 img0 _ st a b color gradient) by done;
    cbn [mbind option_bind].
  - by eexists.
  - match goal with
    | |- ∃ st', pointerMoves _ ?s = _ ∧ _ =>
        destruct (IH s (BackgroundImage.x img0 + (Point.x e - Point.x p0))%Q
                    (BackgroundImage.y img0 + (Point.y e - Point.y p0))%Q Hpan eq_refl)
          as (st' & Hrun & Hbg' & Hels)
    end.
    exists st'. by rewrite Hrun, Hbg', Hels.
Qed.

(** X9.  Dragging the background image pans it: after any run of
    pointer-moves its offset is the pre-gesture offset plus the distance of
    the last pointer position from the pointer-down; its source and scale,
    the other background parameters and all elements stay as they were. *)
Theorem background_pan_gesture
    (st : EditorState) (p0 p : Point.t) (moves : list Point.t) (img0 : BackgroundImage.t) :
  isErasing st = false →
  (isCropping st = true → selectedId st = Some "bg") →
  BackgroundState.type (background st) = bg_image →
  BackgroundState.image (background st) = Some img0 →
  ∃ st', pointerMoves (moves ++ [p]) (handleMouseDown p0 "bg" Gesture.move None st) = Some st'
         ∧ background st'
           = BackgroundState.mk bg_image
               (Some (BackgroundImage.mk (BackgroundImage.src img0)
                        (BackgroundImage.x img0 + (Point.x p - Point.x p0))
                        (BackgroundImage.y img0 + (Point.y p - Point.y p0))
                        (BackgroundImage.scale img0)))
               (BackgroundState.color (background st))
               (BackgroundState.gradient (background st))
         ∧ elements st' = elements st.
Proof.
  intros Her Hcrop Hty Himg.
  assert (handleMouseDown p0 "bg" Gesture.move None st
          = set_isDragging true
              (set_initialElementState (SnapBackground img0)
                 (set_dragStart p0 (set_selectedId (Some "bg") st)))) as ->.
  { unfold handleMouseDown. rewrite Her.
    assert (isCropping st && negb (is_selected (selectedId st) "bg") = false) as ->.
    { destruct (isCropping st); [|done]. unfold is_selected.
      by rewrite bool_decide_eq_true_2 by auto. }
    rewrite bool_decide_eq_true_2 by done. by rewrite Hty, Himg. }
  destruct (pointerMoves_panning p0 img0 p (BackgroundState.color (background st))
              (BackgroundState.gradient (background st)) moves
              (set_isDragging true
                 (set_initialElementState (SnapBackground img0)
                    (set_dragStart p0 (set_selectedId (Some "bg") st))))
              (BackgroundImage.x img0) (BackgroundImage.y img0))
    as (st' & Hrun & Hbg & Hels); [done| |by exists st'].
  cbn [background set_isDragging set_initialElementState set_dragStart set_selectedId].
  destruct (background st) as [ty im co gr]. cbn in *. subst. by destruct img0.
Qed.

Lemma background_pan_gesture_witness :
  let st := handleBackgroundUpload (Some sample_file) initialState in
  let img0 := BackgroundImage.mk (dataURL "image/png" "iVBORw0KGgo=") 0 0 1 in
  ∃ st', pointerMoves ([Point.mk 3 4] ++ [Point.mk 30 40])
           (handleMouseDown (Point.mk 10 10) "bg" Gesture.move None st) = Some st'
         ∧ background st'
           = BackgroundState.mk bg_image
               (Some (BackgroundImage.mk (BackgroundImage.src img0)
                        (BackgroundImage.x img0 + (Point.x (Point.mk 30 40) - Point.x (Point.mk 10 10)))
                        (BackgroundImage.y img0 + (Point.y (Point.mk 30 40) - Point.y (Point.mk 10 10)))
                        (BackgroundImage.scale img0)))
               (BackgroundState.color (background st))
               (BackgroundState.gradient (background st))
         ∧ elements st' = elements st.
Proof.
  intros st img0.
  apply (background_pan_gesture st (Point.mk 10 10) (Point.mk 30 40) [Point.mk 3 4] img0).
  - reflexivity.
  - intros H. discriminate H.
  - reflexivity.
  - reflexivity.
Defined.

(** ** Releasing the pointer *)

Lemma handleMouseMove_idle e st :
  isDragging st = false → isResizing st = false → isRotating st = false →
  isCroppingDrag st = None →
  handleMouseMove e st = Some st.
Proof.
  intros Hd Hr Ho Hc. unfold handleMouseMove. rewrite Hd, Hr, Ho, Hc.
  by rewrite bool_decide_eq_false_2 by (by intros [? ?]).
Qed.

(** X10.  Releasing the pointer commits the gesture as it stands: the scene
    and the selection are those of the last move, and pointer-moves that
    follow, up to the next pointer-down, change nothing. *)
Theorem pointer_up_ends_gesture (st : EditorState) (moves : list Point.t) :
  scene (handleMouseUp st) = scene st
  ∧ selectedId (handleMouseUp st) = selectedId st
  ∧ pointerMoves moves (handleMouseUp st) = Some (handleMouseUp st).
Proof.
  repeat split.
  induction moves as [|e moves IH]; [done|]. cbn [pointerMoves].
  rewrite handleMouseMove_idle by done. exact IH.
Qed.

(** ** Adding content, continued *)

Lemma aspectRatio_ge_1 (w h : Z) :
  (0 < h)%Z → Qgeb (inject_Z w / inject_Z h) 1 = bool_decide (h ≤ w)%Z.
Proof.
  intros Hh. unfold Qgeb.
  assert (0 < inject_Z h)%Q as Hq by (change 0%Q with (inject_Z 0); by rewrite <- Zlt_Qlt).
  case_bool_decide as Hle.
  - apply Qle_bool_iff. apply Qle_shift_div_l; [done|].
    rewrite Qmult_1_l. by rewrite <- Zle_Qle.
  - apply not_true_is_false. rewrite Qle_bool_iff. intros Hq1. apply Hle.
    assert (inject_Z w / inject_Z h < 1)%Q as Hlt; [|lra].
    apply Qlt_shift_div_r; [done|]. rewrite Qmult_1_l. rewrite <- Zlt_Qlt. lia.
Qed.

(** X11.  A new image is fitted into a 200 by 200 box and centred on the
    canvas: a landscape or square image gets width 200 and a height of at
    most 200, a portrait image height 200 and a width below 200; its stored
    aspect ratio is the intrinsic one, and it is appended after the elements
    that were there. *)
Theorem new_image_fits_box (st : EditorState) (now : N) (src : string) (img : HTMLImage.t) :
  (0 < HTMLImage.width img)%Z → (0 < HTMLImage.height img)%Z →
  ∃ i, elements (addImageElement now src (Some img) st) = elements st ++ [Image i]
       ∧ ImageElement.src i = src
       ∧ ImageElement.aspectRatio i
         = (inject_Z (HTMLImage.width img) / inject_Z (HTMLImage.height img))%Q
       ∧ BaseElement.x (ImageElement.base i) = (Dimensions.width (canvasDimensions st) / 2)%Q
       ∧ BaseElement.y (ImageElement.base i) = (Dimensions.height (canvasDimensions st) / 2)%Q
       ∧ if bool_decide (HTMLImage.height img ≤ HTMLImage.width img)%Z
         then ImageElement.width i = 200%Q
              ∧ (0 < ImageElement.height i ∧ ImageElement.height i <= 200)%Q
         else ImageElement.height i = 200%Q
              ∧ (0 < ImageElement.width i ∧ ImageElement.width i < 200)%Q.
Proof.
  intros Hw Hh. eexists. split; [reflexivity|].
  cbn [ImageElement.src ImageElement.aspectRatio ImageElement.base ImageElement.width
       ImageElement.height BaseElement.x BaseElement.y].
  repeat split.
  rewrite aspectRatio_ge_1 by done.
  set (ar := (inject_Z (HTMLImage.width img) / inject_Z (HTMLImage.height img))%Q).
  assert (0 < inject_Z (HTMLImage.height img))%Q as Hqh
    by (change 0%Q with (inject_Z 0); by rewrite <- Zlt_Qlt).
  assert (0 < inject_Z (HTMLImage.width img))%Q as Hqw
    by (change 0%Q with (inject_Z 0); by rewrite <- Zlt_Qlt).
  assert (0 < ar)%Q as Har.
  { unfold ar. apply Qlt_shift_div_l; [done|]. by rewrite Qmult_0_l. }
  case_bool_decide as Hle.
  - split; [done|].
    assert (1 <= ar)%Q as H1.
    { unfold ar. apply Qle_shift_div_l; [done|]. rewrite Qmult_1_l. by rewrite <- Zle_Qle. }
    split.
    + apply Qlt_shift_div_l; [done|]. lra.
    + apply Qle_shift_div_r; [done|]. lra.
  - split; [done|].
    assert (ar < 1)%Q as H1.
    { unfold ar. apply Qlt_shift_div_r; [done|]. rewrite Qmult_1_l.
      rewrite <- Zlt_Qlt. lia. }
    split; lra.
Qed.

Lemma new_image_fits_box_witness :
  ∃ i, elements (addImageElement 1 sample_src (Some (HTMLImage.mk sample_src 400 200)) initialState)
       = elements initialState ++ [Image i]
       ∧ ImageElement.src i = sample_src
       ∧ ImageElement.aspectRatio i = (inject_Z 400 / inject_Z 200)%Q
       ∧ BaseElement.x (ImageElement.base i) = (Dimensions.width (canvasDimensions initialState) / 2)%Q
       ∧ BaseElement.y (ImageElement.base i) = (Dimensions.height (canvasDimensions initialState) / 2)%Q
       ∧ if bool_decide (200 ≤ 400)%Z
         then ImageElement.width i = 200%Q
              ∧ (0 < ImageElement.height i ∧ ImageElement.height i <= 200)%Q
         else ImageElement.height i = 200%Q
              ∧ (0 < ImageElement.width i ∧ ImageElement.width i < 200)%Q.
Proof.
  apply (new_image_fits_box initialState 1 sample_src (HTMLImage.mk sample_src 400 200));
    reflexivity.
Defined.

(** After [st'] appended [el] to the elements of [st] and selected its id. *)
Definition appended_and_selected (st st' : EditorState) (el : EditorElement) : Prop :=
  elements st' = elements st ++ [el] ∧ selectedId st' = Some (el_id el).

Lemma appended_selection st st' el :
  appended_and_selected st st' el →
  (el_id el ∉ (el_id <$> elements st) →
   find_selected (selectedId st') (elements st') = Some (length (elements st), el))
  ∧ (∀ i old, find_by_id (el_id el) (elements st) = Some (i, old) →
       find_selected (selectedId st') (elements st') = Some (i, old)).
Proof.
  intros [Hels Hsel]. rewrite Hsel, Hels. cbn [find_selected]. split.
  - intros Hfresh. apply find_by_id_middle; [|done].
    apply Forall_forall. intros e He Heq. apply Hfresh. rewrite <- Heq.
    by apply list_elem_of_fmap_2.
  - intros i old Hfind. unfold find_by_id in *. by apply list_find_app_l.
Qed.

(** X12.  The three constructors append the new element after the existing
    ones and select its id.  When the clock value is not an id in use, the
    selection is the new element, at the top of the stack; when it collides
    with the id of an element already there, the selection resolves to that
    older element. *)
Theorem added_element_is_selected (st : EditorState) (now : N) :
  ∀ st', (st' = addText now st
          ∨ (∃ shapeType, st' = addShape now shapeType st)
          ∨ (∃ src img, st' = addImageElement now src (Some img) st)) →
  ∃ el, el_id el = fresh_id now
        ∧ elements st' = elements st ++ [el]
        ∧ (fresh_id now ∉ (el_id <$> elements st) →
           find_selected (selectedId st') (elements st') = Some (length (elements st), el))
        ∧ (∀ i old, find_by_id (fresh_id now) (elements st) = Some (i, old) →
             find_selected (selectedId st') (elements st') = Some (i, old)).
Proof.
  intros st' Hst'.
  assert (∃ el, el_id el = fresh_id now ∧ appended_and_selected st st' el) as (el & Hid & Happ).
  { unfold appended_and_selected.
    destruct Hst' as [->|[[sh ->]|(src & img & ->)]];
      (eexists; split; [|split]; cycle 1; [reflexivity..]). }
  exists el. split; [done|]. split; [apply Happ|].
  rewrite <- Hid. by apply appended_selection.
Qed.

Lemma added_element_is_selected_witness :
  ∃ el, el_id el = fresh_id 3
        ∧ elements (addShape 3 circle two_texts) = elements two_texts ++ [el]
        ∧ find_selected (selectedId (addShape 3 circle two_texts))
            (elements (addShape 3 circle two_texts))
          = Some (length (elements two_texts), el).
Proof.
  destruct (added_element_is_selected two_texts 3 (addShape 3 circle two_texts))
    as (el & Hid & Hels & Hfresh & _); [right; left; by eexists|].
  exists el. repeat split; [done..|]. apply Hfresh.
  apply (bool_decide_unpack _). vm_compute. exact I.
Defined.

(** ** Pasting images *)

(** An entry of [clipboardData.items]: its MIME type and [getAsFile()]. *)
Module ClipboardItem.
Record t := mk { type : string; file : option File.t }.
End ClipboardItem.

(** [addImageElement] as a closure: [captured] is the state of the render
    that created the function, whose [elements] and [canvasDimensions] the
    body of [img.onload] reads, while the state setters act on the current
    state [st]. *)
Definition addImageElement_from (captured : EditorState) (now : N) (src : string)
    (img : option HTMLImage.t) (st : EditorState) : EditorState :=
  match img with
  | None => st
  | Some img =>
      let aspectRatio := (inject_Z (HTMLImage.width img) / inject_Z (HTMLImage.height img))%Q in
      let baseSize := 200%Q in
      let width := if Qgeb aspectRatio 1 then baseSize else (baseSize * aspectRatio)%Q in
      let height := if Qgeb aspectRatio 1 then (baseSize / aspectRatio)%Q else baseSize in
      let newEl :=
        Image (ImageElement.mk
          (BaseElement.mk (fresh_id now)
             (Dimensions.width (canvasDimensions captured) / 2)%Q
             (Dimensions.height (canvasDimensions captured) / 2)%Q
             0
             (length (elements captured))
             (Some (CropData.mk 0 0 0 0))
             (Some (BorderData.mk 0 solid "#000000"))
             (Some (ShadowData.mk "#000000" 0.5 0 0 0))
             None)
          src width height aspectRatio (Some 0%Q)) in
      set_selectedId (Some (el_id newEl))
        (set_elements (elements captured ++ [newEl]) st)
  end.

(** Called from a handler of the current render, the closure is
    [addImageElement]. *)
Lemma addImageElement_from_current now src img st :
  addImageElement_from st now src img st = addImageElement now src img st.
Proof. reflexivity. Qed.

(** [handlePaste]: the listener is installed once, by an effect with an
    empty dependency list, so the [addImageElement] it calls is the one of
    the first render, which captured [initialState].  Each item comes with
    the clock value and the decoding outcome of its image; a rejected
    [fileToBase64] ends the handler. *)
Fixpoint handlePaste (items : list (ClipboardItem.t * N * option HTMLImage.t))
    (st : EditorState) : EditorState :=
  match items with
  | [] => st
  | (item, now, img) :: rest =>
      if includes "image" (ClipboardItem.type item) then
        match ClipboardItem.file item with
        | Some file =>
            match File.base64 file with
            | Some base64 =>
                handlePaste rest
                  (addImageElement_from initialState now
                     (dataURL (File.type file) base64) img st)
            | None => st
            end
        | None => handlePaste rest st
        end
      else handlePaste rest st
  end.

(** The element a paste creates: at the centre of the initial 500 by 500
    canvas, with rank 0. *)
Definition pasted_element (el : EditorElement) : Prop :=
  ∃ i, el = Image i
       ∧ BaseElement.zIndex (ImageElement.base i) = 0%nat
       ∧ BaseElement.x (ImageElement.base i) = (500 / 2)%Q
       ∧ BaseElement.y (ImageElement.base i) = (500 / 2)%Q.

Lemma handlePaste_elements items : ∀ st,
  elements (handlePaste items st) = elements st
  ∨ ∃ el, elements (handlePaste items st) = [el] ∧ pasted_element el.
Proof.
  induction items as [|[[item now] img] rest IH]; intros st; cbn [handlePaste]; [by left|].
  destruct (includes _ _); [|apply IH].
  destruct (ClipboardItem.file item) as [file|]; [|apply IH].
  destruct (File.base64 file) as [base64|]; [|by left].
  destruct img as [img|]; [|apply IH].
  right. destruct (IH (addImageElement_from initialState now
                         (dataURL (File.type file) base64) (Some img) st)) as [->|H]; [|done].
  eexists. split; [reflexivity|]. by eexists.
Qed.

(** X13.  A paste does not add to the scene, it replaces it: the paste
    listener keeps the [addImageElement] of the first render, whose element
    list is empty, so once a pasted image has loaded the scene holds that
    image alone, at the centre of a 500 by 500 canvas with rank 0, whatever
    elements and canvas size there were. *)
Theorem paste_replaces_the_elements
    (st : EditorState) (item : ClipboardItem.t) (file : File.t) (base64 : string)
    (now : N) (img : HTMLImage.t) (rest : list (ClipboardItem.t * N * option HTMLImage.t)) :
  includes "image" (ClipboardItem.type item) = true →
  ClipboardItem.file item = Some file →
  File.base64 file = Some base64 →
  ∃ el, elements (handlePaste ((item, now, Some img) :: rest) st) = [el]
        ∧ pasted_element el.
Proof.
  intros Hty Hfile Hb64. cbn [handlePaste]. rewrite Hty, Hfile, Hb64.
  destruct (handlePaste_elements rest
              (addImageElement_from initialState now (dataURL (File.type file) base64)
                 (Some img) st)) as [->|H]; [|done].
  eexists. split; [reflexivity|]. by eexists.
Qed.

Lemma paste_replaces_the_elements_witness :
  length (elements two_texts) = 2%nat
  ∧ ∃ el, elements (handlePaste
                      [(ClipboardItem.mk "image/png" (Some sample_file), 9%N,
                        Some (HTMLImage.mk sample_src 400 200))] two_texts) = [el]
          ∧ pasted_element el.
Proof.
  split; [reflexivity|].
  by apply (paste_replaces_the_elements two_texts (ClipboardItem.mk "image/png" (Some sample_file))
              sample_file "iVBORw0KGgo=" 9 (HTMLImage.mk sample_src 400 200) []).
Defined.

(** ** Canvas size *)

(** The canvas aspect ratio selector: ['1:1' | '16:9' | '9:16']. *)
Module CanvasRatio.
Inductive t := square | wide | tall.
End CanvasRatio.

Definition set_canvasDimensions (v : Dimensions.t) (s : EditorState) : EditorState :=
  mkState (background s) (overlay s) (elements s) (selectedId s) v
    (isDragging s) (isResizing s) (isRotating s) (isCropping s) (isCroppingDrag s)
    (isErasing s) (eraserBrushSize s) (eraserHardness s) (eraserOpacity s)
    (eraserCanvas s) (eraserLastPos s) (dragStart s) (initialElementState s).

(** [updateSize] of the sizing effect: [container] is
    [containerRef.current.offsetWidth] ([None] while the ref is empty),
    [innerHeight] is [window.innerHeight]. *)
Definition updateSize (aspectRatio : CanvasRatio.t) (container : option Q) (innerHeight : Q)
    (st : EditorState) : EditorState :=
  match container with
  | None => st
  | Some containerWidth =>
      let width := containerWidth in
      let height := containerWidth in
      let height := match aspectRatio with
                    | CanvasRatio.wide => (width * (9 / 16))%Q
                    | _ => height
                    end in
      let '(width, height) :=
        match aspectRatio with
        | CanvasRatio.tall =>
            let maxHeight := (innerHeight * 0.7)%Q in
            let height := maxHeight in
            ((height * (9 / 16))%Q, height)
        | _ => (width, height)
        end in
      set_canvasDimensions (Dimensions.mk width height) st
  end.

(** The canvas always has the selected aspect ratio: square, 16 by 9
    from the container width, or 9 by 16 from 70 percent of the window
    height.  Resizing the canvas moves no element: positions are absolute
    canvas pixels and are not rescaled. *)
Lemma updateSize_keeps_ratio
    (aspectRatio : CanvasRatio.t) (containerWidth innerHeight : Q) (st : EditorState) :
  let st' := updateSize aspectRatio (Some containerWidth) innerHeight st in
  let w := Dimensions.width (canvasDimensions st') in
  let h := Dimensions.height (canvasDimensions st') in
  match aspectRatio with
  | CanvasRatio.square => w == h ∧ w == containerWidth
  | CanvasRatio.wide => w * 9 == h * 16 ∧ w == containerWidth
  | CanvasRatio.tall => w * 16 == h * 9 ∧ h == innerHeight * 0.7
  end%Q
  ∧ scene st' = scene st
  ∧ updateSize aspectRatio None innerHeight st = st.
Proof.
  destruct aspectRatio; cbn; repeat split; try reflexivity; field.
Qed.

(** ** Export, continued *)

#[local] Hint Resolve appends_await appends_setLineDashFor appends_renderText
  appends_renderImage appends_renderShape appends_renderElement
  appends_renderBackground appends_renderOverlay completes_setLineDashFor : render.

(** The trace of a completed export, piece by piece. *)
Lemma render_trace loadImage now st :
  background_well_formed (background st) →
  (handleDownload loadImage true now st).2
  = ops_of (renderBackground loadImage (Dimensions.width (canvasDimensions st))
              (Dimensions.height (canvasDimensions st)) (background st))
    ++ ops_of (renderOverlay (Dimensions.width (canvasDimensions st))
                 (Dimensions.height (canvasDimensions st)) (overlay st))
    ++ concat ((λ el, ops_of (renderElement loadImage el)) <$> elements st)
    ++ [LinkClick ("design-" +:+ pretty now +:+ ".png")].
Proof.
  intros Hbg. unfold handleDownload. cbn [negb].
  change ((render loadImage now st []).2) with (ops_of (render loadImage now st)).
  unfold render.
  assert (completes (for_of (elements st) (renderElement loadImage))) as Hforc.
  { apply completes_for_of; [auto with render|apply completes_renderElement]. }
  rewrite ops_of_seq; [|auto 20 with render|by apply completes_renderBackground].
  rewrite ops_of_seq; [|auto 20 with render|apply completes_renderOverlay].
  rewrite ops_of_seq; [|auto with render|done].
  rewrite ops_of_for_of; [done|auto with render|apply completes_renderElement].
Qed.

(** What a round does between its [save]/[translate]/[rotate] and its
    [restore]. *)
Definition element_body (loadImage : string → option HTMLImage.t) (el : EditorElement)
  : Render unit :=
  match el with
  | Text textEl => renderText textEl
  | Image imgEl => renderImage loadImage imgEl
  | Shape shapeEl => renderShape shapeEl
  end.

Lemma renderElement_trace loadImage el :
  ops_of (renderElement loadImage el)
  = Save
    :: Translate (BaseElement.x (el_base el)) (BaseElement.y (el_base el))
    :: Rotate (BaseElement.rotation (el_base el))
    :: ops_of (element_body loadImage el) ++ [Restore].
Proof.
  unfold renderElement.
  change (match el with
          | Text textEl => renderText textEl
          | Image imgEl => renderImage loadImage imgEl
          | Shape shapeEl => renderShape shapeEl
          end) with (element_body loadImage el).
  assert (appends (element_body loadImage el)) as Ha by (destruct el; cbn [element_body]; auto with render).
  assert (completes (element_body loadImage el)) as Hc.
  { destruct el; [apply completes_renderText|apply completes_renderImage
                 |apply completes_renderShape]. }
  rewrite ops_of_seq; [|auto 20 with render|apply completes_emit].
  rewrite ops_of_seq; [|auto 20 with render|apply completes_emit].
  rewrite ops_of_seq; [|auto 20 with render|apply completes_emit].
  rewrite ops_of_seq; [done|auto with render|done].
Qed.

(** The calls that touch the transform or the state stack. *)
Definition is_state_op (op : CanvasOp) : bool :=
  match op with
  | Save | Restore | Translate _ _ | Rotate _ => true
  | _ => false
  end.

(** The other calls of a trace. *)
Fixpoint paint (ops : list CanvasOp) : list CanvasOp :=
  match ops with
  | [] => []
  | op :: rest => if is_state_op op then paint rest else op :: paint rest
  end.

(** The 2D context as far as placement goes: [cur] is the list of
    [translate] and [rotate] calls in force, oldest first, and [stack] the
    transforms put aside by [save].  [restore] on an empty stack does
    nothing, as in the context. *)
Fixpoint run (cur : list CanvasOp) (stack : list (list CanvasOp)) (ops : list CanvasOp)
  : list CanvasOp * list (list CanvasOp) :=
  match ops with
  | [] => (cur, stack)
  | Save :: rest => run cur (cur :: stack) rest
  | Restore :: rest =>
      match stack with
      | [] => run cur [] rest
      | c :: s => run c s rest
      end
  | Translate x y :: rest => run (cur ++ [Translate x y]) stack rest
  | Rotate d :: rest => run (cur ++ [Rotate d]) stack rest
  | _ :: rest => run cur stack rest
  end.

(** Every other call of a trace, with the transform it is made under. *)
Fixpoint annotate (cur : list CanvasOp) (stack : list (list CanvasOp)) (ops : list CanvasOp)
  : list (list CanvasOp * CanvasOp) :=
  match ops with
  | [] => []
  | Save :: rest => annotate cur (cur :: stack) rest
  | Restore :: rest =>
      match stack with
      | [] => annotate cur [] rest
      | c :: s => annotate c s rest
      end
  | Translate x y :: rest => annotate (cur ++ [Translate x y]) stack rest
  | Rotate d :: rest => annotate (cur ++ [Rotate d]) stack rest
  | op :: rest => (cur, op) :: annotate cur stack rest
  end.

(** The placement of an element: its translation, then its rotation. *)
Definition placement (el : EditorElement) : list CanvasOp :=
  [ Translate (BaseElement.x (el_base el)) (BaseElement.y (el_base el));
    Rotate (BaseElement.rotation (el_base el)) ].

Lemma run_app a : ∀ cur stack b,
  run cur stack (a ++ b) = run (run cur stack a).1 (run cur stack a).2 b.
Proof.
  induction a as [|op a IH]; intros cur stack b; [done|].
  destruct op; cbn [app run]; try apply IH. destruct stack; apply IH.
Qed.

Lemma annotate_app a : ∀ cur stack b,
  annotate cur stack (a ++ b)
  = annotate cur stack a ++ annotate (run cur stack a).1 (run cur stack a).2 b.
Proof.
  induction a as [|op a IH]; intros cur stack b; [done|].
  destruct op; cbn [app run annotate]; rewrite ?IH; try done.
  by destruct stack.
Qed.

Lemma paint_app a b : paint (a ++ b) = paint a ++ paint b.
Proof.
  induction a as [|op a IH]; [done|]. cbn [app paint].
  destruct (is_state_op op); [done|]. cbn [app]. by rewrite IH.
Qed.

(** A piece of trace that leaves transform and stack as it found them and
    makes all its other calls under the transform it was entered with. *)
Definition scoped (ops : list CanvasOp) : Prop :=
  ∀ cur stack, run cur stack ops = (cur, stack)
               ∧ annotate cur stack ops = (λ op, (cur, op)) <$> paint ops.

Lemma scoped_app a b : scoped a → scoped b → scoped (a ++ b).
Proof.
  intros Ha Hb cur stack. destruct (Ha cur stack) as [Ra Aa], (Hb cur stack) as [Rb Ab].
  rewrite run_app, annotate_app, paint_app, fmap_app, Ra, Aa. cbn [fst snd].
  by rewrite Rb, Ab.
Qed.

Lemma scoped_flat ops : Forall (λ op, is_state_op op = false) ops → scoped ops.
Proof.
  induction 1 as [|op ops Hop _ IH]; intros cur stack; [done|].
  destruct (IH cur stack) as [R A].
  destruct op; try discriminate Hop; cbn [run annotate paint is_state_op fmap list_fmap];
    by rewrite ?R, ?A.
Qed.

Lemma paint_flat ops : Forall (λ op, is_state_op op = false) ops → paint ops = ops.
Proof.
  induction 1 as [|op ops Hop _ IH]; [done|]. cbn [paint]. by rewrite Hop, IH.
Qed.

(** The vertical position of line [i] of a text element, about its
    anchor. *)
Definition text_line_y (textEl : TextElement.t) (i : nat) : Q :=
  let lines := split_lines (TextElement.content textEl) in
  let lineHeight := (TextElement.fontSize textEl * 1.2)%Q in
  let totalHeight := (inject_Z (Z.of_nat (length lines)) * lineHeight)%Q in
  let startY := (- (totalHeight / 2) + lineHeight / 2)%Q in
  (startY + inject_Z (Z.of_nat i) * lineHeight)%Q.

Lemma forEach_from_trace (f : nat → Q) lines : ∀ i tr,
  forEach_from i lines (λ line j, emit (FillText line 0 (f j))) tr
  = (Some (), tr ++ imap (λ j line, FillText line 0 (f (i + j)%nat)) lines).
Proof.
  induction lines as [|l lines IH]; intros i tr.
  - cbn. by rewrite app_nil_r.
  - cbn [forEach_from imap]. unfold mbind, Render_bind, emit at 1.
    rewrite IH. rewrite <- app_assoc. cbn [app]. rewrite Nat.add_0_r.
    do 3 f_equal. apply imap_ext. intros j x _. cbn. f_equal. f_equal. lia.
Qed.

(** The calls of a text round before its lines. *)
Definition text_setup (textEl : TextElement.t) : list CanvasOp :=
  ops_of (match TextElement.shadowEnabled textEl, BaseElement.shadow (TextElement.base textEl) with
          | true, Some sh =>
              emit (SetShadowColor (hexToRgba (ShadowData.color sh) (ShadowData.opacity sh))) ;;
              emit (SetShadowBlur (ShadowData.blur sh)) ;;
              emit (SetShadowOffsetX (ShadowData.x sh)) ;;
              emit (SetShadowOffsetY (ShadowData.y sh))
          | _, _ => mret ()
          end)
  ++ [ SetFont (TextElement.fontSize textEl) (fontName (TextElement.fontFamily textEl));
       SetFillStyle (FillColor (TextElement.color textEl));
       SetTextAlign (TextElement.align textEl);
       SetTextBaseline "middle" ].

Lemma renderText_trace textEl :
  ops_of (renderText textEl)
  = text_setup textEl
    ++ imap (λ i line, FillText line 0 (text_line_y textEl i))
         (split_lines (TextElement.content textEl)).
Proof.
  unfold renderText, text_setup.
  rewrite ops_of_seq; [|auto 30 with render|].
  2:{ destruct (TextElement.shadowEnabled textEl), (BaseElement.shadow (TextElement.base textEl));
        auto 30 with render. }
  rewrite <- app_assoc. f_equal.
  do 4 (rewrite ops_of_seq; [|auto 30 with render|apply completes_emit]).
  unfold ops_of at 5. rewrite forEach_from_trace. reflexivity.
Qed.

Lemma flat_renderBackground loadImage cw ch bg :
  Forall (λ op, is_state_op op = false) (ops_of (renderBackground loadImage cw ch bg)).
Proof.
  unfold renderBackground.
  destruct (BackgroundState.type bg), (BackgroundState.gradient bg) as [g|],
    (BackgroundState.image bg) as [image|];
    try (cbn; by repeat constructor).
  1,2: unfold ops_of, mbind, Render_bind, try_catch, await_loadImage, emit;
       cbn [fst snd app]; destruct (loadImage _); cbn; by repeat constructor.
  all: destruct (Gradient.colors g !! 0%nat), (Gradient.colors g !! 1%nat);
    cbn; by repeat constructor.
Qed.

Lemma flat_renderOverlay cw ch ov :
  Forall (λ op, is_state_op op = false) (ops_of (renderOverlay cw ch ov)).
Proof.
  unfold renderOverlay. destruct (Qgtb _ _); cbn; by repeat constructor.
Qed.

Lemma flat_renderText textEl :
  Forall (λ op, is_state_op op = false) (ops_of (renderText textEl)).
Proof.
  rewrite renderText_trace. apply Forall_app. split.
  - unfold text_setup.
    destruct (TextElement.shadowEnabled textEl), (BaseElement.shadow (TextElement.base textEl));
      cbn; by repeat constructor.
  - apply Forall_lookup. intros i op. rewrite list_lookup_imap.
    destruct (_ !! i); [|done]. by intros [= <-].
Qed.

Lemma scoped_renderImage loadImage imgEl : scoped (ops_of (renderImage loadImage imgEl)).
Proof.
  unfold ops_of, renderImage, try_catch, await_loadImage, mbind, Render_bind.
  destruct (loadImage _); [|by intros cur stack].
  destruct (BaseElement.shadow (ImageElement.base imgEl)) as [sh|];
    [destruct (Qgtb (ShadowData.opacity sh) 0)|];
    (destruct (BaseElement.border (ImageElement.base imgEl)) as [bd|];
     [destruct (Qgtb (BorderData.width bd) 0); [destruct (BorderData.style bd)|]|]);
    by intros cur stack.
Qed.

Lemma flat_renderShape shapeEl :
  Forall (λ op, is_state_op op = false) (ops_of (renderShape shapeEl)).
Proof.
  unfold ops_of, renderShape, mbind, Render_bind.
  destruct (BaseElement.shadow (ShapeElement.base shapeEl)) as [sh|];
    [destruct (Qgtb (ShadowData.opacity sh) 0)|];
    destruct (ShapeElement.shapeType shapeEl);
    (destruct (BaseElement.border (ShapeElement.base shapeEl)) as [bd|];
     [destruct (Qgtb (BorderData.width bd) 0); [destruct (BorderData.style bd)|]|]);
    cbn; by repeat constructor.
Qed.

Lemma scoped_element_body loadImage el : scoped (ops_of (element_body loadImage el)).
Proof.
  destruct el as [t|i|s]; cbn [element_body].
  - apply scoped_flat, flat_renderText.
  - apply scoped_renderImage.
  - apply scoped_flat, flat_renderShape.
Qed.

(** One round, whatever follows it: its calls are made under the
    placement of its element, and the transform is back to what it was. *)
Lemma round_annotate loadImage el rest :
  annotate [] [] (ops_of (renderElement loadImage el) ++ rest)
  = ((λ op, (placement el, op)) <$> paint (ops_of (renderElement loadImage el)))
    ++ annotate [] [] rest.
Proof.
  rewrite renderElement_trace. cbn [app annotate paint is_state_op].
  rewrite <- app_assoc, annotate_app, paint_app.
  destruct (scoped_element_body loadImage el (placement el) [[]]) as [R A].
  unfold placement in R, A. rewrite R, A. cbn [fst snd app annotate paint is_state_op].
  by rewrite app_nil_r.
Qed.

(** X14.  In the export every element is drawn in its own frame: each call
    of an element's round is made under that element's translation and
    rotation and nothing else, whatever the other elements are and whether
    or not their images load; the background, the overlay and the download
    are under the identity transform. *)
Theorem export_places_each_element_alone
    (loadImage : string → option HTMLImage.t) (now : N) (st : EditorState) :
  background_well_formed (background st) →
  annotate [] [] (handleDownload loadImage true now st).2
  = ((λ op, ([], op)) <$>
       (ops_of (renderBackground loadImage (Dimensions.width (canvasDimensions st))
                  (Dimensions.height (canvasDimensions st)) (background st))
        ++ ops_of (renderOverlay (Dimensions.width (canvasDimensions st))
                     (Dimensions.height (canvasDimensions st)) (overlay st))))
    ++ concat ((λ el, (λ op, (placement el, op)) <$>
                        paint (ops_of (renderElement loadImage el))) <$> elements st)
    ++ [([], LinkClick ("design-" +:+ pretty now +:+ ".png"))].
Proof.
  intros Hbg. rewrite render_trace by done. rewrite app_assoc.
  set (head := _ ++ ops_of (renderOverlay _ _ _)).
  assert (Forall (λ op, is_state_op op = false) head) as Hflat.
  { apply Forall_app. split; [apply flat_renderBackground|apply flat_renderOverlay]. }
  rewrite annotate_app. destruct (scoped_flat head Hflat [] []) as [R A].
  rewrite R, A, (paint_flat head Hflat). cbn [fst snd]. f_equal.
  induction (elements st) as [|el l IH]; [done|].
  cbn [fmap list_fmap concat]. rewrite <- !app_assoc, round_annotate. by rewrite IH.
Qed.

Lemma export_places_each_element_alone_witness :
  let loadImage := λ _ : string, Some (HTMLImage.mk sample_src 400 200) in
  let st := addText 2 one_image in
  annotate [] [] (handleDownload loadImage true 7 st).2
  = ((λ op, ([], op)) <$>
       (ops_of (renderBackground loadImage (Dimensions.width (canvasDimensions st))
                  (Dimensions.height (canvasDimensions st)) (background st))
        ++ ops_of (renderOverlay (Dimensions.width (canvasDimensions st))
                     (Dimensions.height (canvasDimensions st)) (overlay st))))
    ++ concat ((λ el, (λ op, (placement el, op)) <$>
                        paint (ops_of (renderElement loadImage el))) <$> elements st)
    ++ [([], LinkClick ("design-" +:+ pretty 7%N +:+ ".png"))].
Proof.
  exact (export_places_each_element_alone
           (λ _, Some (HTMLImage.mk sample_src 400 200)) 7 (addText 2 one_image) I).
Defined.

(** The [fillText] calls of a trace: line, x and y. *)
Definition fillTexts (ops : list CanvasOp) : list (string * Q * Q) :=
  omap (λ op, match op with FillText line x y => Some (line, x, y) | _ => None end) ops.

Lemma fillTexts_lines (f : nat → Q) lines :
  fillTexts (imap (λ i line, FillText line 0 (f i)) lines)
  = zip_with (λ line y, (line, 0%Q, y)) lines (f <$> seq 0 (length lines)).
Proof.
  revert f. induction lines as [|l lines IH]; intros f; [done|].
  cbn [imap length seq fmap list_fmap zip_with]. unfold fillTexts in *.
  cbn [omap list_omap]. f_equal.
  rewrite <- fmap_S_seq, <- list_fmap_compose. apply (IH (f ∘ S)).
Qed.


(** X16.  Reordering shows in the export: after ['top'] the round of the
    selected element is the last before the download, so it is painted over
    all the others; after ['bottom'] it is the first after the overlay, so
    all the others are painted over it.  The other rounds keep their
    order. *)
Theorem moveLayer_sets_export_order
    (loadImage : string → option HTMLImage.t) (now : N) (st : EditorState)
    (sel : string) (l1 l2 : list EditorElement) (el : EditorElement) :
  background_well_formed (background st) →
  layer_selected st sel →
  elements st = l1 ++ el :: l2 →
  Forall (λ e, el_id e ≠ sel) l1 → el_id el = sel →
  let head :=
    ops_of (renderBackground loadImage (Dimensions.width (canvasDimensions st))
              (Dimensions.height (canvasDimensions st)) (background st))
    ++ ops_of (renderOverlay (Dimensions.width (canvasDimensions st))
                 (Dimensions.height (canvasDimensions st)) (overlay st)) in
  let rounds l := concat ((λ e, ops_of (renderElement loadImage e)) <$> l) in
  let click := [LinkClick ("design-" +:+ pretty now +:+ ".png")] in
  (handleDownload loadImage true now st).2
  = head ++ rounds l1 ++ ops_of (renderElement loadImage el) ++ rounds l2 ++ click
  ∧ (handleDownload loadImage true now (moveLayer Direction.top st)).2
    = head ++ rounds l1 ++ rounds l2 ++ ops_of (renderElement loadImage el) ++ click
  ∧ (handleDownload loadImage true now (moveLayer Direction.bottom st)).2
    = head ++ ops_of (renderElement loadImage el) ++ rounds l1 ++ rounds l2 ++ click.
Proof.
  intros Hbg Hsel Hels Hl1 Hid head rounds click.
  rewrite (moveLayer_top_middle st sel l1 el l2), (moveLayer_bottom_middle st sel l1 el l2)
    by done.
  rewrite !render_trace by done. cbn [elements set_elements canvasDimensions background overlay].
  rewrite Hels. unfold rounds, head, click.
  rewrite !fmap_app, !fmap_cons, !concat_app, !concat_cons, !fmap_app, !concat_app.
  cbn [fmap list_fmap concat]. rewrite !app_nil_r, <- !app_assoc. done.
Qed.

Lemma moveLayer_sets_export_order_witness :
  let loadImage := λ _ : string, @None HTMLImage.t in
  let st := two_texts_first_selected in
  let head :=
    ops_of (renderBackground loadImage (Dimensions.width (canvasDimensions st))
              (Dimensions.height (canvasDimensions st)) (background st))
    ++ ops_of (renderOverlay (Dimensions.width (canvasDimensions st))
                 (Dimensions.height (canvasDimensions st)) (overlay st)) in
  let rounds l := concat ((λ e, ops_of (renderElement loadImage e)) <$> l) in
  let click := [LinkClick ("design-" +:+ pretty 7%N +:+ ".png")] in
  ∃ second,
    elements st = [] ++ Text first_text :: [second]
    ∧ (handleDownload loadImage true 7 st).2
      = head ++ rounds [] ++ ops_of (renderElement loadImage (Text first_text))
        ++ rounds [second] ++ click
    ∧ (handleDownload loadImage true 7 (moveLayer Direction.top st)).2
      = head ++ rounds [] ++ rounds [second]
        ++ ops_of (renderElement loadImage (Text first_text)) ++ click
    ∧ (handleDownload loadImage true 7 (moveLayer Direction.bottom st)).2
      = head ++ ops_of (renderElement loadImage (Text first_text)) ++ rounds []
        ++ rounds [second] ++ click.
Proof.
  eexists. split; [reflexivity|].
  apply (moveLayer_sets_export_order (λ _, None) 7 two_texts_first_selected "1" [] _
           (Text first_text)); [exact I|by repeat split|reflexivity|constructor|reflexivity].
Defined.

(** ** Bounds kept by every reachable state *)

(** Each side of the crop is between 0 and 95 percent and at least 5
    percent of the element stays visible in each direction. *)
Definition crop_bounded (c : CropData.t) : Prop :=
  crop_in_range c
  ∧ (CropData.top c + CropData.bottom c <= 95)%Q
  ∧ (CropData.left c + CropData.right c <= 95)%Q.

(** The sizes the resize gesture and the constructors maintain. *)
Definition size_bounded (el : EditorElement) : Prop :=
  match el with
  | Text t => (10 <= TextElement.fontSize t)%Q
  | Image i =>
      (0 < ImageElement.width i ∧ 0 < ImageElement.height i
       ∧ 0 < ImageElement.aspectRatio i)%Q
  | Shape s => (20 <= ShapeElement.width s ∧ 20 <= ShapeElement.height s)%Q
  end.

Definition el_bounded (el : EditorElement) : Prop :=
  (∀ c, el_crop el = Some c → crop_bounded c) ∧ size_bounded el.

Lemma el_bounded_set_base b el :
  BaseElement.crop b = el_crop el → el_bounded el → el_bounded (el_set_base b el).
Proof.
  intros Hb [Hc Hs]. split; [|by destruct el].
  intros c. rewrite el_crop_set_base, Hb. apply Hc.
Qed.

Lemma cropElement_bounded h snap dx dy el el' :
  cropElement h snap dx dy el = Some el' → el_bounded el → el_bounded el'.
Proof.
  intros Hg [Hc Hs].
  assert (crop_in_range (default (CropData.mk 0 0 0 0) (el_crop el))) as Hcur.
  { destruct (el_crop el) as [c|]; [by apply Hc|].
    unfold crop_in_range. cbn. lra. }
  destruct (cropElement_bounds _ _ _ _ _ _ Hg) as (c' & Hc' & Htb & Hlr).
  unfold cropElement in Hg. destruct (snap_crop snap) as [init|]; [|done].
  cbn [mbind option_bind] in Hg. injection Hg as <-.
  split; [|by destruct el].
  intros c Hcrop. rewrite Hc' in Hcrop. injection Hcrop as <-.
  split; [|done].
  rewrite el_crop_set_base in Hc'. cbn [BaseElement.crop BaseElement.set_crop] in Hc'.
  injection Hc' as <-. destruct Hcur as (Ht & Hr & Hb & Hl).
  destruct h; unfold crop_in_range;
    cbn [CropData.top CropData.bottom CropData.left CropData.right];
    repeat split; try tauto; by apply clamp_range.
Qed.

Lemma gestureElement_bounded st dx dy el el' :
  gestureElement st dx dy el = Some el' →
  el_bounded el →
  (∀ el0, initialElementState st = SnapElement el0 → same_ratio el0 el) →
  el_bounded el'.
Proof.
  unfold gestureElement. intros Hg Hb Hsnap.
  destruct (isCroppingDrag st) as [h|]; [by eapply cropElement_bounded|].
  destruct (isDragging st).
  { apply dragElement_inv in Hg as (b & -> & _ & Hcrop). by apply el_bounded_set_base. }
  destruct (isResizing st).
  { destruct Hb as [Hc Hs]. unfold resizeElement in Hg. destruct el as [t|i|s].
    - destruct (snap_fontSize _); [|done]. injection Hg as <-.
      split; [exact Hc|]. apply Math_max_ge_l.
    - destruct (initialElementState st) as [| |[t0|i0|s0]|] eqn:Hs0; try done.
      cbn in Hg. injection Hg as <-. split; [exact Hc|].
      destruct Hs as (_ & _ & Har).
      rewrite (Hsnap _ eq_refl i0 i eq_refl eq_refl).
      cbn [size_bounded ImageElement.set_size ImageElement.width ImageElement.height
           ImageElement.aspectRatio].
      pose proof (Math_max_ge_l 20 (ImageElement.width i0 + dx)) as Hw.
      repeat split; [lra| |done].
      apply Qlt_shift_div_l; [done|]. lra.
    - destruct (snap_width _); [|done]. destruct (snap_height _); [|done].
      injection Hg as <-. split; [exact Hc|]. split; apply Math_max_ge_l. }
  destruct (isRotating st); [|by injection Hg as <-].
  apply rotateElement_inv in Hg as (b & -> & _ & Hcrop). by apply el_bounded_set_base.
Qed.

Lemma handleMouseMove_bounded e st st' :
  handleMouseMove e st = Some st' → scene_inv st →
  Forall el_bounded (elements st) → Forall el_bounded (elements st').
Proof.
  intros [_ Hmove]%handleMouseMove_inv [_ Hall] Hb.
  assert (Forall (λ el, el_inv st el ∧ el_bounded el) (elements st)) as Hboth
    by (by apply Forall_and).
  eapply Forall_Forall2_r; [|exact Hboth|exact Hmove].
  intros el el' [[_ Hsnap] Hel] [->|[Hs Hg]]; [done|].
  apply bool_decide_eq_true in Hs.
  eapply gestureElement_bounded; [exact Hg|exact Hel|by apply Hsnap].
Qed.

Lemma assign_field_bounded u el : el_bounded el → el_bounded (assign_field u el).
Proof. by destruct u, el. Qed.

Lemma new_image_bounded (w h : Z) :
  (0 < w)%Z → (0 < h)%Z →
  let aspectRatio := (inject_Z w / inject_Z h)%Q in
  (0 < (if Qgeb aspectRatio 1 then 200 else 200 * aspectRatio)
   ∧ 0 < (if Qgeb aspectRatio 1 then 200 / aspectRatio else 200)
   ∧ 0 < aspectRatio)%Q.
Proof.
  intros Hw Hh aspectRatio.
  assert (0 < aspectRatio)%Q as Hpos.
  { unfold aspectRatio. apply Qlt_shift_div_l.
    - change 0%Q with (inject_Z 0). by rewrite <- Zlt_Qlt.
    - rewrite Qmult_0_l. change 0%Q with (inject_Z 0). by rewrite <- Zlt_Qlt. }
  destruct (Qgeb aspectRatio 1); repeat split; try lra.
  apply Qlt_shift_div_l; [done|]. lra.
Qed.



(** ** Reading files *)

(** The first character of a literal. *)
Definition char_of (s : string) : Ascii.ascii :=
  match s with
  | String c _ => c
  | EmptyString => Ascii.zero
  end.

Definition comma : Ascii.ascii := Eval cbv in char_of ",".
Definition colon : Ascii.ascii := Eval cbv in char_of ":".
Definition digit_0 : Ascii.ascii := Eval cbv in char_of "0".

(** [s.split(c)] for a one-character separator. *)
Fixpoint split_on (c : Ascii.ascii) (s : string) : list string :=
  match s with
  | EmptyString => [EmptyString]
  | String d rest =>
      if Ascii.eqb d c then EmptyString :: split_on c rest
      else match split_on c rest with
           | l :: ls => String d l :: ls
           | [] => [String d EmptyString]
           end
  end.

(** [fileToBase64] of [utils/fileUtils.ts]: [result] is [reader.result]
    after [readAsDataURL], or [None] when [reader.onerror] fires.  The
    promise resolves with the text between the first and the second comma
    and rejects when there is none or it is empty. *)
Definition fileToBase64 (result : option string) : option string :=
  match result with
  | None => None
  | Some result =>
      match split_on comma result !! 1%nat with
      | Some base64 => if bool_decide (base64 = EmptyString) then None else Some base64
      | None => None
      end
  end.

(** Whether [c] occurs in [s]. *)
Fixpoint has_char (c : Ascii.ascii) (s : string) : bool :=
  match s with
  | EmptyString => false
  | String d rest => Ascii.eqb d c || has_char c rest
  end.

Lemma append_cons d a b : String d a +:+ b = String d (a +:+ b).
Proof. reflexivity. Qed.

Lemma append_nil b : EmptyString +:+ b = b.
Proof. reflexivity. Qed.

Lemma split_on_nonempty c s : split_on c s ≠ [].
Proof.
  induction s as [|d s IH]; [done|]. cbn [split_on].
  destruct (Ascii.eqb d c); [done|]. by destruct (split_on c s).
Qed.

Lemma split_on_prefix c a : ∀ b,
  has_char c a = false →
  split_on c (a +:+ b)
  = match split_on c b with
    | h :: t => (a +:+ h) :: t
    | [] => [a]
    end.
Proof.
  induction a as [|d a IH]; intros b Ha.
  - rewrite append_nil. destruct (split_on c b) eqn:Hb; [by apply split_on_nonempty in Hb|done].
  - cbn [has_char] in Ha. apply orb_false_iff in Ha as [Hd Ha].
    rewrite append_cons. cbn [split_on]. rewrite Hd, (IH b Ha).
    by destruct (split_on c b).
Qed.

Lemma split_on_absent c s : has_char c s = false → split_on c s = [s].
Proof.
  induction s as [|d s IH]; [done|]. cbn [has_char split_on].
  intros [Hd Hs]%orb_false_iff. by rewrite Hd, (IH Hs).
Qed.

(** X18.  Reading a file and rebuilding its data URL is a round trip: for a
    MIME type and a payload without commas, [fileToBase64] resolves with the
    payload of the reader's data URL, so the URL the upload handler builds
    from the file type and that payload is the reader's URL again.  With an
    empty payload the promise rejects and the upload changes nothing. *)
Theorem fileToBase64_dataURL_roundtrip (mime payload : string) (st : EditorState) :
  has_char comma mime = false →
  has_char comma payload = false →
  let read := fileToBase64 (Some (dataURL mime payload)) in
  read = (if bool_decide (payload = EmptyString) then None else Some payload)
  ∧ handleBackgroundUpload (Some (File.mk mime read)) st
    = (if bool_decide (payload = EmptyString) then st
       else set_selectedId (Some "bg")
              (set_background
                 (BackgroundState.mk bg_image
                    (Some (BackgroundImage.mk (dataURL mime payload) 0 0 1)) None None)
                 st)).
Proof.
  intros Hm Hp read.
  assert (read = if bool_decide (payload = EmptyString) then None else Some payload) as ->.
  { unfold read, fileToBase64, dataURL.
    rewrite (split_on_prefix comma "data:") by done.
    rewrite (split_on_prefix comma mime) by done.
    rewrite !append_cons, append_nil. unfold comma. cbn [split_on Ascii.eqb Bool.eqb].
    fold comma.
    rewrite (split_on_absent comma payload) by done. done. }
  split; [done|]. unfold handleBackgroundUpload. cbn [File.base64 File.type].
  by case_bool_decide.
Qed.

Lemma fileToBase64_dataURL_roundtrip_witness :
  fileToBase64 (Some (dataURL "image/png" "iVBORw0KGgo=")) = Some "iVBORw0KGgo="
  ∧ handleBackgroundUpload
      (Some (File.mk "image/png" (fileToBase64 (Some (dataURL "image/png" "iVBORw0KGgo=")))))
      initialState
    = set_selectedId (Some "bg")
        (set_background
           (BackgroundState.mk bg_image
              (Some (BackgroundImage.mk (dataURL "image/png" "iVBORw0KGgo=") 0 0 1)) None None)
           initialState).
Proof.
  exact (fileToBase64_dataURL_roundtrip "image/png" "iVBORw0KGgo=" initialState
           eq_refl eq_refl).
Defined.

(** ** The generation timer *)

(** [s.padStart(n, c)] for a one-character filler. *)
Definition padStart (n : nat) (c : Ascii.ascii) (s : string) : string :=
  Nat.iter (n - String.length s) (String c) s.

(** [formatTime(seconds)] of the loading view; [seconds] counts whole
    seconds from 0. *)
Definition formatTime (seconds : N) : string :=
  let minutes := (seconds `div` 60)%N in
  let remainingSeconds := (seconds `mod` 60)%N in
  padStart 2 digit_0 (pretty minutes) +:+ ":" +:+ padStart 2 digit_0 (pretty remainingSeconds).

(** Two decimal digits. *)
Definition two_digits (n : N) (rest : string) : string :=
  String (pretty_N_char (n `div` 10)) (String (pretty_N_char (n `mod` 10)) rest).

Lemma padStart_two_digits (n : N) :
  (n < 100)%N → padStart 2 digit_0 (pretty n) = two_digits n EmptyString.
Proof.
  intros Hn.
  assert (Forall (λ k, padStart 2 digit_0 (pretty k) = two_digits k EmptyString)
            (N.of_nat <$> seq 0 100)) as Hall.
  { apply (bool_decide_unpack _). vm_compute. exact I. }
  apply (proj1 (Forall_forall _ _) Hall n).
  apply list_elem_of_fmap. exists (N.to_nat n). split; [lia|].
  apply elem_of_seq. lia.
Qed.

(** X19.  Below 100 minutes the timer always reads as five characters,
    two digits of minutes, a colon and two digits of seconds, each padded
    with a zero; and two different times never read the same. *)
Theorem formatTime_MM_SS (seconds : N) :
  (seconds < 6000)%N →
  formatTime seconds
  = two_digits (seconds `div` 60) (String colon (two_digits (seconds `mod` 60) EmptyString))
  ∧ String.length (formatTime seconds) = 5%nat
  ∧ ∀ other, (other < 6000)%N → formatTime other = formatTime seconds → other = seconds.
Proof.
  assert (∀ s, (s < 6000)%N →
               formatTime s
               = two_digits (s `div` 60) (String colon (two_digits (s `mod` 60) EmptyString)))
    as Hfmt.
  { intros s Hs. unfold formatTime.
    assert (s `div` 60 < 100)%N as Hm by (apply N.Div0.div_lt_upper_bound; lia).
    assert (s `mod` 60 < 60)%N as Hr by (apply N.mod_upper_bound; lia).
    rewrite !padStart_two_digits by lia. unfold two_digits.
    by rewrite !append_cons, append_nil. }
  intros Hs. split; [by apply Hfmt|]. split; [by rewrite Hfmt|].
  intros other Ho. rewrite !Hfmt by done. unfold two_digits. intros [= H1 H2 H3 H4].
  assert (∀ a b, (a < 100)%N → (b < 100)%N →
                 pretty_N_char (a `div` 10) = pretty_N_char (b `div` 10) →
                 pretty_N_char (a `mod` 10) = pretty_N_char (b `mod` 10) → a = b) as Hdig.
  { intros a b Ha Hb Hd Hm.
    apply pretty_N_char_inj in Hd; [|apply N.Div0.div_lt_upper_bound; lia..].
    apply pretty_N_char_inj in Hm; [|apply N.mod_upper_bound; lia..].
    rewrite (N.div_mod a 10), (N.div_mod b 10) by lia. by rewrite Hd, Hm. }
  assert (other `div` 60 = seconds `div` 60)%N as Hdiv.
  { apply Hdig; [apply N.Div0.div_lt_upper_bound; lia..|done|done]. }
  assert (other `mod` 60 = seconds `mod` 60)%N as Hmod.
  { apply Hdig; [pose proof (N.mod_upper_bound other 60); lia
                |pose proof (N.mod_upper_bound seconds 60); lia|done|done]. }
  rewrite (N.div_mod other 60), (N.div_mod seconds 60) by lia. by rewrite Hdiv, Hmod.
Qed.

Lemma formatTime_MM_SS_witness :
  formatTime 754 = "12:34" ∧ String.length (formatTime 754) = 5%nat.
Proof.
  destruct (formatTime_MM_SS 754) as (Hfmt & Hlen & _); [reflexivity|].
  split; [exact Hfmt|exact Hlen].
Defined.

(** ** Eraser strokes *)

(** [q] is within [r] of zero. *)
Definition within (r q : Q) : Prop := (- r <= q ∧ q <= r)%Q.

(** The pointer position of a stroke event in canvas pixels. *)
Definition eraser_point (e : EraserEvent.t) (canvas : Raster.t) : Point.t :=
  let scaleX := (inject_Z (Raster.width canvas) / EraserEvent.rect_width e)%Q in
  let scaleY := (inject_Z (Raster.height canvas) / EraserEvent.rect_height e)%Q in
  Point.mk ((EraserEvent.clientX e - EraserEvent.rect_left e) * scaleX)%Q
           ((EraserEvent.clientY e - EraserEvent.rect_top e) * scaleY)%Q.

Lemma fold_left_fmap {A B C} (f : A → B → A) (g : C → B) (l : list C) : ∀ a,
  fold_left f (g <$> l) a = fold_left (λ a x, f a (g x)) l a.
Proof. induction l as [|x l IH]; intros a; [done|]. cbn. apply IH. Qed.

Lemma step_bound (d dist brush : Q) (steps : Z) :
  within dist d → (0 < brush)%Q →
  steps = Qceiling (dist / (brush * 0.2)) → (0 < steps)%Z →
  within (brush * 0.2) (d / inject_Z steps).
Proof.
  intros [Hd1 Hd2] Hb -> Hs.
  set (s := inject_Z (Qceiling (dist / (brush * 0.2)))).
  assert (0 < s)%Q as Hs' by (unfold s; change 0%Q with (inject_Z 0); by rewrite <- Zlt_Qlt).
  assert (dist <= s * (brush * 0.2))%Q as Hdist.
  { pose proof (Qle_ceiling (dist / (brush * 0.2))) as Hc. fold s in Hc.
    apply (Qmult_le_r _ _ (brush * 0.2)) in Hc; [|lra].
    assert (dist / (brush * 0.2) * (brush * 0.2) == dist)%Q as Heq by (field; lra).
    by rewrite Heq in Hc. }
  split.
  - apply Qle_shift_div_l; [done|]. lra.
  - apply Qle_shift_div_r; [done|]. lra.
Qed.

Section EraserStroke.
Variable hypot : Q → Q → Q.
Variable drawPoint : Q → Q → Q → Raster.t → Q → Q → Raster.t.

(** The centres stamped by one stroke event that ends at [p]: the
    interpolated ones from the previous position, when there is one, then
    [p]. *)
Definition stroke (brush : Q) (last : option Point.t) (p : Point.t) : list Point.t :=
  match last with
  | Some last =>
      let dist := hypot (Point.x p - Point.x last)%Q (Point.y p - Point.y last)%Q in
      let steps := Qceiling (dist / (brush * 0.2))%Q in
      (λ i, let t := (inject_Z i / inject_Z steps)%Q in
            Point.mk (Point.x last + (Point.x p - Point.x last) * t)%Q
                     (Point.y last + (Point.y p - Point.y last) * t)%Q)
        <$> seqZ 0 steps
  | None => []
  end ++ [p].

(** One stroke event stamps the centres of [stroke], in order, and
    remembers its end. *)
Lemma handleEraserDraw_stroke e st canvas :
  EraserEvent.buttons e = 1%Z → eraserCanvas st = Some canvas →
  handleEraserDraw hypot drawPoint e st
  = set_eraserLastPos (Some (eraser_point e canvas))
      (set_eraserCanvas
         (Some (fold_left
                  (λ c q, drawPoint (eraserBrushSize st) (eraserHardness st) (eraserOpacity st)
                            c (Point.x q) (Point.y q))
                  (stroke (eraserBrushSize st) (eraserLastPos st) (eraser_point e canvas))
                  canvas))
         st).
Proof.
  intros He Hc. unfold handleEraserDraw. rewrite He, Hc. cbn [bool_decide negb].
  rewrite bool_decide_eq_true_2 by done. cbn [negb].
  unfold stroke. rewrite fold_left_app.
  destruct (eraserLastPos st) as [last|]; [|done].
  by rewrite fold_left_fmap.
Qed.

(** [Math.hypot] is at least the size of each of its arguments. *)
Hypothesis hypot_dominates : ∀ a b, within (hypot a b) a ∧ within (hypot a b) b.

End EraserStroke.

(** A stand-in for [Math.hypot] over the rationals: the sum of the sizes of
    its arguments, which is at least the size of each. *)
Definition taxicab (a b : Q) : Q := (Math_max a (- a) + Math_max b (- b))%Q.

Lemma taxicab_dominates a b : within (taxicab a b) a ∧ within (taxicab a b) b.
Proof.
  unfold within, taxicab, Math_max.
  destruct (Qlt_le_dec a (- a)), (Qlt_le_dec b (- b)); lra.
Qed.

